(** * Sourcetrail: the Graph container (src/lib/data/graph/Graph.cpp)

    A shallow embedding of [Graph] and of the parts of [Node], [Edge] and
    [Token] it relies on, followed by the properties of lookup, deduplicated
    creation, hierarchy materialisation, cascading removal and plain-copy
    merge.

    The C++ objects live in a store indexed by address.  A [State] holds the
    two owning vectors of one graph ([m_nodes], [m_edges]) together with the
    store, the allocation and id counters and the log.  Operations that
    dereference a pointer, use an iterator or recurse are written in a small
    state-and-fault monad, so that undefined behaviour of the C++ program
    shows up as a [Fault] instead of being hidden. *)

From Stdlib Require Import String Ascii NArith List Lia.
From stdpp Require Import base option list gmap strings relations.

Local Open Scope N_scope.
Local Open Scope string_scope.
Local Open Scope list_scope.

(** ** Data model *)

(** Modelled from the spec: [Node::NodeType] is declared in Node.h, which is
    not among the sources.  Graph.cpp only names [NODE_UNDEFINED]; the spec
    calls it the "undefined" placeholder among the type tags.  All other tags
    are kept abstract. *)
Inductive NodeType :=
  | NODE_UNDEFINED
  | NODE_DEFINED (tag : N).

(** Modelled from the spec: [Edge::EdgeType] is declared in Edge.h.  Graph.cpp
    only names [EDGE_MEMBER], the reserved "membership" type. *)
Inductive EdgeType :=
  | EDGE_MEMBER
  | EDGE_OTHER (tag : N).

#[global] Instance NodeType_eq_dec : EqDecision NodeType.
Proof. solve_decision. Defined.
#[global] Instance EdgeType_eq_dec : EqDecision EdgeType.
Proof. solve_decision. Defined.

(** [==] on node types. *)
Definition NodeType_eqb (a b : NodeType) : bool :=
  match a, b with
  | NODE_UNDEFINED, NODE_UNDEFINED => true
  | NODE_DEFINED x, NODE_DEFINED y => N.eqb x y
  | _, _ => false
  end.

(** [==] on edge types. *)
Definition EdgeType_eqb (a b : EdgeType) : bool :=
  match a, b with
  | EDGE_MEMBER, EDGE_MEMBER => true
  | EDGE_OTHER x, EDGE_OTHER y => N.eqb x y
  | _, _ => false
  end.

(** Modelled from the spec: a node has an id, a full hierarchical name, a
    type tag, "its own incident-edge index" ([node_edges], the addresses of
    the edges that start or end here, in registration order) and attachable
    components, of which Graph.cpp uses the signature only. *)
Record Node := mkNode {
  node_id : N;
  node_type : NodeType;
  node_name : string;
  node_edges : list N;
  node_signature : option string
}.

(** Modelled from the spec: an edge has an id, a type tag and non-owning
    references to exactly two nodes. *)
Record Edge := mkEdge {
  edge_id : N;
  edge_type : EdgeType;
  edge_from : N;
  edge_to : N
}.

(** The identity contract shared by nodes and edges ([Token::getId]). *)
Class Token (T : Type) := getId : T → N.
#[global] Instance Node_Token : Token Node := node_id.
#[global] Instance Edge_Token : Token Edge := edge_id.

(** A [Token*] returned by the unified query points to a node or to an edge. *)
Inductive TokenPtr :=
  | NodeToken (p : N)
  | EdgeToken (p : N).

(** The two severities Graph.cpp logs with. *)
Inductive LogLevel := LOG_WARNING | LOG_ERROR.

(** [m_nodes] and [m_edges] are the graph's vectors of owning pointers, in
    insertion order.  [nodes] and [edges] are the live objects by address;
    they may hold objects of other graphs as well. *)
Record State := mkState {
  m_nodes : list N;
  m_edges : list N;
  nodes : gmap N Node;
  edges : gmap N Edge;
  next_addr : N;
  next_id : N;
  log : list (LogLevel * string)
}.

(** A graph that owns nothing, in a store without objects. *)
Definition empty_graph : State :=
  mkState [] [] ∅ ∅ 1 1 [].

(** Field updates. *)
Definition set_m_nodes (l : list N) (s : State) : State :=
  mkState l (m_edges s) (nodes s) (edges s) (next_addr s) (next_id s) (log s).
Definition set_m_edges (l : list N) (s : State) : State :=
  mkState (m_nodes s) l (nodes s) (edges s) (next_addr s) (next_id s) (log s).
Definition set_nodes (h : gmap N Node) (s : State) : State :=
  mkState (m_nodes s) (m_edges s) h (edges s) (next_addr s) (next_id s) (log s).
Definition set_edges (h : gmap N Edge) (s : State) : State :=
  mkState (m_nodes s) (m_edges s) (nodes s) h (next_addr s) (next_id s) (log s).
Definition add_log (lvl : LogLevel) (msg : string) (s : State) : State :=
  mkState (m_nodes s) (m_edges s) (nodes s) (edges s) (next_addr s) (next_id s)
          (log s ++ [(lvl, msg)]).

(** ** Faults and the monad *)

(** The ways in which a run leaves defined behaviour. *)
Inductive Fault :=
  | DanglingNode (p : N)   (* a Node* that points to no live node is read *)
  | DanglingEdge (p : N)   (* an Edge* that points to no live edge is read *)
  | NullPointer            (* a null Node* is read *)
  | NullComponent          (* getComponent<T>() gave null and is read *)
  | InvalidIterator.       (* erase on end() or on an invalidated iterator *)

(** The outcome of a run: a value, a fault, or no fuel left for the
    recursion. *)
Inductive res (A : Type) :=
  | Ok (a : A)
  | Err (f : Fault)
  | OutOfFuel.
Arguments Ok {A} a.
Arguments Err {A} f.
Arguments OutOfFuel {A}.

(** Const member functions read the state. *)
Definition R (A : Type) := State → res A.
(** Non-const member functions may change it. *)
Definition M (A : Type) := State → res (A * State).

(** Sequencing: a fault or a lack of fuel ends the run. *)
Definition ret {A} (a : A) : M A := fun s => Ok (a, s).
Definition bind {A B} (c : M A) (k : A → M B) : M B :=
  fun s => match c s with
           | Ok (a, s') => k a s'
           | Err f => Err f
           | OutOfFuel => OutOfFuel
           end.
Definition read {A} (c : R A) : M A :=
  fun s => match c s with
           | Ok a => Ok (a, s)
           | Err f => Err f
           | OutOfFuel => OutOfFuel
           end.
Definition modify (f : State → State) : M unit := fun s => Ok (tt, f s).
Definition fault {A} (f : Fault) : M A := fun _ => Err f.

Notation "'let*' x ':=' c 'in' k" := (bind c (fun x => k))
  (at level 10, x name, c at level 100, k at level 200, only parsing).
Notation "c ';;' k" := (bind c (fun _ => k))
  (at level 100, k at level 200, right associativity, only parsing).

(** Sequencing of reads. *)
Definition rbind {A B} (c : res A) (k : A → res B) : res B :=
  match c with
  | Ok a => k a
  | Err f => Err f
  | OutOfFuel => OutOfFuel
  end.

(** A loop over a fixed sequence. *)
Fixpoint forEach {A} (f : A → M unit) (l : list A) : M unit :=
  match l with
  | [] => ret tt
  | x :: l' => f x ;; forEach f l'
  end.

(** Reading through a [Node*] or an [Edge*]: the object must be alive. *)
Definition deref_node (p : N) : R Node :=
  fun s => match nodes s !! p with
           | Some n => Ok n
           | None => Err (DanglingNode p)
           end.

Definition deref_edge (p : N) : R Edge :=
  fun s => match edges s !! p with
           | Some e => Ok e
           | None => Err (DanglingEdge p)
           end.

(** Modelled from the spec: the macros [LOG_WARNING] and [LOG_ERROR] of
    utility/logging, which "log" a message and continue. *)
Definition LOG (lvl : LogLevel) (msg : string) : M unit := modify (add_log lvl msg).

(** Position of the first occurrence of [x], or [length l] when there is
    none: the iterator the loops of [removeNode] and [removeEdge] stop at,
    with [length l] for [end()]. *)
Fixpoint find_pos (x : N) (l : list N) : nat :=
  match l with
  | [] => 0%nat
  | y :: l' => if N.eqb y x then 0%nat else S (find_pos x l')
  end.

(** ** Node and Edge *)

(** [std::find_if] over a vector of edge pointers, reading each pointee. *)
Fixpoint find_if_edges (func : Edge → bool) (h : gmap N Edge) (l : list N)
  : res (option N) :=
  match l with
  | [] => Ok None
  | e :: l' =>
      match h !! e with
      | None => Err (DanglingEdge e)
      | Some E => if func E then Ok (Some e) else find_if_edges func h l'
      end
  end.

(** [std::find_if] over a vector of node pointers, reading each pointee. *)
Fixpoint find_if_nodes (func : Node → bool) (h : gmap N Node) (l : list N)
  : res (option N) :=
  match l with
  | [] => Ok None
  | n :: l' =>
      match h !! n with
      | None => Err (DanglingNode n)
      | Some nd => if func nd then Ok (Some n) else find_if_nodes func h l'
      end
  end.

(** Modelled from the spec: [Node::findEdgeOfType] (Node.cpp is not among the
    sources).  The spec has the edge lookup "delegated to the node's own
    incidence index, not a full graph scan": the first edge of the index that
    has the given type and satisfies [func]. *)
Definition Node_findEdgeOfType (type : EdgeType) (func : Edge → bool) (node : N)
  : R (option N) :=
  fun s =>
    rbind (deref_node node s) (fun nd =>
    find_if_edges (fun E => EdgeType_eqb (edge_type E) type && func E)
                  (edges s) (node_edges nd)).

(** Modelled from the spec: [Node::getParentNode].  "A node's parent is not a
    field; it is implied by an incoming relation edge of the reserved
    membership type." *)
Definition Node_getParentNode (node : N) : R (option N) :=
  fun s =>
    rbind (Node_findEdgeOfType EDGE_MEMBER (fun E => N.eqb (edge_to E) node) node s)
      (fun oe =>
         match oe with
         | None => Ok None
         | Some e => rbind (deref_edge e s) (fun E => Ok (Some (edge_from E)))
         end).

(** A member function that changes the node [p] points to. *)
Definition update_node (p : N) (f : Node → Node) : M unit :=
  fun s =>
    match nodes s !! p with
    | None => Err (DanglingNode p)
    | Some nd => Ok (tt, set_nodes (<[p := f nd]> (nodes s)) s)
    end.

(** Modelled from the spec: [Node::setType], the "type upgrade". *)
Definition Node_setType (type : NodeType) (node : N) : M unit :=
  update_node node (fun nd =>
    mkNode (node_id nd) type (node_name nd) (node_edges nd) (node_signature nd)).

(** Modelled from the spec: attaching the signature component. *)
Definition Node_addComponentSignature (sig : string) (node : N) : M unit :=
  update_node node (fun nd =>
    mkNode (node_id nd) (node_type nd) (node_name nd) (node_edges nd) (Some sig)).

(** Modelled from the spec: [node->getComponent<TokenComponentSignature>()
    ->getSignature()].  The component pointer is null when no signature is
    attached, and Graph.cpp reads through it without a test. *)
Definition Node_getSignature (node : N) : R string :=
  fun s =>
    rbind (deref_node node s) (fun nd =>
      match node_signature nd with
      | Some sig => Ok sig
      | None => Err NullComponent
      end).

(** The node with its incidence index replaced. *)
Definition node_with_edges (l : list N) (nd : Node) : Node :=
  mkNode (node_id nd) (node_type nd) (node_name nd) l (node_signature nd).

(** Modelled from the spec: [Node::addEdge], called by the Edge constructors
    on both end points (the "node/edge integration" that keeps the incidence
    index). *)
Definition Node_addEdge (e : N) (node : N) : M unit :=
  update_node node (fun nd => node_with_edges (node_edges nd ++ [e]) nd).

(** [std::find] and [erase] on a vector: the first occurrence goes. *)
Fixpoint remove_first (x : N) (l : list N) : list N :=
  match l with
  | [] => []
  | y :: l' => if N.eqb y x then l' else y :: remove_first x l'
  end.

(** Modelled from the spec: [Node::removeEdge], called by the Edge destructor
    on both end points. *)
Definition Node_removeEdge (e : N) (node : N) : M unit :=
  update_node node (fun nd => node_with_edges (remove_first e (node_edges nd)) nd).

(** Modelled from the spec: [Token::Token()] (Token.cpp is not among the
    sources).  The id is "assigned at creation", unique and stable: a fresh
    value of a global counter. *)
Definition Token_fresh_id : M N :=
  fun s => Ok (next_id s,
               mkState (m_nodes s) (m_edges s) (nodes s) (edges s)
                       (next_addr s) (next_id s + 1) (log s)).

(** Allocation by [std::make_shared]: an address no live object has. *)
Definition allocate : M N :=
  fun s => Ok (next_addr s,
               mkState (m_nodes s) (m_edges s) (nodes s) (edges s)
                       (next_addr s + 1) (next_id s) (log s)).

(** Modelled from the spec: [std::make_shared<Node>(type, fullName)], the
    Node constructor of Node.cpp.  The node is born with its type and name,
    a fresh id, no edges and no components. *)
Definition new_Node (type : NodeType) (fullName : string) : M N :=
  let* p := allocate in
  let* id := Token_fresh_id in
  modify (fun s => set_nodes (<[p := mkNode id type fullName [] None]> (nodes s)) s) ;;
  ret p.

(** Modelled from the spec: [std::make_shared<Node>( *node )], the Node copy
    constructor of Node.cpp, "a structurally shallow copy (attributes only,
    not descendant subtree)": the copy keeps id, type, name and components;
    its incidence index starts empty. *)
Definition copy_Node (src : Node) : M N :=
  let* p := allocate in
  modify (fun s => set_nodes
            (<[p := mkNode (node_id src) (node_type src) (node_name src) []
                           (node_signature src)]> (nodes s)) s) ;;
  ret p.

(** Modelled from the spec: the body shared by the Edge constructors of
    Edge.cpp.  The edge refers to its two nodes and registers itself in the
    incidence index of both (the index holds the edges "of any type, in
    either direction"). *)
Definition construct_Edge (id : N) (type : EdgeType) (from to : N) : M N :=
  let* p := allocate in
  modify (fun s => set_edges (<[p := mkEdge id type from to]> (edges s)) s) ;;
  Node_addEdge p from ;;
  Node_addEdge p to ;;
  ret p.

(** Modelled from the spec: [std::make_shared<Edge>(type, from, to)], with a
    fresh id. *)
Definition new_Edge (type : EdgeType) (from to : N) : M N :=
  let* id := Token_fresh_id in
  construct_Edge id type from to.

(** Modelled from the spec: [std::make_shared<Edge>( *edge, from, to)], the
    copy with the id and type of [edge] and the given end points. *)
Definition copy_Edge (src : Edge) (from to : N) : M N :=
  construct_Edge (edge_id src) (edge_type src) from to.

(** Modelled from the spec: [Edge::~Edge] of Edge.cpp, run when the owning
    pointer is dropped.  Keeping "each node's own incidence index consistent
    with this removal belongs to the node/edge integration": the edge leaves
    the index of both end points, then its storage is released. *)
Definition delete_Edge (e : N) : M unit :=
  let* E := read (deref_edge e) in
  Node_removeEdge e (edge_from E) ;;
  Node_removeEdge e (edge_to E) ;;
  modify (fun s => set_edges (delete e (edges s)) s).

(** Modelled from the spec: [Node::~Node] of Node.cpp.  The storage is
    released; a node does not own its edges, so they are not touched. *)
Definition delete_Node (n : N) : M unit :=
  modify (fun s => set_nodes (delete n (nodes s)) s).

(** Modelled from the spec: [Node::forEachEdge] of Node.cpp.  The spec of
    [removeNode] works on a "snapshot" of the node's edges and asks that the
    set be fixed "before removing any of them": the callback is run on the
    index as it was when the loop started, whatever it removes meanwhile. *)
Definition Node_forEachEdge (node : N) (func : N → M unit) : M unit :=
  let* nd := read (deref_node node) in
  forEach func (node_edges nd).

(** The edges of the given type among [l], in order; each one is read. *)
Fixpoint edges_of_type (type : EdgeType) (h : gmap N Edge) (l : list N)
  : res (list N) :=
  match l with
  | [] => Ok []
  | e :: l' =>
      match h !! e with
      | None => Err (DanglingEdge e)
      | Some E =>
          rbind (edges_of_type type h l') (fun r =>
            Ok (if EdgeType_eqb (edge_type E) type then e :: r else r))
      end
  end.

(** Modelled from the spec: [Node::forEachEdgeOfType] of Node.cpp, on the
    snapshot of the node's edges of the given type ("snapshot the node's
    outgoing membership edges and, for each, ..."; the test for "outgoing" is
    in the callback of Graph.cpp). *)
Definition Node_forEachEdgeOfType (type : EdgeType) (node : N) (func : N → M unit)
  : M unit :=
  let* nd := read (deref_node node) in
  let* snapshot := read (fun s => edges_of_type type (edges s) (node_edges nd)) in
  forEach func snapshot.

(** ** Graph: lookup *)

(** [Graph::findNode] *)
Definition findNode (func : Node → bool) : R (option N) :=
  fun s => find_if_nodes func (nodes s) (m_nodes s).

(** [Graph::findEdge] *)
Definition findEdge (func : Edge → bool) : R (option N) :=
  fun s => find_if_edges func (edges s) (m_edges s).

(** [Graph::findToken]: the predicate only sees the [Token] interface; nodes
    are searched first, edges only when no node matches. *)
Definition findToken (func : ∀ T, Token T → T → bool) : R (option TokenPtr) :=
  fun s =>
    rbind (findNode (func Node _) s) (fun node =>
      match node with
      | Some n => Ok (Some (NodeToken n))
      | None =>
          rbind (findEdge (func Edge _) s) (fun edge =>
            match edge with
            | Some e => Ok (Some (EdgeToken e))
            | None => Ok None
            end)
      end).

(** [Graph::getNode] *)
Definition getNode (fullName : string) : R (option N) :=
  findNode (fun n => String.eqb (node_name n) fullName).

(** [Graph::getEdge] *)
Definition getEdge (type : EdgeType) (from to : N) : R (option N) :=
  Node_findEdgeOfType type (fun e => N.eqb (edge_to e) to) from.

(** [Graph::getNodeById] *)
Definition getNodeById (id : N) : R (option N) :=
  findNode (fun n => N.eqb (getId n) id).

(** [Graph::getEdgeById] *)
Definition getEdgeById (id : N) : R (option N) :=
  findEdge (fun e => N.eqb (getId e) id).

(** [Graph::getTokenById] *)
Definition getTokenById (id : N) : R (option TokenPtr) :=
  findToken (fun T _ t => N.eqb (getId t) id).

(** ** Graph: creation *)

(** [Graph::DELIMITER] *)
Definition DELIMITER : string := "::".

(** Modelled from the spec: [utility::split] (utilityString is not among the
    sources), which splits the full name "into ordered segments on the
    delimiter".  [skip] counts the characters of a delimiter occurrence that
    are still to be passed over; [acc] is the segment read so far. *)
Fixpoint split_go (delim : string) (skip : nat) (acc : string) (s : string)
  : list string :=
  match s with
  | EmptyString => [acc]
  | String c rest =>
      match skip with
      | S k => split_go delim k acc rest
      | O =>
          if String.prefix delim s
          then acc :: split_go delim (String.length delim - 1) EmptyString rest
          else split_go delim 0 (acc ++ String c EmptyString)%string rest
      end
  end.

(** Modelled from the spec: [utility::split(fullName, DELIMITER)]. *)
Definition split (s delim : string) : list string := split_go delim 0 EmptyString s.

(** [Graph::insertEdge] *)
Definition insertEdge (type : EdgeType) (from to : N) : M N :=
  let* edgePtr := new_Edge type from to in
  modify (fun s => set_m_edges (m_edges s ++ [edgePtr]) s) ;;
  ret edgePtr.

(** [Graph::createEdge] *)
Definition createEdge (type : EdgeType) (from to : N) : M N :=
  let* edge := read (getEdge type from to) in
  match edge with
  | Some e => ret e
  | None => insertEdge type from to
  end.

(** [Graph::insertNode]; [parentNode] may be null. *)
Definition insertNode (type : NodeType) (fullName : string) (parentNode : option N)
  : M N :=
  let* node := new_Node type fullName in
  modify (fun s => set_m_nodes (m_nodes s ++ [node]) s) ;;
  match parentNode with
  | Some parent => createEdge EDGE_MEMBER parent node ;; ret node
  | None => ret node
  end.

(** The loop of [Graph::insertNodeHierarchy].  [first] is [i == 0], [name] the
    prefix accumulated so far, [node] the node of the previous level (null
    before the first); the last segment is the one with nothing after it. *)
Fixpoint insertNodeHierarchy_loop (type : NodeType) (names : list string)
    (first : bool) (name : string) (node : option N) : M (option N) :=
  match names with
  | [] => ret node
  | seg :: rest =>
      let name := ((if first then name else name ++ DELIMITER) ++ seg)%string in
      let* found := read (getNode name) in
      let* childNode :=
        match found with
        | Some c => ret c
        | None =>
            match rest with
            | [] => insertNode type name node
            | _ :: _ => insertNode NODE_UNDEFINED name node
            end
        end in
      insertNodeHierarchy_loop type rest false name (Some childNode)
  end.

(** [Graph::insertNodeHierarchy] *)
Definition insertNodeHierarchy (type : NodeType) (fullName : string) : M (option N) :=
  insertNodeHierarchy_loop type (split fullName DELIMITER) true EmptyString None.

(** [Graph::createNodeHierarchy(type, fullName)] *)
Definition createNodeHierarchy (type : NodeType) (fullName : string) : M (option N) :=
  let* node := read (getNode fullName) in
  match node with
  | Some n =>
      (if NodeType_eqb type NODE_UNDEFINED then ret tt else Node_setType type n) ;;
      ret (Some n)
  | None => insertNodeHierarchy type fullName
  end.

(** [Graph::createNodeHierarchyWithDistinctSignature(type, fullName, signature)] *)
Definition createNodeHierarchyWithDistinctSignature
    (type : NodeType) (fullName signature : string) : M (option N) :=
  let attach (node : option N) : M (option N) :=
    match node with
    | Some n => Node_addComponentSignature signature n ;; ret (Some n)
    | None => fault NullPointer
    end in
  let* node := read (getNode fullName) in
  match node with
  | Some n =>
      let* sig := read (Node_getSignature n) in
      if String.eqb sig signature
      then
        (if NodeType_eqb type NODE_UNDEFINED then ret tt else Node_setType type n) ;;
        ret (Some n)
      else
        let* parent := read (Node_getParentNode n) in
        let* n' := insertNode type fullName parent in
        attach (Some n')
  | None =>
      let* n' := insertNodeHierarchy type fullName in
      attach n'
  end.

(** ** Graph: removal *)

(** [m_edges.erase(it)]: the owning pointer at position [it] is dropped, which
    destroys the edge.  Erasing at [end()] is undefined. *)
Definition erase_edge (it : nat) : M unit :=
  fun s =>
    match m_edges s !! it with
    | None => Err InvalidIterator
    | Some e =>
        (modify (fun s => set_m_edges (delete it (m_edges s)) s) ;;
         delete_Edge e) s
    end.

(** [m_nodes.erase(it)] for an iterator obtained earlier, when it pointed to
    [held].  Every erase at or before its position invalidates an iterator of
    a vector; the vector holds each node once and only shrinks in between, so
    [it] is still valid exactly when it still points to [held]. *)
Definition erase_node (it : nat) (held : N) : M unit :=
  fun s =>
    match m_nodes s !! it with
    | None => Err InvalidIterator
    | Some n =>
        if N.eqb n held
        then (modify (fun s => set_m_nodes (delete it (m_nodes s)) s) ;;
              delete_Node n) s
        else Err InvalidIterator
    end.

(** [Graph::removeEdgeInternal] *)
Definition removeEdgeInternal (edge : N) : M unit :=
  fun s =>
    let it := find_pos edge (m_edges s) in
    if Nat.eqb it (length (m_edges s)) then Ok (tt, s) else erase_edge it s.

(** [Graph::removeEdge] *)
Definition removeEdge (edge : N) : M unit :=
  fun s =>
    let it := find_pos edge (m_edges s) in
    ((if Nat.eqb it (length (m_edges s))
      then LOG LOG_WARNING "Edge was not found in the graph."
      else ret tt) ;;
     let* E := read (deref_edge edge) in
     if EdgeType_eqb (edge_type E) EDGE_MEMBER
     then LOG LOG_ERROR "Can't remove member edge, without removing the child node."
     else erase_edge it) s.

(** The first loop of [Graph::removeNode]: the children reached by the
    outgoing member edges are removed through [rec]. *)
Definition removeNode_children (rec : N → M unit) (node : N) : M unit :=
  Node_forEachEdgeOfType EDGE_MEMBER node (fun e =>
    let* E := read (deref_edge e) in
    if N.eqb node (edge_from E) then rec (edge_to E) else ret tt).

(** The second loop of [Graph::removeNode]. *)
Definition removeNode_edges (node : N) : M unit :=
  Node_forEachEdge node removeEdgeInternal.

(** The end of [Graph::removeNode]: the check of the node's index and the
    erase. *)
Definition removeNode_finish (it : nat) (node : N) : M unit :=
  let* nd := read (deref_node node) in
  (if Nat.eqb (length (node_edges nd)) 0
   then ret tt
   else LOG LOG_ERROR "Node has still edges.") ;;
  erase_node it node.

(** [Graph::removeNode].  The function calls itself on the children; [fuel]
    bounds the depth of the calls. *)
Fixpoint removeNode (fuel : nat) (node : N) : M unit :=
  match fuel with
  | O => fun _ => OutOfFuel
  | S fuel' =>
      fun s =>
        let it := find_pos node (m_nodes s) in
        if Nat.eqb it (length (m_nodes s))
        then LOG LOG_WARNING "Node was not found in the graph." s
        else
          (removeNode_children (removeNode fuel') node ;;
           removeNode_edges node ;;
           removeNode_finish it node) s
  end.

(** ** Graph: plain copies *)

(** [Graph::addNodeAsPlainCopy] *)
Definition addNodeAsPlainCopy (node : N) : M N :=
  let* src := read (deref_node node) in
  let* n := read (getNodeById (getId src)) in
  match n with
  | Some n => ret n
  | None =>
      let* copy := copy_Node src in
      modify (fun s => set_m_nodes (m_nodes s ++ [copy]) s) ;;
      ret copy
  end.

(** [Graph::addEdgeAsPlainCopy] *)
Definition addEdgeAsPlainCopy (edge : N) : M N :=
  let* src := read (deref_edge edge) in
  let* e := read (getEdgeById (getId src)) in
  match e with
  | Some e => ret e
  | None =>
      let* from := addNodeAsPlainCopy (edge_from src) in
      let* to := addNodeAsPlainCopy (edge_to src) in
      let* copy := copy_Edge src from to in
      modify (fun s => set_m_edges (m_edges s ++ [copy]) s) ;;
      ret copy
  end.
(** ** Graph: clearing *)

(** [m_edges.clear()]: every owning pointer is dropped, which destroys the
    edges.  The order in which a vector destroys its elements is not fixed;
    [order] is that order. *)
Definition clear_edges (order : list N) : M unit :=
  forEach delete_Edge order ;;
  modify (set_m_edges []).

(** [m_nodes.clear()], destroying the nodes in the given order. *)
Definition clear_nodes (order : list N) : M unit :=
  forEach delete_Node order ;;
  modify (set_m_nodes []).

(** The body of [Graph::clear] and of [Graph::~Graph], with the elements of
    the two vectors destroyed in the given orders. *)
Definition clear_in (edge_order node_order : list N) : M unit :=
  clear_edges edge_order ;; clear_nodes node_order.

(** [Graph::clear], which is also the body of [Graph::~Graph], with the
    elements destroyed front to back. *)
Definition clear : M unit :=
  fun s => clear_in (m_edges s) (m_nodes s) s.

(** ** Graph: the overload without a type *)

(** [Graph::createNodeHierarchy(fullName)] *)
Definition createNodeHierarchy1 (fullName : string) : M (option N) :=
  createNodeHierarchy NODE_UNDEFINED fullName.

(** * Specification vocabulary *)

(** ** Concrete graphs *)

(** An empty graph next to an edge [3] between the nodes [1] and [2], all
    three owned by another graph. *)
Definition foreign_edge_state : State :=
  mkState [] []
    {[ 1 := mkNode 1 NODE_UNDEFINED "a" [3] None;
       2 := mkNode 2 NODE_UNDEFINED "b" [3] None ]}
    {[ 3 := mkEdge 3 (EDGE_OTHER 0) 1 2 ]}
    4 4 [].

(** A graph that owns the node [1]; the edge [9] from [1] to the node [5] was
    created by another graph, which owns it, and is registered in the index
    of [1]. *)
Definition leftover_edge_state : State :=
  mkState [1] []
    {[ 1 := mkNode 1 NODE_UNDEFINED "a" [9] None;
       5 := mkNode 5 NODE_UNDEFINED "z" [9] None ]}
    {[ 9 := mkEdge 9 (EDGE_OTHER 0) 1 5 ]}
    10 10 [].

(** A graph with the hierarchy [a], [a::b] whose member edge is [3]. *)
Definition member_edge_state : State :=
  mkState [1; 2] [3]
    {[ 1 := mkNode 1 NODE_UNDEFINED "a" [3] None;
       2 := mkNode 2 NODE_UNDEFINED "a::b" [3] None ]}
    {[ 3 := mkEdge 3 EDGE_MEMBER 1 2 ]}
    4 4 [].

(** ** Liveness of what the graph owns *)

(** The vectors hold owning pointers, so what they point to is alive. *)
Definition owned_live (s : State) : Prop :=
  (∀ n, n ∈ m_nodes s → is_Some (nodes s !! n)) ∧
  (∀ e, e ∈ m_edges s → is_Some (edges s !! e)).

(** No object that [l] points to in the store [h] satisfies [func]. *)
Definition no_match {T} (func : T → bool) (h : gmap N T) (l : list N) : Prop :=
  ∀ p x, p ∈ l → h !! p = Some x → func x = false.

(** Every pointer of [l] points to an object of the store [h]. *)
Definition all_live {T} (h : gmap N T) (l : list N) : Prop :=
  ∀ p, p ∈ l → is_Some (h !! p).

(** [from] is a live node and the edges registered in its index are alive. *)
Definition index_live (s : State) (from : N) : Prop :=
  ∃ nd, nodes s !! from = Some nd ∧
        ∀ e, e ∈ node_edges nd → is_Some (edges s !! e).

(** A graph that owns the node [1] and the edge [2], a self loop, which
    carry the same id [7]. *)
Definition shared_id_state : State :=
  mkState [1] [2]
    {[ 1 := mkNode 7 NODE_UNDEFINED "a" [2; 2] None ]}
    {[ 2 := mkEdge 7 (EDGE_OTHER 0) 1 1 ]}
    3 8 [].

(** The graph after [createNodeHierarchy "g"], [createNodeHierarchy "f"] and
    [createEdge (EDGE_OTHER 0) g f]: the function [g] uses the function
    [f]. *)
Definition call_edge_state : State :=
  mkState [1; 2] [3]
    {[ 1 := mkNode 1 NODE_UNDEFINED "g" [3] None;
       2 := mkNode 2 NODE_UNDEFINED "f" [3] None ]}
    {[ 3 := mkEdge 3 (EDGE_OTHER 0) 1 2 ]}
    4 4 [].

(** The statement that a node with the given full name and no signature
    anywhere in the graph makes [createNodeHierarchyWithDistinctSignature]
    read a null component. *)
Definition any_unsigned_namesake_faults : Prop :=
  ∀ s type fullName signature,
    (∃ n nd, n ∈ m_nodes s ∧ nodes s !! n = Some nd ∧
             node_name nd = fullName ∧ node_signature nd = None) →
    createNodeHierarchyWithDistinctSignature type fullName signature s
    = Err NullComponent.

(** The node [9], named "f" and without a signature, belongs to another
    graph. *)
Definition foreign_f_state : State :=
  mkState [] [] {[ 9 := mkNode 9 NODE_UNDEFINED "f" [] None ]} ∅ 10 10 [].

(** The graph after [createNodeHierarchyWithDistinctSignature "f" "sigA"] and
    [addNodeAsPlainCopy] of the foreign node [9]: the node [10] is "f" with
    signature sigA, the node [11] is the copy, named "f" too, without a
    signature. *)
Definition mixed_f_state : State :=
  mkState [10; 11] []
    {[ 9 := mkNode 9 NODE_UNDEFINED "f" [] None;
       10 := mkNode 10 NODE_UNDEFINED "f" [] (Some "sigA");
       11 := mkNode 9 NODE_UNDEFINED "f" [] None ]}
    ∅ 12 11 [].

(** A computation that never reads a null component. *)
Definition component_safe {A} (r : res A) : Prop := r ≠ Err NullComponent.

(** Closed decidable facts, such as membership in a concrete list. *)
Ltac by_decide :=
  match goal with
  | |- ?P => apply (bool_decide_eq_true_1 P); vm_compute; reflexivity
  end.

(** The allocator hands out addresses that no live object has. *)
Definition alloc_fresh (s : State) : Prop :=
  ∀ p, (next_addr s ≤ p)%N → nodes s !! p = None ∧ edges s !! p = None.

(** A graph with the nodes [1] and [2], next to the edge [13] between the
    nodes [11] and [12] of another graph. *)
Definition merge_state : State :=
  mkState [1; 2] []
    {[ 1 := mkNode 1 NODE_UNDEFINED "a" [] None;
       2 := mkNode 11 NODE_UNDEFINED "x" [] None;
       11 := mkNode 11 NODE_UNDEFINED "x" [13] None;
       12 := mkNode 12 NODE_UNDEFINED "y" [13] None ]}
    {[ 13 := mkEdge 13 (EDGE_OTHER 0) 11 12 ]}
    20 20 [].

(** ** Well-formed graphs and hierarchies *)

(** How often the edge [E] touches the node [n]: once per end, so twice for
    a self loop. *)
Definition incidence (E : Edge) (n : N) : nat :=
  (if decide (edge_from E = n) then 1 else 0)
  + (if decide (edge_to E = n) then 1 else 0).

(** The same for the edge stored at [e], counted only when the graph owns
    it. *)
Definition owned_incidence (s : State) (n e : N) : nat :=
  if decide (e ∈ m_edges s)
  then match edges s !! e with
       | Some E => incidence E n
       | None => 0
       end
  else 0.

(** A closed, consistent graph: the vectors hold no pointer twice, every
    owned edge is alive and joins owned nodes, and the index of every owned
    node lists exactly the owned edges that touch it, once per end. *)
Record graph_ok (s : State) : Prop := {
  ok_nodes_nodup : NoDup (m_nodes s);
  ok_edges_nodup : NoDup (m_edges s);
  ok_edges : ∀ e, e ∈ m_edges s →
    ∃ E, edges s !! e = Some E ∧
         edge_from E ∈ m_nodes s ∧ edge_to E ∈ m_nodes s;
  ok_index : ∀ n, n ∈ m_nodes s →
    ∃ nd, nodes s !! n = Some nd ∧
          ∀ e, count_occ N.eq_dec (node_edges nd) e = owned_incidence s n e
}.

(** [e] is an owned membership edge from the parent [p] to the child [c]. *)
Definition member_edge (s : State) (e p c : N) : Prop :=
  e ∈ m_edges s ∧
  ∃ E, edges s !! e = Some E ∧ edge_type E = EDGE_MEMBER ∧
       edge_from E = p ∧ edge_to E = c.



(** A hierarchy as [insertNodeHierarchy] builds it: a consistent graph in
    which a parent is stored before its children and a node has at most one
    parent. *)
Record hierarchy_ok (s : State) : Prop := {
  h_graph : graph_ok s;
  h_order : ∀ e p c, member_edge s e p c →
    (find_pos p (m_nodes s) < find_pos c (m_nodes s))%nat;
  h_parent : ∀ e1 e2 p1 p2 c,
    member_edge s e1 p1 c → member_edge s e2 p2 c → e1 = e2
}.

(** [s'] is [s] without the nodes [D] and the edges [X]; the edges that are
    left are as they were. *)
Record evolves (s s' : State) (D X : list N) : Prop := {
  ev_nodes : m_nodes s' = filter (λ x, x ∉ D) (m_nodes s);
  ev_edges : m_edges s' = filter (λ e, e ∉ X) (m_edges s);
  ev_frame : ∀ e, e ∈ m_edges s' → edges s' !! e = edges s !! e
}.



(** The graph after [createNodeHierarchy "a::b::c"], [createNodeHierarchy
    "a::d"] and [createEdge (EDGE_OTHER 0)] from a::d to a::b::c: the nodes
    a [1], a::b [2], a::b::c [4] and a::d [6], the member edges [3], [5] and
    [7] and the other edge [8]. *)
Definition hierarchy_state : State :=
  mkState [1; 2; 4; 6] [3; 5; 7; 8]
    {[ 1 := mkNode 1 NODE_UNDEFINED "a" [3; 7] None;
       2 := mkNode 2 NODE_UNDEFINED "a::b" [3; 5] None;
       4 := mkNode 4 (NODE_DEFINED 1) "a::b::c" [5; 8] None;
       6 := mkNode 6 (NODE_DEFINED 2) "a::d" [7; 8] None ]}
    {[ 3 := mkEdge 3 EDGE_MEMBER 1 2;
       5 := mkEdge 5 EDGE_MEMBER 2 4;
       7 := mkEdge 7 EDGE_MEMBER 1 6;
       8 := mkEdge 8 (EDGE_OTHER 0) 6 4 ]}
    9 9 [].

(** No two owned edges have the same type, start and end. *)
Definition unique_triples (s : State) : Prop :=
  ∀ e1 e2 E1 E2,
    e1 ∈ m_edges s → e2 ∈ m_edges s →
    edges s !! e1 = Some E1 → edges s !! e2 = Some E2 →
    edge_type E1 = edge_type E2 → edge_from E1 = edge_from E2 →
    edge_to E1 = edge_to E2 →
    e1 = e2.

(** What is kept while a graph is built: a hierarchy, fresh addresses from
    the allocator, no duplicate triples. *)
Definition built_ok (s : State) : Prop :=
  hierarchy_ok s ∧ alloc_fresh s ∧ unique_triples s.

(** The graphs built from the empty graph by [createNodeHierarchy] and by
    [createEdge] with a type other than the membership type between owned
    nodes. *)
Inductive built : State → Prop :=
  | built_empty : built empty_graph
  | built_hierarchy s type fullName n s' :
      built s →
      createNodeHierarchy type fullName s = Ok (n, s') →
      built s'
  | built_edge s type from to e s' :
      built s →
      type ≠ EDGE_MEMBER → from ∈ m_nodes s → to ∈ m_nodes s →
      createEdge type from to s = Ok (e, s') →
      built s'.

(** Case analysis on membership in a concrete list. *)
Ltac list_cases H :=
  repeat (apply elem_of_cons in H as [->|H]); [..|by apply elem_of_nil in H].

(** ** What an operation leaves alone *)

(** [nd'] is [nd] with some entries of its index taken out. *)
Definition node_shrinks (nd nd' : Node) : Prop :=
  node_id nd' = node_id nd ∧ node_type nd' = node_type nd ∧
  node_name nd' = node_name nd ∧ node_signature nd' = node_signature nd ∧
  sublist (node_edges nd') (node_edges nd).

(** [s'] holds nothing that [s] did not hold: the vectors and the indexes
    only lost entries, the objects that are alive were alive and have the
    attributes they had, and no address and no id was handed out. *)
Record shrinks (s s' : State) : Prop := {
  sh_nodes : sublist (m_nodes s') (m_nodes s);
  sh_edges : sublist (m_edges s') (m_edges s);
  sh_node_heap : ∀ n nd', nodes s' !! n = Some nd' →
    ∃ nd, nodes s !! n = Some nd ∧ node_shrinks nd nd';
  sh_edge_heap : ∀ e E, edges s' !! e = Some E → edges s !! e = Some E;
  sh_addr : next_addr s' = next_addr s;
  sh_id : next_id s' = next_id s
}.

(** [nd'] is [nd] with, at most, new entries at the end of its index. *)
Definition node_grows (nd nd' : Node) : Prop :=
  node_id nd' = node_id nd ∧ node_name nd' = node_name nd ∧
  node_signature nd' = node_signature nd ∧
  node_edges nd `prefix_of` node_edges nd'.

(** [s'] holds everything that [s] held: the vectors and the indexes only
    got new entries at the end, the objects that were alive are alive and
    have the attributes they had, but for the type of the nodes in
    [retyped], and nothing was logged. *)
Record grows (retyped : list N) (s s' : State) : Prop := {
  gr_nodes : m_nodes s `prefix_of` m_nodes s';
  gr_edges : m_edges s `prefix_of` m_edges s';
  gr_node_heap : ∀ n nd, nodes s !! n = Some nd →
    ∃ nd', nodes s' !! n = Some nd' ∧ node_grows nd nd' ∧
           (n ∉ retyped → node_type nd' = node_type nd);
  gr_edge_heap : ∀ e E, edges s !! e = Some E → edges s' !! e = Some E;
  gr_log : log s' = log s
}.

(** The name that the loop of [insertNodeHierarchy] has put together when it
    ends: the segments joined by the delimiter. *)
Fixpoint final_name (names : list string) (first : bool) (name : string)
  : string :=
  match names with
  | [] => name
  | seg :: rest =>
      final_name rest false
        ((if first then name else name ++ DELIMITER) ++ seg)%string
  end.


(** * Properties *)

(** ** Evaluation helpers *)



Lemma bind_Ok {A B} (c : M A) (k : A → M B) s a s' :
  c s = Ok (a, s') → bind c k s = k a s'.
Proof. unfold bind. by intros ->. Qed.

Lemma read_Ok {A} (c : R A) s a : c s = Ok a → read c s = Ok (a, s).
Proof. unfold read. by intros ->. Qed.

Lemma find_pos_le x l : (find_pos x l ≤ length l)%nat.
Proof. induction l as [|y l IH]; simpl; [lia|]. destruct (N.eqb y x); lia. Qed.

Lemma find_pos_elem x l : x ∈ l → (find_pos x l < length l)%nat.
Proof.
  induction l as [|y l IH]; simpl; [by intros ?%elem_of_nil|].
  intros [->|Hin]%elem_of_cons.
  - rewrite N.eqb_refl. lia.
  - destruct (N.eqb y x); [lia|]. specialize (IH Hin). lia.
Qed.

Lemma find_pos_not_elem x l : x ∉ l → find_pos x l = length l.
Proof.
  induction l as [|y l IH]; simpl; [done|].
  intros Hn. apply not_elem_of_cons in Hn as [Hne Hn].
  destruct (N.eqb_spec y x); [congruence|]. by rewrite IH.
Qed.

Lemma find_pos_lookup x l : x ∈ l → l !! find_pos x l = Some x.
Proof.
  induction l as [|y l IH]; simpl; [by intros ?%elem_of_nil|].
  intros Hin. destruct (N.eqb_spec y x) as [->|Hne]; [done|].
  apply elem_of_cons in Hin as [->|Hin]; [done|]. by apply IH.
Qed.

Lemma find_pos_lt_elem x l : (find_pos x l < length l)%nat → x ∈ l.
Proof.
  intros Hlt. destruct (decide (x ∈ l)) as [|Hn]; [done|].
  apply find_pos_not_elem in Hn. lia.
Qed.

Lemma EdgeType_eqb_eq a b : EdgeType_eqb a b = true ↔ a = b.
Proof.
  destruct a, b; simpl; try (split; (done || congruence)).
  rewrite N.eqb_eq. split; congruence.
Qed.

Lemma NodeType_eqb_eq a b : NodeType_eqb a b = true ↔ a = b.
Proof.
  destruct a, b; simpl; try (split; (done || congruence)).
  rewrite N.eqb_eq. split; congruence.
Qed.
Lemma update_node_Ok p f s :
  is_Some (nodes s !! p) →
  update_node p f s = Ok (tt, set_nodes (alter f p (nodes s)) s).
Proof.
  intros [nd Hnd]. unfold update_node. rewrite Hnd. do 3 f_equal.
  apply map_eq. intros q. rewrite lookup_alter, lookup_insert.
  destruct (decide (p = q)) as [<-|]; [by rewrite Hnd|done].
Qed.


Lemma lookup_alter_is_Some {A} (f : A → A) (m : gmap N A) i j :
  is_Some (alter f i m !! j) ↔ is_Some (m !! j).
Proof.
  rewrite lookup_alter. destruct (decide (i = j)) as [->|]; [|done].
  by rewrite fmap_is_Some.
Qed.

Lemma construct_Edge_Ok id type from to s :
  is_Some (nodes s !! from) → is_Some (nodes s !! to) →
  construct_Edge id type from to s
  = Ok (next_addr s,
        mkState (m_nodes s) (m_edges s)
          (alter (fun nd => node_with_edges (node_edges nd ++ [next_addr s]) nd) to
             (alter (fun nd => node_with_edges (node_edges nd ++ [next_addr s]) nd)
                from (nodes s)))
          (<[next_addr s := mkEdge id type from to]> (edges s))
          (next_addr s + 1) (next_id s) (log s)).
Proof.
  intros Hfrom Hto. unfold construct_Edge.
  unfold bind at 1, allocate. unfold bind at 1, modify.
  unfold bind at 1, Node_addEdge. rewrite update_node_Ok by done.
  unfold bind at 1. rewrite update_node_Ok by (by apply lookup_alter_is_Some).
  reflexivity.
Qed.

(** ** Rejected and ignored removals *)


(** C5: [removeEdge] on a membership edge that the graph owns logs an error
    and changes neither the two collections nor any stored node or edge: the
    resulting state is the old one with one more log entry. *)
Theorem removeEdge_member_rejected s edge E :
  edge ∈ m_edges s →
  edges s !! edge = Some E →
  edge_type E = EDGE_MEMBER →
  ∃ s',
    removeEdge edge s = Ok (tt, s') ∧
    m_nodes s' = m_nodes s ∧ m_edges s' = m_edges s ∧
    nodes s' = nodes s ∧ edges s' = edges s ∧
    next_id s' = next_id s ∧
    log s' = log s ++ [(LOG_ERROR,
                        "Can't remove member edge, without removing the child node.")].
Proof.
  intros Hin HE Hty.
  exists (add_log LOG_ERROR
            "Can't remove member edge, without removing the child node." s).
  split; [|done].
  unfold removeEdge.
  pose proof (find_pos_elem _ _ Hin) as Hlt.
  destruct (Nat.eqb_spec (find_pos edge (m_edges s)) (length (m_edges s))) as [Heq|_];
    [lia|].
  unfold bind at 1, ret. unfold bind, read, deref_edge. rewrite HE, Hty. simpl.
  reflexivity.
Qed.

Lemma removeEdge_member_rejected_witness :
  ∃ s',
    removeEdge 3 member_edge_state = Ok (tt, s') ∧
    m_nodes s' = [1; 2] ∧ m_edges s' = [3] ∧
    nodes s' = nodes member_edge_state ∧ edges s' = edges member_edge_state ∧
    next_id s' = 4 ∧
    log s' = [(LOG_ERROR,
               "Can't remove member edge, without removing the child node.")].
Proof.
  apply (removeEdge_member_rejected member_edge_state 3 (mkEdge 3 EDGE_MEMBER 1 2)).
  - vm_compute. apply list_elem_of_here.
  - vm_compute. reflexivity.
  - reflexivity.
Defined.

(** C4: [removeEdge] on an edge the graph does not own logs the warning but
    does not return.  It goes on to read the edge's type, and for every type
    but the membership type it erases at the end iterator of [m_edges]: the
    graph is not left unchanged, the behaviour is undefined. *)
Theorem removeEdge_absent_not_ignored s edge E :
  edge ∉ m_edges s →
  edges s !! edge = Some E →
  edge_type E ≠ EDGE_MEMBER →
  removeEdge edge s = Err InvalidIterator.
Proof.
  intros Hn HE Hty. unfold removeEdge.
  rewrite (find_pos_not_elem _ _ Hn), Nat.eqb_refl.
  unfold bind at 1. unfold LOG, modify.
  unfold bind, read, deref_edge. simpl. rewrite HE.
  destruct (EdgeType_eqb (edge_type E) EDGE_MEMBER) eqn:Hb.
  - apply EdgeType_eqb_eq in Hb. done.
  - unfold erase_edge. simpl. by rewrite lookup_ge_None_2.
Qed.

Lemma removeEdge_absent_not_ignored_witness :
  (3 ∉ m_edges foreign_edge_state) ∧
  removeEdge 3 foreign_edge_state = Err InvalidIterator.
Proof.
  split.
  - vm_compute. apply not_elem_of_nil.
  - apply (removeEdge_absent_not_ignored foreign_edge_state 3
             (mkEdge 3 (EDGE_OTHER 0) 1 2)).
    + vm_compute. apply not_elem_of_nil.
    + vm_compute. reflexivity.
    + discriminate.
Defined.

(** When the absent edge has the membership type, the error return is
    reached and the graph stays as it was, apart from the two log entries. *)
Lemma removeEdge_absent_member s edge E :
  edge ∉ m_edges s →
  edges s !! edge = Some E →
  edge_type E = EDGE_MEMBER →
  removeEdge edge s
  = Ok (tt, add_log LOG_ERROR
              "Can't remove member edge, without removing the child node."
              (add_log LOG_WARNING "Edge was not found in the graph." s)).
Proof.
  intros Hn HE Hty. unfold removeEdge.
  rewrite (find_pos_not_elem _ _ Hn), Nat.eqb_refl.
  unfold bind at 1. unfold LOG, modify.
  unfold bind, read, deref_edge. simpl. rewrite HE, Hty. done.
Qed.

(** ** The check at the end of [removeNode] *)



(** The whole of [removeNode] on the same graph: the edge [9] is not in
    [m_edges], so it stays in the node's index, the error is logged, and the
    node is gone all the same. *)
Example removeNode_leftover_edge :
  ∃ s', removeNode 1 1 leftover_edge_state = Ok (tt, s') ∧
        m_nodes s' = [] ∧ nodes s' !! 1 = None ∧
        log s' = [(LOG_ERROR, "Node has still edges.")].
Proof. eexists. split; [vm_compute; reflexivity|]. by vm_compute. Qed.

(** ** A completed [removeNode] has erased the node *)

Lemma bind_inv {A B} (c : M A) (k : A → M B) s r :
  bind c k s = Ok r → ∃ a s1, c s = Ok (a, s1) ∧ k a s1 = Ok r.
Proof.
  unfold bind. destruct (c s) as [[a s1]| |]; [|done|done]. eauto.
Qed.

Lemma forEach_preserves {A} (P : State → State → Prop)
    (f : A → M unit) (l : list A) :
  (∀ s, P s s) → (∀ a b c, P a b → P b c → P a c) →
  (∀ x s s', f x s = Ok (tt, s') → P s s') →
  ∀ s s', forEach f l s = Ok (tt, s') → P s s'.
Proof.
  intros Hrefl Htrans Hf. induction l as [|x l IH]; intros s s'; simpl.
  - intros [= ->]. apply Hrefl.
  - intros ([] & s1 & Hx & Hl)%bind_inv.
    apply (Htrans s s1 s'); [by eapply Hf|by apply IH].
Qed.

Lemma NoDup_delete_lookup (l : list N) i x :
  NoDup l → l !! i = Some x → x ∉ delete i l.
Proof.
  revert i. induction l as [|y l IH]; intros i Hnd Hi; [done|].
  apply NoDup_cons in Hnd as [Hy Hnd]. destruct i as [|i]; simpl in *.
  - by injection Hi as ->.
  - apply not_elem_of_cons. split; [|by apply IH].
    intros ->. apply Hy. by eapply list_elem_of_lookup_2.
Qed.

Lemma update_node_m_nodes p f s s' :
  update_node p f s = Ok (tt, s') → m_nodes s' = m_nodes s.
Proof.
  unfold update_node. destruct (nodes s !! p); [|done]. by intros [= <-].
Qed.

Lemma removeEdgeInternal_m_nodes e s s' :
  removeEdgeInternal e s = Ok (tt, s') → m_nodes s' = m_nodes s.
Proof.
  unfold removeEdgeInternal.
  destruct (Nat.eqb _ _); [by intros [= <-]|].
  unfold erase_edge. destruct (m_edges s !! _) as [e'|]; [|done].
  intros ([] & s1 & [= <-] & Hd)%bind_inv.
  unfold delete_Edge in Hd.
  apply bind_inv in Hd as (E & s2 & Hread & Hd).
  unfold read, deref_edge in Hread. simpl in Hread.
  destruct (edges s !! e'); [|done]. injection Hread as <- <-.
  apply bind_inv in Hd as ([] & s3 & H1%update_node_m_nodes & Hd).
  apply bind_inv in Hd as ([] & s4 & H2%update_node_m_nodes & [= <-]).
  simpl. by rewrite H2, H1.
Qed.

(** A run of [removeNode] only shrinks [m_nodes], and when it returns on an
    owned node the node is no longer there, whatever the check of its index
    found. *)
Lemma removeNode_completed fuel :
  ∀ node s s', removeNode fuel node s = Ok (tt, s') →
    sublist (m_nodes s') (m_nodes s) ∧
    (NoDup (m_nodes s) → node ∈ m_nodes s → node ∉ m_nodes s').
Proof.
  induction fuel as [|fuel IH]; intros node s s'; simpl; [done|].
  destruct (Nat.eqb_spec (find_pos node (m_nodes s)) (length (m_nodes s)))
    as [Hend|_].
  { intros [= <-]. split; [done|]. intros _ Hin.
    pose proof (find_pos_elem _ _ Hin). lia. }
  intros ([] & s1 & Hchildren & Hrest)%bind_inv.
  apply bind_inv in Hrest as ([] & s2 & Hedges & Hfinish).
  assert (H1 : sublist (m_nodes s1) (m_nodes s)).
  { unfold removeNode_children, Node_forEachEdgeOfType in Hchildren.
    apply bind_inv in Hchildren as (nd & s0 & Hread & Hchildren).
    unfold read in Hread. destruct (deref_node node s); [|done..].
    injection Hread as <- <-.
    apply bind_inv in Hchildren as (snap & s0 & Hread & Hloop).
    unfold read in Hread. destruct (edges_of_type _ _ _); [|done..].
    injection Hread as <- <-.
    revert Hloop.
    apply (forEach_preserves (λ a b, sublist (m_nodes b) (m_nodes a))).
    - done.
    - intros x y z Hxy Hyz. by etrans.
    - intros e sa sb (E & sa' & Hread & Hbody)%bind_inv.
      unfold read in Hread. destruct (deref_edge e sa); [|done..].
      injection Hread as <- <-.
      destruct (N.eqb _ _); [by eapply (IH _ sa sb)|by injection Hbody as <-]. }
  assert (H2 : m_nodes s2 = m_nodes s1).
  { unfold removeNode_edges, Node_forEachEdge in Hedges.
    apply bind_inv in Hedges as (nd & s0 & Hread & Hloop).
    unfold read in Hread. destruct (deref_node node s1); [|done..].
    injection Hread as <- <-.
    revert Hloop.
    apply (forEach_preserves (λ a b, m_nodes b = m_nodes a)).
    - done.
    - intros x y z Hxy Hyz. congruence.
    - intros e sa sb. apply removeEdgeInternal_m_nodes. }
  unfold removeNode_finish in Hfinish.
  apply bind_inv in Hfinish as (nd & s0 & Hread & Hfinish).
  unfold read in Hread. destruct (deref_node node s2); [|done..].
  injection Hread as <- <-.
  apply bind_inv in Hfinish as ([] & s3 & Hlog & Herase).
  assert (H3 : m_nodes s3 = m_nodes s2).
  { destruct (Nat.eqb _ _); by injection Hlog as <-. }
  unfold erase_node in Herase.
  destruct (m_nodes s3 !! _) as [n|] eqn:Hit; [|done].
  destruct (N.eqb_spec n node) as [->|]; [|done]. injection Herase as <-. simpl.
  split.
  - etrans; [apply sublist_delete|]. by rewrite H3, H2.
  - intros Hnodup _. apply (NoDup_delete_lookup (m_nodes s3) _ node); [|done].
    rewrite H3, H2. by eapply sublist_NoDup.
Qed.

(** ** Lookups *)

Lemma find_if_nodes_total func h l :
  all_live h l → ∃ r, find_if_nodes func h l = Ok r.
Proof.
  induction l as [|p l IH]; intros Hl; simpl; [eauto|].
  destruct (Hl p) as [nd ->]; [left|].
  destruct (func nd); [eauto|]. apply IH. intros q Hq. apply Hl. by right.
Qed.

Lemma find_if_edges_total func h l :
  all_live h l → ∃ r, find_if_edges func h l = Ok r.
Proof.
  induction l as [|p l IH]; intros Hl; simpl; [eauto|].
  destruct (Hl p) as [E ->]; [left|].
  destruct (func E); [eauto|]. apply IH. intros q Hq. apply Hl. by right.
Qed.

Lemma find_if_nodes_Some func h l n :
  find_if_nodes func h l = Ok (Some n) →
  n ∈ l ∧ ∃ nd, h !! n = Some nd ∧ func nd = true.
Proof.
  induction l as [|p l IH]; simpl; [done|].
  destruct (h !! p) as [nd|] eqn:Hp; [|done].
  destruct (func nd) eqn:Hf.
  - intros [= <-]. split; [left|eauto].
  - intros [Hin Hx]%IH. split; [by right|done].
Qed.

Lemma find_if_edges_Some func h l e :
  find_if_edges func h l = Ok (Some e) →
  e ∈ l ∧ ∃ E, h !! e = Some E ∧ func E = true.
Proof.
  induction l as [|p l IH]; simpl; [done|].
  destruct (h !! p) as [E|] eqn:Hp; [|done].
  destruct (func E) eqn:Hf.
  - intros [= <-]. split; [left|eauto].
  - intros [Hin Hx]%IH. split; [by right|done].
Qed.

Lemma find_if_nodes_None func h l :
  find_if_nodes func h l = Ok None → no_match func h l.
Proof.
  induction l as [|p l IH]; simpl; [by intros _ ?? ?%elem_of_nil|].
  destruct (h !! p) as [nd|] eqn:Hp; [|done].
  destruct (func nd) eqn:Hf; [done|].
  intros Hr q x [->|Hq]%elem_of_cons Hx.
  - congruence.
  - by eapply IH.
Qed.

Lemma find_if_edges_None func h l :
  find_if_edges func h l = Ok None → no_match func h l.
Proof.
  induction l as [|p l IH]; simpl; [by intros _ ?? ?%elem_of_nil|].
  destruct (h !! p) as [E|] eqn:Hp; [|done].
  destruct (func E) eqn:Hf; [done|].
  intros Hr q x [->|Hq]%elem_of_cons Hx.
  - congruence.
  - by eapply IH.
Qed.

(** A live vector either yields a match or the null result. *)
Lemma find_if_nodes_cases func h l :
  all_live h l →
  ∃ r, find_if_nodes func h l = Ok r ∧ (no_match func h l → r = None).
Proof.
  intros Hl. destruct (find_if_nodes_total func h l Hl) as [r Hr].
  exists r. split; [done|]. intros Hno.
  destruct r as [n|]; [|done].
  apply find_if_nodes_Some in Hr as (Hin & nd & Hnd & Hf).
  rewrite (Hno _ _ Hin Hnd) in Hf. done.
Qed.

Lemma find_if_edges_cases func h l :
  all_live h l →
  ∃ r, find_if_edges func h l = Ok r ∧ (no_match func h l → r = None).
Proof.
  intros Hl. destruct (find_if_edges_total func h l Hl) as [r Hr].
  exists r. split; [done|]. intros Hno.
  destruct r as [n|]; [|done].
  apply find_if_edges_Some in Hr as (Hin & nd & Hnd & Hf).
  rewrite (Hno _ _ Hin Hnd) in Hf. done.
Qed.

Lemma find_if_nodes_match func h l n nd :
  all_live h l → n ∈ l → h !! n = Some nd → func nd = true →
  ∃ n', find_if_nodes func h l = Ok (Some n').
Proof.
  intros Hl Hin Hnd Hf.
  destruct (find_if_nodes_total func h l Hl) as [[n'|] Hr]; [eauto|].
  apply find_if_nodes_None in Hr. rewrite (Hr _ _ Hin Hnd) in Hf. done.
Qed.

(** C9: on a graph whose owned objects are alive, every lookup returns a
    result and never a fault, and the result is null when nothing matches:
    [getNode] by full name, [getNodeById], [getEdgeById], [getEdge] by type
    and end points (for a live [from] with a live index) and [getTokenById].
    The token query looks at the nodes first: when an owned node has the id,
    the result is a node with that id, whatever the edges hold. *)
Theorem lookups_absent_is_null s :
  owned_live s →
  (∀ fullName, ∃ r, getNode fullName s = Ok r ∧
     ((∀ n nd, n ∈ m_nodes s → nodes s !! n = Some nd → node_name nd ≠ fullName) →
      r = None)) ∧
  (∀ id, ∃ r, getNodeById id s = Ok r ∧
     ((∀ n nd, n ∈ m_nodes s → nodes s !! n = Some nd → node_id nd ≠ id) →
      r = None)) ∧
  (∀ id, ∃ r, getEdgeById id s = Ok r ∧
     ((∀ e E, e ∈ m_edges s → edges s !! e = Some E → edge_id E ≠ id) →
      r = None)) ∧
  (∀ type from to, index_live s from →
     ∃ r, getEdge type from to s = Ok r ∧
     ((∀ nd e E, nodes s !! from = Some nd → e ∈ node_edges nd →
                 edges s !! e = Some E →
                 ¬ (edge_type E = type ∧ edge_to E = to)) →
      r = None)) ∧
  (∀ id, ∃ r, getTokenById id s = Ok r ∧
     ((∀ n nd, n ∈ m_nodes s → nodes s !! n = Some nd → node_id nd ≠ id) →
      (∀ e E, e ∈ m_edges s → edges s !! e = Some E → edge_id E ≠ id) →
      r = None) ∧
     (∀ n nd, n ∈ m_nodes s → nodes s !! n = Some nd → node_id nd = id →
      ∃ n' nd', r = Some (NodeToken n') ∧ n' ∈ m_nodes s ∧
                nodes s !! n' = Some nd' ∧ node_id nd' = id)).
Proof.
  intros [Hn He]. repeat split.
  - intros fullName. unfold getNode, findNode.
    destruct (find_if_nodes_cases (fun n => String.eqb (node_name n) fullName)
                (nodes s) (m_nodes s) Hn) as (r & Hr & Hnone).
    exists r. split; [done|]. intros Hno. apply Hnone.
    intros n nd Hin Hnd. apply String.eqb_neq. eauto.
  - intros id. unfold getNodeById, findNode.
    destruct (find_if_nodes_cases (fun n => N.eqb (getId n) id)
                (nodes s) (m_nodes s) Hn) as (r & Hr & Hnone).
    exists r. split; [done|]. intros Hno. apply Hnone.
    intros n nd Hin Hnd. apply N.eqb_neq. eapply Hno; eauto.
  - intros id. unfold getEdgeById, findEdge.
    destruct (find_if_edges_cases (fun e => N.eqb (getId e) id)
                (edges s) (m_edges s) He) as (r & Hr & Hnone).
    exists r. split; [done|]. intros Hno. apply Hnone.
    intros e E Hin HE. apply N.eqb_neq. eapply Hno; eauto.
  - intros type from to (nd & Hnd & Hidx).
    unfold getEdge, Node_findEdgeOfType, deref_node. rewrite Hnd. simpl.
    destruct (find_if_edges_cases
                (fun E => EdgeType_eqb (edge_type E) type && N.eqb (edge_to E) to)
                (edges s) (node_edges nd) Hidx) as (r & Hr & Hnone).
    exists r. split; [done|]. intros Hno. apply Hnone.
    intros e E Hin HE. apply andb_false_iff.
    destruct (EdgeType_eqb (edge_type E) type) eqn:Hty; [|by left].
    right. apply N.eqb_neq. intros Hto. apply (Hno nd e E eq_refl Hin HE).
    split; [by apply EdgeType_eqb_eq|done].
  - intros id. unfold getTokenById, findToken, findNode, findEdge.
    destruct (find_if_nodes_cases (fun n => N.eqb (getId n) id)
                (nodes s) (m_nodes s) Hn) as (r & Hr & Hnone).
    rewrite Hr. simpl. destruct r as [n'|].
    + exists (Some (NodeToken n')). split; [done|]. split.
      * intros Hno _. exfalso.
        apply find_if_nodes_Some in Hr as (Hin & nd & Hnd & Hf).
        apply N.eqb_eq in Hf. by eapply Hno.
      * intros _ _ _ _ _.
        apply find_if_nodes_Some in Hr as (Hin & nd & Hnd & Hf).
        apply N.eqb_eq in Hf. eauto 10.
    + destruct (find_if_edges_cases (fun e => N.eqb (getId e) id)
                  (edges s) (m_edges s) He) as (r & Hr' & Hnone').
      rewrite Hr'. simpl.
      exists (match r with Some e => Some (EdgeToken e) | None => None end).
      split; [by destruct r|]. split.
      * intros _ Hno. rewrite Hnone'; [done|].
        intros e E Hin HE. apply N.eqb_neq. eapply Hno; eauto.
      * intros n nd Hin Hnd Hid. exfalso.
        apply find_if_nodes_None in Hr.
        specialize (Hr n nd Hin Hnd). simpl in Hr.
        apply N.eqb_neq in Hr. done.
Qed.

Lemma lookups_absent_is_null_witness :
  owned_live shared_id_state ∧
  getNode "b" shared_id_state = Ok None ∧
  getEdgeById 8 shared_id_state = Ok None ∧
  ∃ n, getTokenById 7 shared_id_state = Ok (Some (NodeToken n)).
Proof.
  assert (Hlive : owned_live shared_id_state).
  { split; intros x Hx; vm_compute in Hx;
      apply list_elem_of_singleton in Hx as ->; by eexists. }
  split; [exact Hlive|].
  destruct (lookups_absent_is_null shared_id_state Hlive)
    as (Hname & _ & Heid & _ & Htok).
  split; [|split].
  - destruct (Hname "b") as (r & -> & Hnone). rewrite Hnone; [done|].
    intros n nd Hin Hnd. vm_compute in Hin.
    apply list_elem_of_singleton in Hin as ->.
    vm_compute in Hnd. injection Hnd as <-. discriminate.
  - destruct (Heid 8) as (r & -> & Hnone). rewrite Hnone; [done|].
    intros e E Hin HE. vm_compute in Hin.
    apply list_elem_of_singleton in Hin as ->.
    vm_compute in HE. injection HE as <-. discriminate.
  - destruct (Htok 7) as (r & -> & _ & Hnode).
    destruct (Hnode 1 (mkNode 7 NODE_UNDEFINED "a" [2; 2] None))
      as (n' & nd' & -> & _); [vm_compute; left| |reflexivity|].
    + vm_compute. reflexivity.
    + by exists n'.
Defined.

(** ** Hierarchy materialisation *)

Example split_abc : split "a::b::c" DELIMITER = ["a"; "b"; "c"].
Proof. reflexivity. Qed.

Example split_plain : split "f" DELIMITER = ["f"].
Proof. reflexivity. Qed.

(** C2: on the empty graph [createNodeHierarchy] with "a::b::c" returns a
    leaf and leaves exactly three nodes, named a, a::b and a::b::c, and
    exactly two edges, both of the membership type, chaining them.  A second
    call with the same name, whatever type it asks for, returns the same
    node, whose id is unchanged, and adds no node and no edge. *)
Theorem createNodeHierarchy_abc (t1 t2 : NodeType) :
  ∃ n1 n2 leaf s1 s2,
    createNodeHierarchy t1 "a::b::c" empty_graph = Ok (Some leaf, s1) ∧
    m_nodes s1 = [n1; n2; leaf] ∧
    length (m_nodes s1) = 3%nat ∧ length (m_edges s1) = 2%nat ∧
    node_name <$> nodes s1 !! n1 = Some "a" ∧
    node_name <$> nodes s1 !! n2 = Some "a::b" ∧
    node_name <$> nodes s1 !! leaf = Some "a::b::c" ∧
    node_type <$> nodes s1 !! leaf = Some t1 ∧
    (λ E, (edge_type E, edge_from E, edge_to E)) <$> (m_edges s1 ≫= λ e, option_list (edges s1 !! e))
      = [(EDGE_MEMBER, n1, n2); (EDGE_MEMBER, n2, leaf)] ∧
    createNodeHierarchy t2 "a::b::c" s1 = Ok (Some leaf, s2) ∧
    m_nodes s2 = m_nodes s1 ∧ m_edges s2 = m_edges s1 ∧
    edges s2 = edges s1 ∧ dom (nodes s2) = dom (nodes s1) ∧
    node_id <$> nodes s2 !! leaf = node_id <$> nodes s1 !! leaf ∧
    is_Some (nodes s1 !! leaf).
Proof.
  exists 1, 2, 4.
  destruct t2 as [|tag]; eexists; eexists;
    (split; [vm_compute; reflexivity|]);
    repeat (split; [vm_compute; reflexivity|]); by eexists.
Qed.

(** ** Signature-distinguished nodes *)

(** Two calls with the same name under a common parent and two different
    signatures give two nodes with different ids, the same name and the same
    parent, each with its own signature; a third call with the first
    signature returns the first node. *)
Example distinct_signature_siblings (type : NodeType) :
  ∃ a b s1 s2 s3 nda ndb parent,
    createNodeHierarchyWithDistinctSignature type "ns::f" "sigA" empty_graph
      = Ok (Some a, s1) ∧
    createNodeHierarchyWithDistinctSignature type "ns::f" "sigB" s1
      = Ok (Some b, s2) ∧
    a ≠ b ∧
    nodes s2 !! a = Some nda ∧ nodes s2 !! b = Some ndb ∧
    node_id nda ≠ node_id ndb ∧
    node_name nda = "ns::f" ∧ node_name ndb = "ns::f" ∧
    node_signature nda = Some "sigA" ∧ node_signature ndb = Some "sigB" ∧
    Node_getParentNode a s2 = Ok (Some parent) ∧
    Node_getParentNode b s2 = Ok (Some parent) ∧
    createNodeHierarchyWithDistinctSignature type "ns::f" "sigA" s2
      = Ok (Some a, s3) ∧
    m_nodes s3 = m_nodes s2 ∧ m_edges s3 = m_edges s2.
Proof.
  destruct type as [|tag]; do 8 eexists;
    (split; [vm_compute; reflexivity|]);
    (split; [vm_compute; reflexivity|]);
    (split; [discriminate|]);
    (split; [vm_compute; reflexivity|]);
    (split; [vm_compute; reflexivity|]);
    (split; [discriminate|]);
    repeat (split; [vm_compute; reflexivity|]); vm_compute; reflexivity.
Qed.

(** C6: only the first node with the full name is compared with the given
    signature.  After "f" has been created with sigA and with sigB, a node
    named "f" with signature sigB exists, and yet a further call with sigB
    does not return it: it creates a third node with the same name and the
    same signature. *)
Theorem distinct_signature_not_deduplicated (type : NodeType) :
  ∃ a b c s1 s2 s3 ndb ndc,
    createNodeHierarchyWithDistinctSignature type "f" "sigA" empty_graph
      = Ok (Some a, s1) ∧
    createNodeHierarchyWithDistinctSignature type "f" "sigB" s1
      = Ok (Some b, s2) ∧
    b ∈ m_nodes s2 ∧ nodes s2 !! b = Some ndb ∧
    node_name ndb = "f" ∧ node_signature ndb = Some "sigB" ∧
    createNodeHierarchyWithDistinctSignature type "f" "sigB" s2
      = Ok (Some c, s3) ∧
    c ≠ b ∧ (c ∉ m_nodes s2) ∧
    length (m_nodes s3) = S (length (m_nodes s2)) ∧
    nodes s3 !! c = Some ndc ∧
    node_name ndc = "f" ∧ node_signature ndc = Some "sigB".
Proof.
  exists 1, 2, 3.
  destruct type as [|tag]; do 5 eexists;
    (split; [vm_compute; reflexivity|]);
    (split; [vm_compute; reflexivity|]);
    (split; [by_decide|]);
    (split; [vm_compute; reflexivity|]);
    (split; [reflexivity|]);
    (split; [reflexivity|]);
    (split; [vm_compute; reflexivity|]);
    (split; [discriminate|]);
    (split; [by_decide|]);
    (split; [vm_compute; reflexivity|]);
    (split; [vm_compute; reflexivity|]);
    split; reflexivity.
Qed.

(** ** Deduplicated edge creation on self loops *)

(** C3: [getEdge] scans the index of [from] for an edge of the type that ends
    in [to] and does not look at where it starts.  The index also holds the
    incoming edges, so for [from = to] an incoming edge of the type is taken
    for the self loop: with the edge [3] from g to f in place and no edge
    from f to f, [createEdge] for (type, f, f) returns [3] and stores
    nothing. *)
Theorem createEdge_self_loop_shadowed :
  (createNodeHierarchy NODE_UNDEFINED "g" ;;
   createNodeHierarchy NODE_UNDEFINED "f" ;;
   createEdge (EDGE_OTHER 0) 1 2) empty_graph = Ok (3, call_edge_state) ∧
  edges call_edge_state !! 3 = Some (mkEdge 3 (EDGE_OTHER 0) 1 2) ∧
  (∀ e E, e ∈ m_edges call_edge_state → edges call_edge_state !! e = Some E →
          ¬ (edge_type E = EDGE_OTHER 0 ∧ edge_from E = 2 ∧ edge_to E = 2)) ∧
  createEdge (EDGE_OTHER 0) 2 2 call_edge_state = Ok (3, call_edge_state).
Proof.
  split; [vm_compute; reflexivity|].
  split; [vm_compute; reflexivity|].
  split; [|vm_compute; reflexivity].
  intros e E Hin HE. vm_compute in Hin.
  apply list_elem_of_singleton in Hin as ->.
  vm_compute in HE. injection HE as <-. simpl. intros (_ & Hfrom & _). discriminate.
Qed.

(** The edge that is already stored is returned and nothing changes. *)
Lemma createEdge_existing type from to s e :
  getEdge type from to s = Ok (Some e) →
  createEdge type from to s = Ok (e, s).
Proof. intros H. unfold createEdge, bind, read. by rewrite H. Qed.

(** ** Reading the signature of a namesake *)

Lemma bind_safe {A B} (c : M A) (k : A → M B) s :
  component_safe (c s) →
  (∀ a s', component_safe (k a s')) →
  component_safe (bind c k s).
Proof.
  unfold component_safe, bind. intros Hc Hk.
  destruct (c s) as [[a s']|f|]; [apply Hk| |done].
  intros [= ->]. by apply Hc.
Qed.

Lemma read_safe {A} (c : R A) s :
  component_safe (c s) → component_safe (read c s).
Proof. unfold component_safe, read. destruct (c s); congruence. Qed.

Lemma rbind_safe {A B} (c : res A) (k : A → res B) :
  component_safe c → (∀ a, component_safe (k a)) → component_safe (rbind c k).
Proof.
  unfold component_safe, rbind. intros Hc Hk.
  destruct c as [a|f|]; [apply Hk| |done].
  intros [= ->]. by apply Hc.
Qed.

Lemma find_if_edges_safe func h l : component_safe (find_if_edges func h l).
Proof.
  induction l as [|e l IH]; simpl; [done|].
  destruct (h !! e) as [E|]; [|done]. by destruct (func E).
Qed.

Lemma find_if_nodes_safe func h l : component_safe (find_if_nodes func h l).
Proof.
  induction l as [|e l IH]; simpl; [done|].
  destruct (h !! e) as [E|]; [|done]. by destruct (func E).
Qed.

Lemma deref_node_safe p s : component_safe (deref_node p s).
Proof. unfold deref_node. by destruct (nodes s !! p). Qed.

Lemma deref_edge_safe p s : component_safe (deref_edge p s).
Proof. unfold deref_edge. by destruct (edges s !! p). Qed.

Lemma update_node_safe p f s : component_safe (update_node p f s).
Proof. unfold update_node. by destruct (nodes s !! p). Qed.

Lemma Node_findEdgeOfType_safe type func node s :
  component_safe (Node_findEdgeOfType type func node s).
Proof.
  apply rbind_safe; [apply deref_node_safe|]. intros nd. apply find_if_edges_safe.
Qed.

Lemma Node_getParentNode_safe node s :
  component_safe (Node_getParentNode node s).
Proof.
  apply rbind_safe; [apply Node_findEdgeOfType_safe|].
  intros [e|]; [|done]. apply rbind_safe; [apply deref_edge_safe|done].
Qed.

Lemma construct_Edge_safe id type from to s :
  component_safe (construct_Edge id type from to s).
Proof.
  unfold construct_Edge. apply bind_safe; [done|]. intros p s1.
  apply bind_safe; [done|]. intros _ s2.
  apply bind_safe; [apply update_node_safe|]. intros _ s3.
  apply bind_safe; [apply update_node_safe|]. done.
Qed.

Lemma createEdge_safe type from to s :
  component_safe (createEdge type from to s).
Proof.
  unfold createEdge. apply bind_safe.
  { apply read_safe, Node_findEdgeOfType_safe. }
  intros [e|] s1; [done|]. unfold insertEdge.
  apply bind_safe.
  { unfold new_Edge. apply bind_safe; [done|]. intros id s2.
    apply construct_Edge_safe. }
  intros p s2. by apply bind_safe.
Qed.

Lemma insertNode_safe type fullName parent s :
  component_safe (insertNode type fullName parent s).
Proof.
  unfold insertNode. apply bind_safe.
  { unfold new_Node. apply bind_safe; [done|]. intros p s1.
    apply bind_safe; [done|]. intros id s2. by apply bind_safe. }
  intros n s1. apply bind_safe; [done|]. intros _ s2.
  destruct parent as [p|]; [|done].
  apply bind_safe; [apply createEdge_safe|done].
Qed.

(** C10: [createNodeHierarchyWithDistinctSignature] reads the signature of
    the node that [getNode] returns for the full name, the first one in
    [m_nodes], without testing the component.  The read goes through a null
    component exactly when that node has no signature attached; namesakes
    further back in [m_nodes] are never looked at. *)
Theorem distinct_signature_reads_first_namesake s type fullName signature n nd :
  getNode fullName s = Ok (Some n) →
  nodes s !! n = Some nd →
  createNodeHierarchyWithDistinctSignature type fullName signature s
    = Err NullComponent
  ↔ node_signature nd = None.
Proof.
  intros Hget Hnd. unfold createNodeHierarchyWithDistinctSignature.
  rewrite (bind_Ok _ _ _ _ _ (read_Ok _ _ _ Hget)).
  unfold bind at 1. unfold read at 1. unfold Node_getSignature at 1.
  unfold deref_node. rewrite Hnd. simpl.
  destruct (node_signature nd) as [sg|]; [|done].
  split; [|done]. intros Hcall. exfalso. revert Hcall.
  destruct (String.eqb sg signature).
  - apply bind_safe; [|done].
    destruct (NodeType_eqb type NODE_UNDEFINED); [done|apply update_node_safe].
  - apply bind_safe; [apply read_safe, Node_getParentNode_safe|].
    intros parent s1. apply bind_safe; [apply insertNode_safe|].
    intros n' s2. apply bind_safe; [apply update_node_safe|done].
Qed.

Lemma distinct_signature_reads_first_namesake_witness :
  createNodeHierarchyWithDistinctSignature NODE_UNDEFINED "f" "sigA" mixed_f_state
    ≠ Err NullComponent.
Proof.
  intros Hcall.
  apply (distinct_signature_reads_first_namesake mixed_f_state NODE_UNDEFINED
           "f" "sigA" 10 (mkNode 10 NODE_UNDEFINED "f" [] (Some "sigA"))) in Hcall.
  - discriminate.
  - vm_compute. reflexivity.
  - vm_compute. reflexivity.
Defined.

(** The graph of the counterexample is built by the graph's own
    operations. *)
Example mixed_f_state_built :
  (createNodeHierarchyWithDistinctSignature NODE_UNDEFINED "f" "sigA" ;;
   addNodeAsPlainCopy 9) foreign_f_state = Ok (11, mixed_f_state).
Proof. vm_compute. reflexivity. Qed.

(** C10 as it is stated fails: a namesake without a signature exists in
    [mixed_f_state], and the call returns the first node all the same. *)
Lemma any_unsigned_namesake_faults_fails : ¬ any_unsigned_namesake_faults.
Proof.
  intros H.
  specialize (H mixed_f_state NODE_UNDEFINED "f" "sigA").
  assert (Hcall : createNodeHierarchyWithDistinctSignature NODE_UNDEFINED "f" "sigA"
                    mixed_f_state = Ok (Some 10, mixed_f_state))
    by (vm_compute; reflexivity).
  rewrite Hcall in H. discriminate H.
  exists 11, (mkNode 9 NODE_UNDEFINED "f" [] None).
  split; [by_decide|]. split; [vm_compute; reflexivity|]. done.
Qed.

(** ** Plain copies *)

Lemma find_if_nodes_ext func h h' l :
  (∀ p, p ∈ l → h' !! p = h !! p) →
  find_if_nodes func h' l = find_if_nodes func h l.
Proof.
  induction l as [|p l IH]; intros Hh; simpl; [done|].
  rewrite Hh by left. rewrite IH; [done|]. intros q Hq. apply Hh. by right.
Qed.

Lemma find_if_edges_ext func h h' l :
  (∀ p, p ∈ l → h' !! p = h !! p) →
  find_if_edges func h' l = find_if_edges func h l.
Proof.
  induction l as [|p l IH]; intros Hh; simpl; [done|].
  rewrite Hh by left. rewrite IH; [done|]. intros q Hq. apply Hh. by right.
Qed.

Lemma find_if_nodes_app func h l l' :
  find_if_nodes func h l = Ok None →
  find_if_nodes func h (l ++ l') = find_if_nodes func h l'.
Proof.
  induction l as [|p l IH]; simpl; [done|].
  destruct (h !! p) as [nd|]; [|done]. destruct (func nd); [done|]. apply IH.
Qed.

Lemma find_if_edges_app func h l l' :
  find_if_edges func h l = Ok None →
  find_if_edges func h (l ++ l') = find_if_edges func h l'.
Proof.
  induction l as [|p l IH]; simpl; [done|].
  destruct (h !! p) as [E|]; [|done]. destruct (func E); [done|]. apply IH.
Qed.

(** After a push of a fresh matching object a search that found nothing
    finds the new object. *)
Lemma find_if_nodes_pushed func h l p nd :
  find_if_nodes func h l = Ok None → p ∉ l → func nd = true →
  find_if_nodes func (<[p := nd]> h) (l ++ [p]) = Ok (Some p).
Proof.
  intros Hnone Hp Hf.
  rewrite find_if_nodes_app.
  - simpl. by rewrite lookup_insert_eq, Hf.
  - rewrite <- Hnone. apply find_if_nodes_ext.
    intros q Hq. apply lookup_insert_ne. intros ->. done.
Qed.

Lemma find_if_edges_pushed func h l p E :
  find_if_edges func h l = Ok None → p ∉ l → func E = true →
  find_if_edges func (<[p := E]> h) (l ++ [p]) = Ok (Some p).
Proof.
  intros Hnone Hp Hf.
  rewrite find_if_edges_app.
  - simpl. by rewrite lookup_insert_eq, Hf.
  - rewrite <- Hnone. apply find_if_edges_ext.
    intros q Hq. apply lookup_insert_ne. intros ->. done.
Qed.

Lemma alloc_fresh_node s : alloc_fresh s → nodes s !! next_addr s = None.
Proof. intros H. by apply H. Qed.

Lemma alloc_fresh_edge s : alloc_fresh s → edges s !! next_addr s = None.
Proof. intros H. by apply H. Qed.

Lemma owned_not_fresh_node s :
  owned_live s → alloc_fresh s → next_addr s ∉ m_nodes s.
Proof.
  intros [Hn _] Hf Hin. destruct (Hn _ Hin) as [nd Hnd].
  rewrite (alloc_fresh_node s Hf) in Hnd. done.
Qed.

Lemma owned_not_fresh_edge s :
  owned_live s → alloc_fresh s → next_addr s ∉ m_edges s.
Proof.
  intros [_ He] Hf Hin. destruct (He _ Hin) as [E HE].
  rewrite (alloc_fresh_edge s Hf) in HE. done.
Qed.

(** What [addNodeAsPlainCopy] does to a graph whose objects are alive. *)
Lemma addNodeAsPlainCopy_spec s node src :
  owned_live s → alloc_fresh s →
  nodes s !! node = Some src →
  ∃ n s1 nd,
    addNodeAsPlainCopy node s = Ok (n, s1) ∧
    owned_live s1 ∧ alloc_fresh s1 ∧
    nodes s ⊆ nodes s1 ∧ edges s1 = edges s ∧ m_edges s1 = m_edges s ∧
    (∀ x, x ∈ m_nodes s → x ∈ m_nodes s1) ∧
    n ∈ m_nodes s1 ∧
    nodes s1 !! n = Some nd ∧ node_id nd = node_id src ∧
    getNodeById (node_id src) s1 = Ok (Some n) ∧
    (∀ n0, getNodeById (node_id src) s = Ok (Some n0) → n = n0 ∧ s1 = s) ∧
    (getNodeById (node_id src) s = Ok None →
       (n ∉ m_nodes s) ∧ m_nodes s1 = m_nodes s ++ [n] ∧
       nd = mkNode (node_id src) (node_type src) (node_name src) []
                   (node_signature src)).
Proof.
  intros Hlive Hfresh Hsrc.
  pose proof Hlive as [Hn He].
  destruct (find_if_nodes_total (fun n => N.eqb (getId n) (node_id src))
              (nodes s) (m_nodes s) Hn) as [r Hr].
  assert (Hget : getNodeById (node_id src) s = Ok r) by done.
  unfold addNodeAsPlainCopy.
  rewrite (bind_Ok _ _ s src s) by (unfold read, deref_node; by rewrite Hsrc).
  rewrite (bind_Ok _ _ s r s) by by apply read_Ok.
  destruct r as [n0|].
  - apply find_if_nodes_Some in Hr as (Hin & nd & Hnd & Hid).
    apply N.eqb_eq in Hid.
    exists n0, s, nd. split_and!; try done.
    + intros n1 Hn1. rewrite Hget in Hn1. by injection Hn1 as ->.
    + intros Hnone. rewrite Hget in Hnone. done.
  - set (p := next_addr s).
    set (copy := mkNode (node_id src) (node_type src) (node_name src) []
                        (node_signature src)).
    exists p,
      (mkState (m_nodes s ++ [p]) (m_edges s) (<[p := copy]> (nodes s)) (edges s)
               (p + 1) (next_id s) (log s)),
      copy.
    pose proof (alloc_fresh_node s Hfresh) as Hpn.
    pose proof (owned_not_fresh_node s Hlive Hfresh) as Hpm.
    split; [reflexivity|].
    split.
    { split; simpl.
      - intros x [Hx| ->%list_elem_of_singleton]%elem_of_app.
        + rewrite lookup_insert_ne; [by apply Hn|]. intros <-. done.
        + rewrite lookup_insert_eq. by eexists.
      - done. }
    split.
    { intros q Hq. simpl in *. split.
      - rewrite lookup_insert_ne by (fold p; lia). apply Hfresh. fold p. lia.
      - apply Hfresh. fold p. lia. }
    simpl. split_and!; try done.
    + by apply insert_subseteq.
    + intros x Hx. apply elem_of_app. by left.
    + apply elem_of_app. right. by apply list_elem_of_singleton.
    + by rewrite lookup_insert_eq.
    + unfold getNodeById, findNode. simpl.
      apply find_if_nodes_pushed; [done|done|]. simpl. apply N.eqb_refl.
    + intros n0 Hn0. rewrite Hget in Hn0. done.
Qed.

Lemma lookup_registered (m : gmap N Node) from to p n nd :
  m !! n = Some nd →
  ∃ nd',
    alter (fun nd => node_with_edges (node_edges nd ++ [p]) nd) to
      (alter (fun nd => node_with_edges (node_edges nd ++ [p]) nd) from m) !! n
    = Some nd' ∧
    node_id nd' = node_id nd ∧ node_name nd' = node_name nd ∧
    node_type nd' = node_type nd ∧ node_signature nd' = node_signature nd ∧
    (n = from ∨ n = to → p ∈ node_edges nd').
Proof.
  intros Hnd. rewrite !lookup_alter.
  destruct (decide (to = n)) as [->|Hto], (decide (from = n)) as [->|Hfrom];
    rewrite ?Hnd; simpl; eexists; (split; [reflexivity|]); simpl;
    split_and!; try done; intros [?|?]; try congruence;
    repeat (apply elem_of_app; right); apply list_elem_of_singleton; done.
Qed.

Lemma addEdgeAsPlainCopy_existing s edge src e :
  edges s !! edge = Some src →
  getEdgeById (edge_id src) s = Ok (Some e) →
  addEdgeAsPlainCopy edge s = Ok (e, s).
Proof.
  intros Hsrc Hget. unfold addEdgeAsPlainCopy.
  rewrite (bind_Ok _ _ s src s) by (unfold read, deref_edge; by rewrite Hsrc).
  by rewrite (bind_Ok _ _ s (Some e) s) by by apply read_Ok.
Qed.

(** What [addEdgeAsPlainCopy] does to a graph whose objects are alive, for a
    live source edge with live end points. *)
Lemma addEdgeAsPlainCopy_spec s edge src :
  owned_live s → alloc_fresh s →
  edges s !! edge = Some src →
  is_Some (nodes s !! edge_from src) → is_Some (nodes s !! edge_to src) →
  ∃ e s1 E,
    addEdgeAsPlainCopy edge s = Ok (e, s1) ∧
    e ∈ m_edges s1 ∧
    edges s1 !! e = Some E ∧ edge_id E = edge_id src ∧
    getEdgeById (edge_id src) s1 = Ok (Some e) ∧
    (∀ edge', edge' ≠ e → edges s !! edge' = edges s1 !! edge') ∧
    (∀ e0, getEdgeById (edge_id src) s = Ok (Some e0) → e = e0 ∧ s1 = s) ∧
    (getEdgeById (edge_id src) s = Ok None →
       ∃ from to sa sb ndf ndt srcf srct,
         addNodeAsPlainCopy (edge_from src) s = Ok (from, sa) ∧
         addNodeAsPlainCopy (edge_to src) sa = Ok (to, sb) ∧
         E = mkEdge (edge_id src) (edge_type src) from to ∧
         m_edges s1 = m_edges s ++ [e] ∧ (e ∉ m_edges s) ∧
         m_nodes s1 = m_nodes sb ∧
         from ∈ m_nodes s1 ∧ to ∈ m_nodes s1 ∧
         nodes s1 !! from = Some ndf ∧ nodes s1 !! to = Some ndt ∧
         nodes s !! edge_from src = Some srcf ∧ nodes s !! edge_to src = Some srct ∧
         node_id ndf = node_id srcf ∧ node_id ndt = node_id srct ∧
         e ∈ node_edges ndf ∧ e ∈ node_edges ndt).
Proof.
  intros Hlive Hfresh Hsrc [srcf Hfrom] [srct Hto].
  pose proof Hlive as [Hn He].
  destruct (find_if_edges_total (fun e => N.eqb (getId e) (edge_id src))
              (edges s) (m_edges s) He) as [r Hr].
  assert (Hget : getEdgeById (edge_id src) s = Ok r) by done.
  destruct r as [e0|].
  { rewrite (addEdgeAsPlainCopy_existing s edge src e0 Hsrc Hget).
    apply find_if_edges_Some in Hr as (Hin & E & HE & Hid).
    apply N.eqb_eq in Hid.
    exists e0, s, E. split_and!; try done.
    - intros e1 He1. rewrite Hget in He1. by injection He1 as ->.
    - intros Hnone. rewrite Hget in Hnone. done. }
  destruct (addNodeAsPlainCopy_spec s _ srcf Hlive Hfresh Hfrom)
    as (from & sa & ndf & Hcopy1 & Hlivea & Hfresha & Hsuba & Hedgesa & Hmedgesa
        & Hmonoa & Hfrom_in & Hndf & Hidf & _).
  assert (Htoa : nodes sa !! edge_to src = Some srct)
    by (by eapply lookup_weaken).
  destruct (addNodeAsPlainCopy_spec sa _ srct Hlivea Hfresha Htoa)
    as (to & sb & ndt & Hcopy2 & Hliveb & Hfreshb & Hsubb & Hedgesb & Hmedgesb
        & Hmonob & Hto_in & Hndt & Hidt & _).
  assert (Hndf_b : nodes sb !! from = Some ndf) by (by eapply lookup_weaken).
  set (p := next_addr sb).
  set (E := mkEdge (edge_id src) (edge_type src) from to).
  set (push := fun nd => node_with_edges (node_edges nd ++ [p]) nd).
  set (s1 := mkState (m_nodes sb) (m_edges sb ++ [p])
               (alter push to (alter push from (nodes sb)))
               (<[p := E]> (edges sb)) (p + 1) (next_id sb) (log sb)).
  assert (Hrun : addEdgeAsPlainCopy edge s = Ok (p, s1)).
  { unfold addEdgeAsPlainCopy.
    rewrite (bind_Ok _ _ s src s) by (unfold read, deref_edge; by rewrite Hsrc).
    rewrite (bind_Ok _ _ s None s) by by apply read_Ok.
    rewrite (bind_Ok _ _ _ _ _ Hcopy1), (bind_Ok _ _ _ _ _ Hcopy2).
    unfold bind at 1, copy_Edge. rewrite construct_Edge_Ok by (by eexists).
    reflexivity. }
  assert (Hedges_b : edges sb = edges s) by congruence.
  assert (Hmedges_b : m_edges sb = m_edges s) by congruence.
  assert (Hp : p ∉ m_edges s).
  { rewrite <- Hmedges_b. by apply owned_not_fresh_edge. }
  exists p, s1, E. split; [done|]. split_and!.
  - apply elem_of_app. right. by apply list_elem_of_singleton.
  - simpl. by rewrite lookup_insert_eq.
  - done.
  - unfold getEdgeById, findEdge. simpl. rewrite Hedges_b, Hmedges_b.
    apply find_if_edges_pushed; [done|done|]. simpl. apply N.eqb_refl.
  - intros edge' Hne. simpl. rewrite Hedges_b. by rewrite lookup_insert_ne.
  - intros e1 He1. rewrite Hget in He1. done.
  - intros _.
    destruct (lookup_registered (nodes sb) from to p from ndf Hndf_b)
      as (ndf' & Hndf' & Hidf' & _ & _ & _ & Hpf).
    destruct (lookup_registered (nodes sb) from to p to ndt Hndt)
      as (ndt' & Hndt' & Hidt' & _ & _ & _ & Hpt).
    exists from, to, sa, sb, ndf', ndt', srcf, srct.
    assert (Hfrom_b : from ∈ m_nodes sb) by auto.
    split_and!; try done.
    + simpl. by rewrite Hmedges_b.
    + congruence.
    + congruence.
    + auto.
    + auto.
Qed.

(** C7: on a graph whose objects are alive, [addNodeAsPlainCopy] and
    [addEdgeAsPlainCopy] return an owned entity with the id of the source.
    When the graph already owns an entity with that id the graph is left as
    it is; in any case a second call with any source of the same id returns
    the same entity and leaves the graph as the first call left it.  When
    [addEdgeAsPlainCopy] has to make a copy, it first runs
    [addNodeAsPlainCopy] on the source's two end points, and the new edge
    joins the two owned nodes these calls return, whose ids are those of the
    source's end points; the new edge is registered in their indexes. *)
Theorem plain_copy_deduplicated s :
  owned_live s → alloc_fresh s →
  (∀ node src, nodes s !! node = Some src →
     ∃ n s1 nd,
       addNodeAsPlainCopy node s = Ok (n, s1) ∧
       n ∈ m_nodes s1 ∧ nodes s1 !! n = Some nd ∧ node_id nd = node_id src ∧
       (∀ n0 nd0, n0 ∈ m_nodes s → nodes s !! n0 = Some nd0 →
                  node_id nd0 = node_id src → s1 = s ∧ n ∈ m_nodes s) ∧
       (∀ node' src', nodes s1 !! node' = Some src' → node_id src' = node_id src →
                      addNodeAsPlainCopy node' s1 = Ok (n, s1))) ∧
  (∀ edge src, edges s !! edge = Some src →
     is_Some (nodes s !! edge_from src) → is_Some (nodes s !! edge_to src) →
     ∃ e s1 E,
       addEdgeAsPlainCopy edge s = Ok (e, s1) ∧
       e ∈ m_edges s1 ∧ edges s1 !! e = Some E ∧ edge_id E = edge_id src ∧
       (∀ e0 E0, e0 ∈ m_edges s → edges s !! e0 = Some E0 →
                 edge_id E0 = edge_id src → s1 = s ∧ e ∈ m_edges s) ∧
       (∀ edge' src', edges s1 !! edge' = Some src' → edge_id src' = edge_id src →
                      addEdgeAsPlainCopy edge' s1 = Ok (e, s1)) ∧
       ((∀ e0 E0, e0 ∈ m_edges s → edges s !! e0 = Some E0 →
                  edge_id E0 ≠ edge_id src) →
        ∃ from to sa sb ndf ndt srcf srct,
          addNodeAsPlainCopy (edge_from src) s = Ok (from, sa) ∧
          addNodeAsPlainCopy (edge_to src) sa = Ok (to, sb) ∧
          E = mkEdge (edge_id src) (edge_type src) from to ∧
          m_edges s1 = m_edges s ++ [e] ∧
          from ∈ m_nodes s1 ∧ to ∈ m_nodes s1 ∧
          nodes s1 !! from = Some ndf ∧ nodes s1 !! to = Some ndt ∧
          nodes s !! edge_from src = Some srcf ∧
          nodes s !! edge_to src = Some srct ∧
          node_id ndf = node_id srcf ∧ node_id ndt = node_id srct ∧
          e ∈ node_edges ndf ∧ e ∈ node_edges ndt)).
Proof.
  intros Hlive Hfresh. split.
  - intros node src Hsrc.
    destruct (addNodeAsPlainCopy_spec s node src Hlive Hfresh Hsrc)
      as (n & s1 & nd & Hrun & Hlive1 & _ & _ & _ & _ & _ & Hin & Hnd & Hid
          & Hget1 & Hold & _).
    exists n, s1, nd. split_and!; try done.
    + intros n0 nd0 Hin0 Hnd0 Hid0.
      destruct (find_if_nodes_match (fun n => N.eqb (getId n) (node_id src))
                  (nodes s) (m_nodes s) n0 nd0) as [n' Hn']; try done.
      { exact (proj1 Hlive). }
      { by apply N.eqb_eq. }
      destruct (Hold n' Hn') as [-> ->]. split; [done|].
      by apply find_if_nodes_Some in Hn' as [? _].
    + intros node' src' Hsrc' Hid'. unfold addNodeAsPlainCopy.
      rewrite (bind_Ok _ _ s1 src' s1)
        by (unfold read, deref_node; by rewrite Hsrc').
      unfold getId, Node_Token. rewrite Hid'.
      by rewrite (bind_Ok _ _ s1 (Some n) s1) by by apply read_Ok.
  - intros edge src Hsrc Hfrom Hto.
    destruct (addEdgeAsPlainCopy_spec s edge src Hlive Hfresh Hsrc Hfrom Hto)
      as (e & s1 & E & Hrun & Hin & HE & Hid & Hget1 & _ & Hold & Hnew).
    exists e, s1, E. split_and!; try done.
    + intros e0 E0 Hin0 HE0 Hid0.
      destruct (find_if_edges_total (fun e => N.eqb (getId e) (edge_id src))
                  (edges s) (m_edges s)) as [[e'|] He'].
      { exact (proj2 Hlive). }
      * destruct (Hold e' He') as [-> ->]. split; [done|].
        by apply find_if_edges_Some in He' as [? _].
      * apply find_if_edges_None in He'. specialize (He' e0 E0 Hin0 HE0).
        simpl in He'. apply N.eqb_neq in He'. done.
    + intros edge' src' Hsrc' Hid'.
      apply (addEdgeAsPlainCopy_existing s1 edge' src' e Hsrc').
      by rewrite Hid'.
    + intros Hno.
      destruct (find_if_edges_cases (fun e => N.eqb (getId e) (edge_id src))
                  (edges s) (m_edges s)) as (r & Hr & Hnone).
      { exact (proj2 Hlive). }
      rewrite Hnone in Hr.
      2:{ intros e0 E0 Hin0 HE0. apply N.eqb_neq. by eapply Hno. }
      destruct (Hnew Hr) as (from & to & sa & sb & ndf & ndt & srcf & srct & H).
      exists from, to, sa, sb, ndf, ndt, srcf, srct.
      destruct H as (?&?&?&?&?&?&?&?&?&?&?&?&?&?&?&?). split_and!; done.
Qed.

Lemma plain_copy_deduplicated_witness :
  owned_live merge_state ∧ alloc_fresh merge_state ∧
  (∃ n s1, addNodeAsPlainCopy 11 merge_state = Ok (n, s1) ∧
           s1 = merge_state ∧ n ∈ m_nodes merge_state) ∧
  (∃ e s1, addEdgeAsPlainCopy 13 merge_state = Ok (e, s1) ∧
           addEdgeAsPlainCopy 13 s1 = Ok (e, s1) ∧
           length (m_nodes s1) = 3%nat ∧ length (m_edges s1) = 1%nat).
Proof.
  assert (Hlive : owned_live merge_state).
  { split; intros x Hx; vm_compute in Hx.
    - apply elem_of_cons in Hx as [->|Hx]; [by eexists|].
      apply list_elem_of_singleton in Hx as ->. by eexists.
    - by apply elem_of_nil in Hx. }
  assert (Hfresh : alloc_fresh merge_state).
  { intros p Hp. unfold merge_state in *. simpl in *.
    rewrite !lookup_insert_ne by lia.
    rewrite !lookup_singleton_ne by lia. done. }
  split; [done|]. split; [done|].
  destruct (plain_copy_deduplicated merge_state Hlive Hfresh) as [Hnodes Hedges].
  split.
  - destruct (Hnodes 11 (mkNode 11 NODE_UNDEFINED "x" [13] None))
      as (n & s1 & nd & Hrun & _ & _ & _ & Hold & _); [by vm_compute|].
    exists n, s1. split; [done|].
    apply (Hold 2 (mkNode 11 NODE_UNDEFINED "x" [] None)).
    + by_decide.
    + by vm_compute.
    + done.
  - destruct (Hedges 13 (mkEdge 13 (EDGE_OTHER 0) 11 12))
      as (e & s1 & E & Hrun & _ & HE & Hid & _ & Htwice & _);
      [by vm_compute|by eexists|by eexists|].
    exists e, s1. split; [done|]. split.
    + apply (Htwice 13 (mkEdge 13 (EDGE_OTHER 0) 11 12)); [|done].
      vm_compute in Hrun. injection Hrun as <- <-. vm_compute. reflexivity.
    + vm_compute in Hrun. injection Hrun as <- <-. split; reflexivity.
Defined.

(** ** Lists: positions, filters and counts *)

Lemma filter_not_in_nil (l : list N) : filter (λ x, x ∉ []) l = l.
Proof.
  induction l as [|y l IH]; [done|].
  rewrite filter_cons_True by apply not_elem_of_nil. by rewrite IH.
Qed.


Lemma filter_not_in_absent (D l : list N) :
  (∀ x, x ∈ D → x ∉ l) → filter (λ x, x ∉ D) l = l.
Proof.
  intros H. induction l as [|y l IH]; [done|].
  rewrite filter_cons_True.
  - rewrite IH; [done|]. intros x Hx Hin. apply (H x Hx). by right.
  - intros Hy. apply (H y Hy). left.
Qed.

Lemma delete_find_pos (x : N) (l : list N) :
  NoDup l → delete (find_pos x l) l = filter (λ y, y ∉ [x]) l.
Proof.
  induction l as [|y l IH]; intros Hnd; [done|].
  apply NoDup_cons in Hnd as [Hy Hnd]. simpl.
  destruct (N.eqb_spec y x) as [->|Hne].
  - rewrite filter_cons_False by (intros H; apply H; left).
    simpl. symmetry. apply filter_not_in_absent.
    intros z ->%list_elem_of_singleton. done.
  - rewrite filter_cons_True by (by intros ->%list_elem_of_singleton).
    simpl. by rewrite IH.
Qed.




Lemma count_occ_remove_first (e x : N) (l : list N) :
  count_occ N.eq_dec (remove_first e l) x
  = if decide (x = e) then pred (count_occ N.eq_dec l x)
    else count_occ N.eq_dec l x.
Proof.
  induction l as [|y l IH]; simpl.
  - by destruct (decide (x = e)).
  - destruct (N.eqb_spec y e) as [->|Hye].
    + destruct (N.eq_dec e x) as [->|Hex].
      * by rewrite decide_True.
      * by rewrite decide_False.
    + simpl. rewrite IH. destruct (N.eq_dec y x) as [->|Hyx].
      * destruct (decide (x = e)); [done|]. destruct (N.eq_dec x x); done.
      * destruct (decide (x = e)); destruct (N.eq_dec y x); done.
Qed.

Lemma count_occ_push (e x : N) (l : list N) :
  count_occ N.eq_dec (l ++ [e]) x
  = (count_occ N.eq_dec l x + if decide (x = e) then 1 else 0)%nat.
Proof.
  rewrite count_occ_app. simpl.
  destruct (N.eq_dec e x) as [->|Hne].
  - by rewrite decide_True.
  - by rewrite decide_False.
Qed.

Lemma count_occ_elem (l : list N) x :
  x ∈ l ↔ (0 < count_occ N.eq_dec l x)%nat.
Proof. rewrite list_elem_of_In. apply count_occ_In. Qed.


Lemma NoDup_count_le (l : list N) :
  (∀ x, (count_occ N.eq_dec l x ≤ 1)%nat) → NoDup l.
Proof. intros H. apply NoDup_ListNoDup. by apply (NoDup_count_occ N.eq_dec). Qed.

(** ** Cascading removal: the single steps *)


Lemma owned_incidence_owned s n e E :
  e ∈ m_edges s → edges s !! e = Some E → owned_incidence s n e = incidence E n.
Proof. intros Hin HE. unfold owned_incidence. by rewrite decide_True, HE. Qed.

Lemma owned_incidence_absent s n e :
  e ∉ m_edges s → owned_incidence s n e = 0%nat.
Proof. intros Hn. unfold owned_incidence. by rewrite decide_False. Qed.

Lemma owned_incidence_ext s s' n e :
  (e ∈ m_edges s' ↔ e ∈ m_edges s) →
  (e ∈ m_edges s → edges s' !! e = edges s !! e) →
  owned_incidence s' n e = owned_incidence s n e.
Proof.
  intros Hin Hrec. unfold owned_incidence.
  destruct (decide (e ∈ m_edges s)) as [He|He].
  - rewrite decide_True by (by apply Hin). by rewrite Hrec.
  - rewrite decide_False; [done|]. by rewrite Hin.
Qed.

(** The index of an owned node lists owned edges that touch the node. *)
Lemma ok_index_elem s n nd e :
  graph_ok s → n ∈ m_nodes s → nodes s !! n = Some nd → e ∈ node_edges nd →
  e ∈ m_edges s ∧
  ∃ E, edges s !! e = Some E ∧ (edge_from E = n ∨ edge_to E = n).
Proof.
  intros Hok Hn Hnd He.
  destruct (ok_index s Hok n Hn) as (nd' & Hnd' & Hcount).
  assert (nd' = nd) as -> by congruence.
  apply count_occ_elem in He. rewrite Hcount in He.
  unfold owned_incidence in He.
  destruct (decide (e ∈ m_edges s)) as [Hin|]; [|lia].
  split; [done|].
  destruct (edges s !! e) as [E|]; [|lia].
  exists E. split; [done|]. unfold incidence in He.
  destruct (decide (edge_from E = n)); [by left|].
  destruct (decide (edge_to E = n)); [by right|]. simpl in He. lia.
Qed.

(** An owned edge is listed in the index of both its ends. *)
Lemma ok_index_incident s e E n nd :
  graph_ok s → e ∈ m_edges s → edges s !! e = Some E →
  edge_from E = n ∨ edge_to E = n →
  nodes s !! n = Some nd → n ∈ m_nodes s →
  e ∈ node_edges nd.
Proof.
  intros Hok He HE Hends Hnd Hn.
  destruct (ok_index s Hok n Hn) as (nd' & Hnd' & Hcount).
  assert (nd' = nd) as -> by congruence.
  apply count_occ_elem. rewrite Hcount.
  rewrite (owned_incidence_owned s n e E He HE). unfold incidence.
  destruct Hends as [H|H]; rewrite (decide_True _ _ H); lia.
Qed.

Lemma delete_Edge_Ok e E s :
  edges s !! e = Some E →
  is_Some (nodes s !! edge_from E) → is_Some (nodes s !! edge_to E) →
  delete_Edge e s
  = Ok (tt,
        mkState (m_nodes s) (m_edges s)
          (alter (fun nd => node_with_edges (remove_first e (node_edges nd)) nd)
             (edge_to E)
             (alter (fun nd => node_with_edges (remove_first e (node_edges nd)) nd)
                (edge_from E) (nodes s)))
          (delete e (edges s)) (next_addr s) (next_id s) (log s)).
Proof.
  intros HE Hfrom Hto. unfold delete_Edge.
  rewrite (bind_Ok _ _ s E s) by (unfold read, deref_edge; by rewrite HE).
  unfold bind at 1, Node_removeEdge. rewrite update_node_Ok by done.
  unfold bind at 1. rewrite update_node_Ok by (by apply lookup_alter_is_Some).
  reflexivity.
Qed.

Lemma lookup_unregistered (m : gmap N Node) E e n nd :
  m !! n = Some nd →
  ∃ nd',
    alter (fun nd => node_with_edges (remove_first e (node_edges nd)) nd)
      (edge_to E)
      (alter (fun nd => node_with_edges (remove_first e (node_edges nd)) nd)
         (edge_from E) m) !! n
    = Some nd' ∧
    ∀ x, count_occ N.eq_dec (node_edges nd') x
         = if decide (x = e)
           then (count_occ N.eq_dec (node_edges nd) x - incidence E n)%nat
           else count_occ N.eq_dec (node_edges nd) x.
Proof.
  intros Hnd. destruct E as [id ty from to]. unfold incidence. simpl.
  rewrite !lookup_alter.
  destruct (decide (to = n)) as [->|Hto], (decide (from = n)) as [->|Hfrom];
    rewrite ?Hnd; simpl; eexists; (split; [reflexivity|]); simpl;
    intros x; rewrite ?count_occ_remove_first;
    destruct (decide (x = e)); lia.
Qed.

(** One edge leaves the graph. *)
Lemma removeEdgeInternal_ok s e :
  graph_ok s →
  ∃ s', removeEdgeInternal e s = Ok (tt, s') ∧
        graph_ok s' ∧ evolves s s' [] [e] ∧ log s' = log s.
Proof.
  intros Hok. unfold removeEdgeInternal.
  destruct (decide (e ∈ m_edges s)) as [Hin|Hnin].
  2:{ rewrite (find_pos_not_elem _ _ Hnin), Nat.eqb_refl.
      exists s. split_and!; try done. split.
      - by rewrite filter_not_in_nil.
      - symmetry. apply filter_not_in_absent.
        by intros x ->%list_elem_of_singleton.
      - done. }
  pose proof (find_pos_elem _ _ Hin) as Hlt.
  destruct (Nat.eqb_spec (find_pos e (m_edges s)) (length (m_edges s)))
    as [|_]; [lia|].
  destruct (ok_edges s Hok e Hin) as (E & HE & Hfrom & Hto).
  destruct (ok_index s Hok _ Hfrom) as (ndf & Hndf & _).
  destruct (ok_index s Hok _ Hto) as (ndt & Hndt & _).
  unfold erase_edge. rewrite (find_pos_lookup _ _ Hin).
  unfold bind, modify. rewrite (delete_Edge_Ok e E) by (simpl; by eauto).
  simpl. eexists. split; [reflexivity|].
  rewrite (delete_find_pos _ _ (ok_edges_nodup s Hok)).
  assert (Hmem : ∀ x, x ∈ filter (λ y, y ∉ [e]) (m_edges s)
                      ↔ x ∈ m_edges s ∧ x ≠ e).
  { intros x. rewrite list_elem_of_filter, list_elem_of_singleton. tauto. }
  split_and!; [| |done].
  - split; simpl.
    + apply (ok_nodes_nodup s Hok).
    + apply NoDup_filter, (ok_edges_nodup s Hok).
    + intros x [Hx Hne]%Hmem.
      rewrite lookup_delete_ne by done. by apply (ok_edges s Hok).
    + intros n Hn. destruct (ok_index s Hok n Hn) as (nd & Hnd & Hcount).
      destruct (lookup_unregistered (nodes s) E e n nd Hnd) as (nd' & Hnd' & Hc').
      exists nd'. split; [done|]. intros x. rewrite Hc', !Hcount.
      destruct (decide (x = e)) as [->|Hne].
      * rewrite (owned_incidence_owned s n e E Hin HE).
        rewrite owned_incidence_absent; [lia|]. simpl. rewrite Hmem. tauto.
      * symmetry. apply owned_incidence_ext; simpl.
        -- rewrite Hmem. tauto.
        -- intros _. by rewrite lookup_delete_ne.
  - split; simpl.
    + by rewrite filter_not_in_nil.
    + done.
    + intros x [Hx Hne]%Hmem. by rewrite lookup_delete_ne.
Qed.


(** ** Cascading removal: hierarchies *)














Lemma member_edge_nodes s e p c :
  graph_ok s → member_edge s e p c → p ∈ m_nodes s ∧ c ∈ m_nodes s.
Proof.
  intros Hok (He & E & HE & _ & <- & <-).
  destruct (ok_edges s Hok e He) as (E' & HE' & Hfrom & Hto).
  by assert (E' = E) as -> by congruence.
Qed.


(** ** Cascading removal: the second loop *)



(** ** Cascading removal: the first loop *)













(** ** Cascading removal: the subtree *)



(** ** Creation keeps the graph consistent *)

Lemma graph_ok_live s : graph_ok s → owned_live s.
Proof.
  intros Hok. split.
  - intros n Hn. destruct (ok_index s Hok n Hn) as (nd & -> & _). by eexists.
  - intros e He. destruct (ok_edges s Hok e He) as (E & -> & _). by eexists.
Qed.

Lemma lookup_registered_count (m : gmap N Node) from to p n nd :
  m !! n = Some nd →
  ∃ nd',
    alter (fun nd => node_with_edges (node_edges nd ++ [p]) nd) to
      (alter (fun nd => node_with_edges (node_edges nd ++ [p]) nd) from m) !! n
    = Some nd' ∧
    ∀ x, count_occ N.eq_dec (node_edges nd') x
         = (count_occ N.eq_dec (node_edges nd) x
            + if decide (x = p)
              then incidence (mkEdge 0 EDGE_MEMBER from to) n else 0)%nat.
Proof.
  intros Hnd. unfold incidence. simpl. rewrite !lookup_alter.
  destruct (decide (to = n)) as [->|Hto], (decide (from = n)) as [->|Hfrom];
    rewrite ?Hnd; simpl; eexists; (split; [reflexivity|]); simpl;
    intros x; rewrite ?count_occ_push;
    destruct (decide (x = p)); lia.
Qed.

Lemma lookup_alter_None {A} (f : A → A) (m : gmap N A) i j :
  alter f i m !! j = None ↔ m !! j = None.
Proof.
  rewrite lookup_alter. destruct (decide (i = j)) as [->|]; [|done].
  by rewrite fmap_None.
Qed.

(** A new edge between two owned nodes. *)
Lemma insertEdge_ok s type from to :
  graph_ok s → alloc_fresh s →
  from ∈ m_nodes s → to ∈ m_nodes s →
  ∃ s',
    insertEdge type from to s = Ok (next_addr s, s') ∧
    graph_ok s' ∧ alloc_fresh s' ∧
    m_nodes s' = m_nodes s ∧
    m_edges s' = m_edges s ++ [next_addr s] ∧
    edges s' = <[next_addr s := mkEdge (next_id s) type from to]> (edges s) ∧
    (next_addr s ∉ m_edges s) ∧ log s' = log s.
Proof.
  intros Hok Hfresh Hfrom Hto.
  pose proof (graph_ok_live s Hok) as Hlive.
  pose proof (owned_not_fresh_edge s Hlive Hfresh) as Hp.
  pose proof (alloc_fresh_edge s Hfresh) as Hpe.
  set (p := next_addr s) in *.
  set (E := mkEdge (next_id s) type from to).
  unfold insertEdge, new_Edge.
  unfold bind at 1. unfold bind at 1. unfold Token_fresh_id at 1.
  rewrite construct_Edge_Ok by (simpl; by apply Hlive).
  unfold bind, modify, ret. simpl. eexists. split; [reflexivity|].
  fold p. split_and!; try done.
  - split; simpl.
    + apply (ok_nodes_nodup s Hok).
    + apply NoDup_app. split_and!; [apply (ok_edges_nodup s Hok)| |apply NoDup_singleton].
      intros x Hx ->%list_elem_of_singleton. done.
    + intros e [He| ->%list_elem_of_singleton]%elem_of_app.
      * rewrite lookup_insert_ne by (by intros <-). by apply (ok_edges s Hok).
      * rewrite lookup_insert_eq. by exists E.
    + intros n Hn. destruct (ok_index s Hok n Hn) as (nd & Hnd & Hcount).
      destruct (lookup_registered_count (nodes s) from to p n nd Hnd)
        as (nd' & Hnd' & Hc').
      exists nd'. split; [done|]. intros x. rewrite Hc', Hcount.
      destruct (decide (x = p)) as [->|Hne].
      * rewrite (owned_incidence_absent s n p Hp).
        unfold owned_incidence. simpl.
        rewrite decide_True by (apply elem_of_app; right; by apply list_elem_of_singleton).
        by rewrite lookup_insert_eq.
      * rewrite Nat.add_0_r. symmetry. apply owned_incidence_ext; simpl.
        -- rewrite elem_of_app, list_elem_of_singleton. tauto.
        -- intros _. by rewrite lookup_insert_ne.
  - intros q Hq. simpl in *. split.
    + rewrite !lookup_alter_None. apply Hfresh. fold p. lia.
    + rewrite lookup_insert_ne by lia. apply Hfresh. fold p. lia.
Qed.

(** In a consistent graph [getEdge] returns a result; a result is an owned
    edge of the type that ends in [to] and touches [from]; and when an owned
    edge has the triple asked for, there is a result. *)
Lemma getEdge_ok s type from to :
  graph_ok s → from ∈ m_nodes s →
  ∃ r, getEdge type from to s = Ok r ∧
       (∀ e, r = Some e →
          e ∈ m_edges s ∧
          ∃ E, edges s !! e = Some E ∧ edge_type E = type ∧ edge_to E = to ∧
               (edge_from E = from ∨ from = to)) ∧
       (r = None →
          ∀ e E, e ∈ m_edges s → edges s !! e = Some E →
                 ¬ (edge_type E = type ∧ edge_from E = from ∧ edge_to E = to)).
Proof.
  intros Hok Hfrom.
  destruct (ok_index s Hok from Hfrom) as (nd & Hnd & Hcount).
  assert (Hlive : all_live (edges s) (node_edges nd)).
  { intros e He.
    destruct (ok_index_elem s from nd e Hok Hfrom Hnd He) as (_ & E & -> & _).
    by eexists. }
  unfold getEdge, Node_findEdgeOfType, deref_node. rewrite Hnd. simpl.
  destruct (find_if_edges_total
              (fun E => EdgeType_eqb (edge_type E) type && N.eqb (edge_to E) to)
              (edges s) (node_edges nd) Hlive) as [r Hr].
  exists r. split; [done|]. split.
  - intros e ->. apply find_if_edges_Some in Hr as (He & E & HE & Hf).
    apply andb_true_iff in Hf as [Hty%EdgeType_eqb_eq Hto%N.eqb_eq].
    destruct (ok_index_elem s from nd e Hok Hfrom Hnd He) as (Hin & E' & HE' & Hends).
    assert (E' = E) as -> by congruence.
    split; [done|]. exists E. split_and!; try done.
    destruct Hends as [|Ht]; [by left|right; congruence].
  - intros -> e E He HE (Hty & Hf & Ht).
    apply find_if_edges_None in Hr.
    assert (Hidx : e ∈ node_edges nd)
      by (apply (ok_index_incident s e E from nd); auto).
    specialize (Hr e E Hidx HE). simpl in Hr.
    apply andb_false_iff in Hr as [Hr|Hr].
    + rewrite (proj2 (EdgeType_eqb_eq _ _) Hty) in Hr. discriminate.
    + apply N.eqb_neq in Hr. done.
Qed.

(** [createEdge] between owned nodes of a consistent graph without duplicate
    triples: the graph stays consistent and without duplicate triples; the
    result is an owned edge of the type that ends in [to]; for [from ≠ to]
    it is the edge with the triple asked for, and it is new exactly when no
    owned edge had that triple. *)
Lemma createEdge_ok s type from to :
  graph_ok s → alloc_fresh s → unique_triples s →
  from ∈ m_nodes s → to ∈ m_nodes s →
  ∃ e s' E,
    createEdge type from to s = Ok (e, s') ∧
    graph_ok s' ∧ alloc_fresh s' ∧ unique_triples s' ∧
    m_nodes s' = m_nodes s ∧ log s' = log s ∧
    e ∈ m_edges s' ∧ edges s' !! e = Some E ∧
    edge_type E = type ∧ edge_to E = to ∧
    (from ≠ to → edge_from E = from) ∧
    (s' = s ∧ e ∈ m_edges s ∨
     (e ∉ m_edges s) ∧ m_edges s' = m_edges s ++ [e] ∧
     E = mkEdge (next_id s) type from to ∧
     edges s' = <[e := E]> (edges s) ∧
     ∀ e0 E0, e0 ∈ m_edges s → edges s !! e0 = Some E0 →
              ¬ (edge_type E0 = type ∧ edge_from E0 = from ∧ edge_to E0 = to)).
Proof.
  intros Hok Hfresh Huniq Hfrom Hto.
  destruct (getEdge_ok s type from to Hok Hfrom) as (r & Hget & Hsome & Hnone).
  unfold createEdge. rewrite (bind_Ok _ _ s r s) by (by apply read_Ok).
  destruct r as [e|].
  - destruct (Hsome e eq_refl) as (He & E & HE & Hty & Ht & Hf).
    exists e, s, E. split_and!; try done.
    + intros Hne. by destruct Hf.
    + by left.
  - destruct (insertEdge_ok s type from to Hok Hfresh Hfrom Hto)
      as (s' & Hrun & Hok' & Hfresh' & Hnodes & Hedges & Hheap & Hp & Hlog).
    exists (next_addr s), s', (mkEdge (next_id s) type from to).
    split_and!; try done.
    + intros e1 e2 E1 E2. rewrite Hedges, Hheap, !elem_of_app, !list_elem_of_singleton.
      intros [H1| ->] [H2| ->].
      * rewrite !lookup_insert_ne by (by intros <-). by apply Huniq.
      * rewrite lookup_insert_ne by (by intros <-). rewrite lookup_insert_eq.
        intros HE1 [= <-] Hty Hf Ht. simpl in *.
        exfalso. by apply (Hnone eq_refl e1 E1 H1 HE1).
      * rewrite lookup_insert_eq. rewrite lookup_insert_ne by (by intros <-).
        intros [= <-] HE2 Hty Hf Ht. simpl in *.
        exfalso. by apply (Hnone eq_refl e2 E2 H2 HE2).
      * done.
    + rewrite Hedges. apply elem_of_app. right. by apply list_elem_of_singleton.
    + by rewrite Hheap, lookup_insert_eq.
    + right. split_and!; try done. by apply Hnone.
Qed.

(** ** Creation keeps the hierarchy *)

Lemma find_pos_app_l x (l k : list N) :
  x ∈ l → find_pos x (l ++ k) = find_pos x l.
Proof.
  induction l as [|y l IH]; [by intros ?%elem_of_nil|]. simpl.
  destruct (N.eqb_spec y x); [done|].
  intros [->|Hx]%elem_of_cons; [done|]. by rewrite IH.
Qed.

Lemma find_pos_app_new x (l : list N) :
  x ∉ l → find_pos x (l ++ [x]) = length l.
Proof.
  induction l as [|y l IH]; simpl.
  - by rewrite N.eqb_refl.
  - intros [Hne Hx]%not_elem_of_cons.
    destruct (N.eqb_spec y x); [congruence|]. by rewrite IH.
Qed.

Lemma member_edge_same s s' e p c :
  (e ∈ m_edges s' ↔ e ∈ m_edges s) →
  edges s' !! e = edges s !! e →
  member_edge s' e p c ↔ member_edge s e p c.
Proof. intros Hin Hrec. unfold member_edge. by rewrite Hin, Hrec. Qed.

(** An edge of another type does not change the hierarchy. *)
Lemma createEdge_built_ok s type from to e s' :
  built_ok s → type ≠ EDGE_MEMBER →
  from ∈ m_nodes s → to ∈ m_nodes s →
  createEdge type from to s = Ok (e, s') →
  built_ok s'.
Proof.
  intros (Hh & Hfresh & Huniq) Hty Hfrom Hto Hrun.
  destruct (createEdge_ok s type from to (h_graph s Hh) Hfresh Huniq Hfrom Hto)
    as (e1 & s1 & E & Hrun1 & Hok1 & Hfresh1 & Huniq1 & Hnodes & _ & _ & _ & _
        & _ & _ & Hcases).
  rewrite Hrun in Hrun1. injection Hrun1 as <- <-.
  split_and!; try done.
  destruct Hcases as [[-> _]|(Hnew & Hedges & HE & Hheap & _)]; [done|].
  assert (Hmem : ∀ e0 p c, member_edge s' e0 p c → member_edge s e0 p c).
  { intros e0 p c (He0 & E0 & HE0 & Hty0 & Hp & Hc).
    rewrite Hedges, elem_of_app, list_elem_of_singleton in He0.
    rewrite Hheap in HE0.
    destruct (decide (e0 = e)) as [->|Hne].
    - rewrite lookup_insert_eq in HE0. injection HE0 as <-. subst E. done.
    - rewrite lookup_insert_ne in HE0 by done.
      split; [by destruct He0|]. by exists E0. }
  split; [done| |].
  - intros e0 p c Hm. rewrite Hnodes. by apply (h_order s Hh e0), Hmem.
  - intros e1 e2 p1 p2 c H1 H2. apply (h_parent s Hh e1 e2 p1 p2 c); by apply Hmem.
Qed.

Lemma owned_incidence_untouched s n e :
  graph_ok s → n ∉ m_nodes s → owned_incidence s n e = 0%nat.
Proof.
  intros Hok Hn. unfold owned_incidence.
  destruct (decide (e ∈ m_edges s)) as [He|]; [|done].
  destruct (ok_edges s Hok e He) as (E & -> & Hfrom & Hto). unfold incidence.
  rewrite !decide_False; [done|by intros <-|by intros <-].
Qed.

(** [insertNode] adds the node at the end of [m_nodes] and, under an owned
    parent, the member edge that makes it a child. *)
Lemma insertNode_built_ok s type fullName parent :
  built_ok s →
  (∀ p, parent = Some p → p ∈ m_nodes s) →
  ∃ s',
    insertNode type fullName parent s = Ok (next_addr s, s') ∧
    built_ok s' ∧ m_nodes s' = m_nodes s ++ [next_addr s] ∧
    log s' = log s.
Proof.
  intros (Hh & Hfresh & Huniq) Hparent.
  pose proof (h_graph s Hh) as Hok.
  pose proof (graph_ok_live s Hok) as Hlive.
  pose proof (owned_not_fresh_node s Hlive Hfresh) as Hp.
  pose proof (alloc_fresh_node s Hfresh) as Hpn.
  set (p := next_addr s) in *.
  set (nd := mkNode (next_id s) type fullName [] None).
  set (sA := mkState (m_nodes s ++ [p]) (m_edges s) (<[p := nd]> (nodes s))
               (edges s) (p + 1) (next_id s + 1) (log s)).
  assert (HokA : graph_ok sA).
  { split; simpl.
    - apply NoDup_app. split_and!; [apply (ok_nodes_nodup s Hok)| |apply NoDup_singleton].
      intros x Hx ->%list_elem_of_singleton. done.
    - apply (ok_edges_nodup s Hok).
    - intros e He. destruct (ok_edges s Hok e He) as (E & HE & Hf & Ht).
      exists E. rewrite !elem_of_app. tauto.
    - intros n [Hn| ->%list_elem_of_singleton]%elem_of_app.
      + destruct (ok_index s Hok n Hn) as (ndn & Hndn & Hcount).
        exists ndn. split; [rewrite lookup_insert_ne; [done|by intros <-]|].
        intros e. rewrite Hcount. symmetry. by apply owned_incidence_ext.
      + exists nd. split; [by rewrite lookup_insert_eq|]. intros e. simpl.
        rewrite <- (owned_incidence_untouched s p e Hok Hp).
        symmetry. by apply owned_incidence_ext. }
  assert (HhA : hierarchy_ok sA).
  { split; [done| |].
    - intros e a c Hm.
      assert (Hm0 : member_edge s e a c) by (by apply (member_edge_same s sA)).
      destruct (member_edge_nodes s e a c Hok Hm0) as [Ha Hc]. simpl.
      rewrite !find_pos_app_l by done. by apply (h_order s Hh e).
    - intros e1 e2 p1 p2 c H1 H2.
      apply (h_parent s Hh e1 e2 p1 p2 c); by apply (member_edge_same s sA). }
  assert (HfreshA : alloc_fresh sA).
  { intros q Hq. simpl in *. split.
    - rewrite lookup_insert_ne by lia. apply Hfresh. fold p. lia.
    - apply Hfresh. fold p. lia. }
  assert (HrunA : ∀ k : N → M N,
            bind (new_Node type fullName) (fun node =>
              modify (fun s => set_m_nodes (m_nodes s ++ [node]) s) ;; k node) s
            = k p sA).
  { intros k. reflexivity. }
  unfold insertNode. rewrite HrunA.
  destruct parent as [par|].
  2:{ exists sA. by split_and!. }
  assert (Hpar : par ∈ m_nodes s) by (by apply Hparent).
  assert (Hne : par ≠ p) by (by intros ->).
  destruct (createEdge_ok sA EDGE_MEMBER par p HokA HfreshA Huniq)
    as (e & s' & E & Hrun & Hok' & Hfresh' & Huniq' & Hnodes & Hlog & He & HE
        & Hty & Hto & Hfrom & Hcases).
  { simpl. apply elem_of_app. by left. }
  { simpl. apply elem_of_app. right. by apply list_elem_of_singleton. }
  destruct Hcases as [[-> Hold]|(Hnew & Hedges & HEeq & Hheap & _)].
  { exfalso. simpl in Hold.
    destruct (ok_edges s Hok e Hold) as (E' & HE' & _ & Ht').
    simpl in HE. assert (E' = E) as -> by congruence. by rewrite Hto in Ht'. }
  exists s'. rewrite (bind_Ok _ _ _ _ _ Hrun). split; [done|].
  split; [|by rewrite Hnodes, Hlog].
  split_and!; try done.
  assert (Hmem : ∀ e0 a c, member_edge s' e0 a c →
            member_edge s e0 a c ∨ (e0 = e ∧ a = par ∧ c = p)).
  { intros e0 a c (He0 & E0 & HE0 & Hty0 & Ha & Hc).
    rewrite Hedges, elem_of_app, list_elem_of_singleton in He0.
    rewrite Hheap in HE0. simpl in He0, HE0.
    destruct (decide (e0 = e)) as [->|Hne0].
    - rewrite lookup_insert_eq in HE0. injection HE0 as <-. subst E.
      right. simpl in *. by split_and!.
    - rewrite lookup_insert_ne in HE0 by done. left.
      split; [by destruct He0|]. by exists E0. }
  split; [done| |].
  - intros e0 a c Hm. rewrite Hnodes. simpl.
    destruct (Hmem e0 a c Hm) as [Hm0|(-> & -> & ->)].
    + destruct (member_edge_nodes s e0 a c Hok Hm0) as [Ha Hc].
      rewrite !find_pos_app_l by done. by apply (h_order s Hh e0).
    + rewrite find_pos_app_l by done. rewrite find_pos_app_new by done.
      by apply find_pos_elem.
  - intros e1 e2 p1 p2 c H1 H2.
    destruct (Hmem e1 p1 c H1) as [Hm1|(He1 & Hp1 & Hc1)],
             (Hmem e2 p2 c H2) as [Hm2|(He2 & Hp2 & Hc2)].
    + by apply (h_parent s Hh e1 e2 p1 p2 c).
    + subst c. by destruct (member_edge_nodes s e1 p1 p Hok Hm1) as [_ Hc].
    + subst c. by destruct (member_edge_nodes s e2 p2 p Hok Hm2) as [_ Hc].
    + congruence.
Qed.

Lemma split_go_nonempty delim s : ∀ skip acc, split_go delim skip acc s ≠ [].
Proof.
  induction s as [|ch s IH]; intros skip acc; simpl; [discriminate|].
  destruct skip; [|apply IH].
  match goal with |- context [if ?b then _ else _] => destruct b end;
    [discriminate|apply IH].
Qed.

(** Changing attributes other than the index keeps everything. *)
Lemma retag_built_ok s n (f : Node → Node) :
  (∀ nd, node_edges (f nd) = node_edges nd) →
  built_ok s → built_ok (set_nodes (alter f n (nodes s)) s).
Proof.
  intros Hf (Hh & Hfresh & Huniq). pose proof (h_graph s Hh) as Hok.
  split_and!; [|intros q Hq; split; [apply lookup_alter_None|]; by apply Hfresh|done].
  split; [|apply (h_order s Hh)|apply (h_parent s Hh)].
  split; simpl; [apply Hok..|].
  intros x Hx. destruct (ok_index s Hok x Hx) as (nd & Hnd & Hcount).
  rewrite lookup_alter. destruct (decide (n = x)) as [->|].
  - exists (f nd). rewrite Hnd. split; [done|]. intros e. by rewrite Hf, Hcount.
  - by exists nd.
Qed.

Lemma getNode_total s fullName :
  owned_live s →
  ∃ r, getNode fullName s = Ok r ∧ ∀ n, r = Some n → n ∈ m_nodes s.
Proof.
  intros [Hn _].
  destruct (find_if_nodes_total (fun n => String.eqb (node_name n) fullName)
              (nodes s) (m_nodes s) Hn) as [r Hr].
  exists r. split; [done|]. intros n ->.
  by apply find_if_nodes_Some in Hr as [? _].
Qed.

Lemma insertNodeHierarchy_loop_ok type names :
  ∀ first name node s,
    built_ok s → (∀ p, node = Some p → p ∈ m_nodes s) →
    ∃ r s',
      insertNodeHierarchy_loop type names first name node s = Ok (r, s') ∧
      built_ok s' ∧ (∀ p, r = Some p → p ∈ m_nodes s') ∧ log s' = log s ∧
      (names ≠ [] → is_Some r).
Proof.
  induction names as [|seg rest IH]; intros first name node s Hb Hnode; simpl.
  { exists node, s. by split_and!. }
  set (name' := ((if first then name else name ++ DELIMITER) ++ seg)%string).
  pose proof Hb as (Hh & Hfresh & Huniq).
  pose proof (graph_ok_live s (h_graph s Hh)) as Hlive.
  destruct (getNode_total s name' Hlive) as (found & Hget & Hfound).
  rewrite (bind_Ok _ _ s found s) by (by apply read_Ok).
  destruct found as [c|].
  - unfold bind at 1, ret.
    destruct (IH false name' (Some c) s Hb) as (r & s' & Hrun & Hb' & Hr & Hlog & Hsome).
    { intros p [= <-]. by apply Hfound. }
    exists r, s'. split_and!; try done.
    intros _. destruct rest; [simpl in Hrun; by injection Hrun as <- _|by apply Hsome].
  - assert (Hins : ∃ s1, (match rest with
                          | [] => insertNode type name' node
                          | _ :: _ => insertNode NODE_UNDEFINED name' node
                          end) s = Ok (next_addr s, s1) ∧
                         built_ok s1 ∧ m_nodes s1 = m_nodes s ++ [next_addr s] ∧
                         log s1 = log s).
    { destruct rest; by apply insertNode_built_ok. }
    destruct Hins as (s1 & Hrun1 & Hb1 & Hnodes1 & Hlog1).
    rewrite (bind_Ok _ _ _ _ _ Hrun1).
    destruct (IH false name' (Some (next_addr s)) s1 Hb1)
      as (r & s' & Hrun & Hb' & Hr & Hlog & Hsome).
    { intros p [= <-]. rewrite Hnodes1. apply elem_of_app. right.
      by apply list_elem_of_singleton. }
    exists r, s'. split_and!; try done; [congruence|].
    intros _. destruct rest; [simpl in Hrun; by injection Hrun as <- _|by apply Hsome].
Qed.

(** [createNodeHierarchy] returns a node and keeps everything. *)
Lemma createNodeHierarchy_built_ok s type fullName :
  built_ok s →
  ∃ n s', createNodeHierarchy type fullName s = Ok (Some n, s') ∧
          built_ok s' ∧ n ∈ m_nodes s' ∧ log s' = log s.
Proof.
  intros Hb. pose proof Hb as (Hh & Hfresh & Huniq).
  pose proof (graph_ok_live s (h_graph s Hh)) as Hlive.
  destruct (getNode_total s fullName Hlive) as (found & Hget & Hfound).
  unfold createNodeHierarchy.
  rewrite (bind_Ok _ _ s found s) by (by apply read_Ok).
  destruct found as [n|].
  - specialize (Hfound n eq_refl).
    destruct (NodeType_eqb type NODE_UNDEFINED).
    + exists n, s. by split_and!.
    + unfold bind at 1, Node_setType.
      rewrite update_node_Ok by (by apply Hlive).
      eexists n, _. split; [reflexivity|]. split_and!; [|done|done].
      by apply retag_built_ok.
  - destruct (insertNodeHierarchy_loop_ok type (split fullName DELIMITER)
                true EmptyString None s Hb) as (r & s' & Hrun & Hb' & Hr & Hlog & Hsome);
      [done|].
    destruct Hsome as [n ->]; [apply split_go_nonempty|].
    exists n, s'. split_and!; try done. by apply Hr.
Qed.

(** Every graph built by [createNodeHierarchy] and by [createEdge] with
    other types is a hierarchy. *)
Lemma built_is_ok s : built s → built_ok s.
Proof.
  induction 1 as [|s type fullName n s' _ IH Hrun|s type from to e s' _ IH Hty Hf Ht Hrun].
  - split_and!.
    + split; [split; simpl| |].
      * constructor.
      * constructor.
      * by intros e ?%elem_of_nil.
      * by intros n ?%elem_of_nil.
      * by intros e p c [?%elem_of_nil _].
      * by intros e1 e2 p1 p2 c [?%elem_of_nil _].
    + by intros p _.
    + by intros e1 e2 E1 E2 ?%elem_of_nil.
  - destruct (createNodeHierarchy_built_ok s type fullName IH)
      as (n' & s'' & Hrun' & Hb & _).
    rewrite Hrun in Hrun'. by injection Hrun' as _ <-.
  - exact (createEdge_built_ok s type from to e s' IH Hty Hf Ht Hrun).
Qed.

(** ** The subtree of a::b in a concrete hierarchy *)

Example hierarchy_state_built :
  (createNodeHierarchy (NODE_DEFINED 1) "a::b::c" ;;
   createNodeHierarchy (NODE_DEFINED 2) "a::d" ;;
   createEdge (EDGE_OTHER 0) 6 4) empty_graph = Ok (8, hierarchy_state).
Proof. vm_compute. reflexivity. Qed.


Lemma hierarchy_state_is_built : built hierarchy_state.
Proof.
  eapply (built_edge _ (EDGE_OTHER 0) 6 4 8).
  - eapply (built_hierarchy _ (NODE_DEFINED 2) "a::d").
    + eapply (built_hierarchy _ (NODE_DEFINED 1) "a::b::c"); [apply built_empty|].
      vm_compute. reflexivity.
    + vm_compute. reflexivity.
  - discriminate.
  - by_decide.
  - by_decide.
  - vm_compute. reflexivity.
Qed.

Lemma hierarchy_state_ok : hierarchy_ok hierarchy_state.
Proof. apply (built_is_ok hierarchy_state hierarchy_state_is_built). Qed.



(** ** Repeating [createEdge] *)

Lemma lookup_registered_index (m : gmap N Node) from to p nd :
  m !! from = Some nd →
  alter (fun nd => node_with_edges (node_edges nd ++ [p]) nd) to
    (alter (fun nd => node_with_edges (node_edges nd ++ [p]) nd) from m) !! from
  = Some (node_with_edges
            (node_edges nd ++ [p] ++ if decide (to = from) then [p] else []) nd).
Proof.
  intros Hnd. rewrite !lookup_alter.
  destruct (decide (to = from)) as [->|Hne].
  - rewrite decide_True by done. rewrite Hnd. simpl.
    unfold node_with_edges. simpl. by rewrite <- app_assoc.
  - rewrite decide_True by done. rewrite Hnd. simpl. done.
Qed.

Lemma call_edge_state_built : built call_edge_state.
Proof.
  eapply (built_edge _ (EDGE_OTHER 0) 1 2 3).
  - eapply (built_hierarchy _ NODE_UNDEFINED "f").
    + eapply (built_hierarchy _ NODE_UNDEFINED "g"); [apply built_empty|].
      vm_compute. reflexivity.
    + vm_compute. reflexivity.
  - discriminate.
  - by_decide.
  - by_decide.
  - vm_compute. reflexivity.
Qed.

(** X1: in a consistent graph [createEdge] between owned nodes returns an
    owned edge; straight afterwards [getEdge] with the same arguments finds
    that edge, and a second [createEdge] with the same arguments returns it
    again and leaves the graph exactly as the first call left it.  This also
    holds for [from = to]. *)
Theorem createEdge_repeatable s type from to :
  graph_ok s → alloc_fresh s →
  from ∈ m_nodes s → to ∈ m_nodes s →
  ∃ e s1,
    createEdge type from to s = Ok (e, s1) ∧
    e ∈ m_edges s1 ∧
    getEdge type from to s1 = Ok (Some e) ∧
    createEdge type from to s1 = Ok (e, s1).
Proof.
  intros Hok Hfresh Hfrom Hto.
  destruct (getEdge_ok s type from to Hok Hfrom) as (r & Hget & Hsome & _).
  destruct r as [e|].
  { exists e, s. rewrite (createEdge_existing _ _ _ _ _ Hget).
    split_and!; try done. by destruct (Hsome e eq_refl). }
  pose proof (graph_ok_live s Hok) as Hlive.
  pose proof (owned_not_fresh_edge s Hlive Hfresh) as Hp.
  set (p := next_addr s) in *.
  set (E := mkEdge (next_id s) type from to).
  set (push := fun nd => node_with_edges (node_edges nd ++ [p]) nd).
  set (s1 := mkState (m_nodes s) (m_edges s ++ [p])
               (alter push to (alter push from (nodes s)))
               (<[p := E]> (edges s)) (p + 1) (next_id s + 1) (log s)).
  assert (Hrun : createEdge type from to s = Ok (p, s1)).
  { unfold createEdge. rewrite (bind_Ok _ _ s None s) by (by apply read_Ok).
    unfold insertEdge, new_Edge.
    unfold bind at 1. unfold bind at 1. unfold Token_fresh_id at 1.
    rewrite construct_Edge_Ok by (simpl; by apply Hlive). reflexivity. }
  assert (Hget1 : getEdge type from to s1 = Ok (Some p)).
  { destruct (ok_index s Hok from Hfrom) as (nd & Hnd & _).
    unfold getEdge, Node_findEdgeOfType, deref_node in Hget |- *.
    rewrite Hnd in Hget. simpl in Hget. simpl.
    unfold push. rewrite (lookup_registered_index _ _ _ _ _ Hnd). simpl.
    rewrite find_if_edges_app.
    - simpl. rewrite lookup_insert_eq. simpl.
      rewrite (proj2 (EdgeType_eqb_eq type type) eq_refl), N.eqb_refl. done.
    - rewrite <- Hget. apply find_if_edges_ext. intros q Hq.
      apply lookup_insert_ne. intros <-.
      by destruct (ok_index_elem s from nd p Hok Hfrom Hnd Hq) as [? _]. }
  exists p, s1. split_and!; try done.
  - simpl. apply elem_of_app. right. by apply list_elem_of_singleton.
  - by apply createEdge_existing.
Qed.

Lemma createEdge_repeatable_witness :
  ∃ e s1,
    createEdge (EDGE_OTHER 7) 2 2 call_edge_state = Ok (e, s1) ∧
    e ∈ m_edges s1 ∧
    getEdge (EDGE_OTHER 7) 2 2 s1 = Ok (Some e) ∧
    createEdge (EDGE_OTHER 7) 2 2 s1 = Ok (e, s1).
Proof.
  destruct (built_is_ok _ call_edge_state_built) as (Hh & Hfresh & _).
  apply (createEdge_repeatable call_edge_state (EDGE_OTHER 7) 2 2
           (h_graph _ Hh) Hfresh); by_decide.
Defined.

(** ** Removing one edge *)

Lemma filter_ne_singleton (l : list N) e :
  filter (λ x, x ∉ [e]) l = filter (λ x, x ≠ e) l.
Proof.
  apply list_filter_iff. intros x. by rewrite list_elem_of_singleton.
Qed.

(** X2: [removeEdge] on an owned edge that is not a membership edge returns,
    logs nothing, takes exactly that edge out of [m_edges] (the order of the
    others is kept), leaves [m_nodes] and the records of the other edges
    alone, and keeps the graph consistent; afterwards no owned node lists
    the edge in its index. *)
Theorem removeEdge_removes s e E :
  graph_ok s → e ∈ m_edges s →
  edges s !! e = Some E → edge_type E ≠ EDGE_MEMBER →
  ∃ s',
    removeEdge e s = Ok (tt, s') ∧
    graph_ok s' ∧
    m_nodes s' = m_nodes s ∧
    m_edges s' = filter (λ x, x ≠ e) (m_edges s) ∧
    (∀ x, x ∈ m_edges s' → edges s' !! x = edges s !! x) ∧
    (∀ n nd, n ∈ m_nodes s' → nodes s' !! n = Some nd → e ∉ node_edges nd) ∧
    log s' = log s.
Proof.
  intros Hok Hin HE Hty.
  destruct (removeEdgeInternal_ok s e Hok) as (s' & Hrun & Hok' & Hev & Hlog).
  exists s'.
  assert (Heq : removeEdge e s = removeEdgeInternal e s).
  { unfold removeEdge, removeEdgeInternal.
    pose proof (find_pos_elem _ _ Hin) as Hlt.
    destruct (Nat.eqb_spec (find_pos e (m_edges s)) (length (m_edges s)))
      as [|_]; [lia|].
    unfold bind at 1. unfold ret at 1.
    rewrite (bind_Ok _ _ s E s) by (unfold read, deref_edge; by rewrite HE).
    destruct (EdgeType_eqb (edge_type E) EDGE_MEMBER) eqn:Hm; [|done].
    by apply EdgeType_eqb_eq in Hm. }
  pose proof (ev_nodes _ _ _ _ Hev) as Hn. rewrite filter_not_in_nil in Hn.
  pose proof (ev_edges _ _ _ _ Hev) as Hedges.
  rewrite filter_ne_singleton in Hedges.
  split_and!; try done.
  - congruence.
  - apply (ev_frame _ _ _ _ Hev).
  - intros n nd Hnin Hnd Hidx.
    destruct (ok_index_elem s' n nd e Hok' Hnin Hnd Hidx) as [Hown _].
    rewrite Hedges in Hown. apply list_elem_of_filter in Hown as [Hne _]. done.
Qed.

Lemma removeEdge_removes_witness :
  ∃ s',
    removeEdge 3 call_edge_state = Ok (tt, s') ∧
    graph_ok s' ∧
    m_nodes s' = m_nodes call_edge_state ∧
    m_edges s' = filter (λ x, x ≠ 3) (m_edges call_edge_state) ∧
    (∀ x, x ∈ m_edges s' → edges s' !! x = edges call_edge_state !! x) ∧
    (∀ n nd, n ∈ m_nodes s' → nodes s' !! n = Some nd →
             3 ∉ node_edges nd) ∧
    log s' = log call_edge_state.
Proof.
  destruct (built_is_ok _ call_edge_state_built) as (Hh & _).
  apply (removeEdge_removes call_edge_state 3 (mkEdge 3 (EDGE_OTHER 0) 1 2)
           (h_graph _ Hh)).
  - by_decide.
  - reflexivity.
  - discriminate.
Defined.

(** ** Removal only takes away *)

Lemma node_shrinks_refl nd : node_shrinks nd nd.
Proof. by unfold node_shrinks. Qed.

Lemma node_shrinks_trans a b c :
  node_shrinks a b → node_shrinks b c → node_shrinks a c.
Proof.
  unfold node_shrinks. intros (? & ? & ? & ? & ?) (? & ? & ? & ? & ?).
  split_and!; try congruence. by etrans.
Qed.

Lemma shrinks_refl s : shrinks s s.
Proof.
  split; try done. intros n nd Hn. exists nd. split; [done|].
  apply node_shrinks_refl.
Qed.

Lemma shrinks_trans a b c : shrinks a b → shrinks b c → shrinks a c.
Proof.
  intros [? ? Hn1 He1 ? ?] [? ? Hn2 He2 ? ?]. split; try congruence.
  - by etrans.
  - by etrans.
  - intros n nd'' (nd' & Hnd' & H2)%Hn2.
    apply Hn1 in Hnd' as (nd & Hnd & H1). exists nd. split; [done|].
    by eapply node_shrinks_trans.
  - intros e E HE. by apply He1, He2.
Qed.

Lemma sublist_remove_first e (l : list N) : sublist (remove_first e l) l.
Proof.
  induction l as [|y l IH]; simpl; [done|].
  destruct (N.eqb y e); [by apply sublist_cons|by apply sublist_skip].
Qed.

Lemma Node_removeEdge_shrinks e n s s' :
  Node_removeEdge e n s = Ok (tt, s') → shrinks s s'.
Proof.
  unfold Node_removeEdge, update_node.
  destruct (nodes s !! n) as [nd|] eqn:Hnd; [|done]. intros [= <-].
  split; simpl; try done.
  intros x nd'. destruct (decide (x = n)) as [->|Hne].
  - rewrite lookup_insert_eq. intros [= <-]. exists nd. split; [done|].
    unfold node_shrinks. simpl. split_and!; try done.
    apply sublist_remove_first.
  - rewrite lookup_insert_ne by done. intros Hx. exists nd'. split; [done|].
    apply node_shrinks_refl.
Qed.

Lemma delete_Edge_shrinks e s s' :
  delete_Edge e s = Ok (tt, s') → shrinks s s'.
Proof.
  unfold delete_Edge.
  intros (E & s0 & Hread & Hd)%bind_inv.
  unfold read in Hread. destruct (deref_edge e s); [|done..].
  injection Hread as <- <-.
  apply bind_inv in Hd as ([] & s1 & H1%Node_removeEdge_shrinks & Hd).
  apply bind_inv in Hd as ([] & s2 & H2%Node_removeEdge_shrinks & [= <-]).
  eapply shrinks_trans; [exact H1|]. eapply shrinks_trans; [exact H2|].
  split; simpl; try done.
  - intros n nd Hn. exists nd. split; [done|]. apply node_shrinks_refl.
  - intros x X HX. by apply lookup_delete_Some in HX as [_ HX].
Qed.

Lemma erase_edge_shrinks it s s' :
  erase_edge it s = Ok (tt, s') → shrinks s s'.
Proof.
  unfold erase_edge. destruct (m_edges s !! it) as [e|]; [|done].
  intros ([] & s1 & [= <-] & Hd%delete_Edge_shrinks)%bind_inv.
  eapply shrinks_trans; [|exact Hd].
  split; simpl; try done.
  - apply sublist_delete.
  - intros n nd Hn. exists nd. split; [done|]. apply node_shrinks_refl.
Qed.

Lemma erase_node_shrinks it held s s' :
  erase_node it held s = Ok (tt, s') → shrinks s s'.
Proof.
  unfold erase_node. destruct (m_nodes s !! it) as [n|]; [|done].
  destruct (N.eqb n held); [|done]. intros [= <-].
  split; simpl; try done.
  - apply sublist_delete.
  - intros x nd [_ Hx]%lookup_delete_Some. exists nd. split; [done|].
    apply node_shrinks_refl.
Qed.

Lemma LOG_shrinks lvl msg s s' : LOG lvl msg s = Ok (tt, s') → shrinks s s'.
Proof.
  intros [= <-]. split; simpl; try done.
  intros n nd Hn. exists nd. split; [done|]. apply node_shrinks_refl.
Qed.

Lemma removeEdgeInternal_shrinks e s s' :
  removeEdgeInternal e s = Ok (tt, s') → shrinks s s'.
Proof.
  unfold removeEdgeInternal. destruct (Nat.eqb _ _).
  - intros [= <-]. apply shrinks_refl.
  - apply erase_edge_shrinks.
Qed.

Lemma forEach_shrinks {A} (f : A → M unit) (l : list A) :
  (∀ x s s', f x s = Ok (tt, s') → shrinks s s') →
  ∀ s s', forEach f l s = Ok (tt, s') → shrinks s s'.
Proof.
  intros Hf. apply (forEach_preserves shrinks); [apply shrinks_refl| |done].
  intros a b c. apply shrinks_trans.
Qed.

Lemma removeNode_shrinks fuel :
  ∀ node s s', removeNode fuel node s = Ok (tt, s') → shrinks s s'.
Proof.
  induction fuel as [|fuel IH]; intros node s s'; simpl; [done|].
  destruct (Nat.eqb _ _); [apply LOG_shrinks|].
  intros ([] & s1 & Hchildren & Hrest)%bind_inv.
  apply bind_inv in Hrest as ([] & s2 & Hedges & Hfinish).
  assert (H1 : shrinks s s1).
  { unfold removeNode_children, Node_forEachEdgeOfType in Hchildren.
    apply bind_inv in Hchildren as (nd & s0 & Hread & Hchildren).
    unfold read in Hread. destruct (deref_node node s); [|done..].
    injection Hread as <- <-.
    apply bind_inv in Hchildren as (snap & s0 & Hread & Hloop).
    unfold read in Hread. destruct (edges_of_type _ _ _); [|done..].
    injection Hread as <- <-.
    revert Hloop. apply forEach_shrinks.
    intros e sa sb (E & sa' & Hread & Hbody)%bind_inv.
    unfold read in Hread. destruct (deref_edge e sa); [|done..].
    injection Hread as <- <-.
    destruct (N.eqb _ _); [by eapply IH|].
    injection Hbody as <-. apply shrinks_refl. }
  assert (H2 : shrinks s1 s2).
  { unfold removeNode_edges, Node_forEachEdge in Hedges.
    apply bind_inv in Hedges as (nd & s0 & Hread & Hloop).
    unfold read in Hread. destruct (deref_node node s1); [|done..].
    injection Hread as <- <-.
    revert Hloop. apply forEach_shrinks.
    intros e sa sb. apply removeEdgeInternal_shrinks. }
  assert (H3 : shrinks s2 s').
  { unfold removeNode_finish in Hfinish.
    apply bind_inv in Hfinish as (nd & s0 & Hread & Hfinish).
    unfold read in Hread. destruct (deref_node node s2); [|done..].
    injection Hread as <- <-.
    apply bind_inv in Hfinish as ([] & s3 & Hlog & Herase%erase_node_shrinks).
    eapply shrinks_trans; [|exact Herase].
    destruct (Nat.eqb _ _); [injection Hlog as <-; apply shrinks_refl|].
    by eapply LOG_shrinks. }
  eapply shrinks_trans; [exact H1|]. by eapply shrinks_trans.
Qed.

(** X3: whatever the graph looks like, a call of [removeNode] that returns
    has only taken away: [m_nodes] and [m_edges] lost entries and kept the
    order of the rest, every object still alive was alive before and has
    the id, type, name and signature or the type and end points it had, the
    indexes of the nodes only lost entries, and no address and no id was
    handed out. *)
Theorem removeNode_only_removes fuel node s s' :
  removeNode fuel node s = Ok (tt, s') → shrinks s s'.
Proof. apply removeNode_shrinks. Qed.

Lemma removeNode_only_removes_witness :
  ∃ s', removeNode 4 1 hierarchy_state = Ok (tt, s') ∧
        shrinks hierarchy_state s'.
Proof.
  eexists. split; [vm_compute; reflexivity|].
  eapply (removeNode_only_removes 4 1). vm_compute. reflexivity.
Defined.

Lemma removeEdge_shrinks e s s' :
  removeEdge e s = Ok (tt, s') → shrinks s s'.
Proof.
  unfold removeEdge.
  intros ([] & s1 & Hwarn & Hrest)%bind_inv.
  assert (H1 : shrinks s s1).
  { destruct (Nat.eqb _ _); [by eapply LOG_shrinks|].
    injection Hwarn as <-. apply shrinks_refl. }
  apply bind_inv in Hrest as (E & s0 & Hread & Hrest).
  unfold read in Hread. destruct (deref_edge e s1); [|done..].
  injection Hread as <- <-.
  eapply shrinks_trans; [exact H1|].
  destruct (EdgeType_eqb _ _); [by eapply LOG_shrinks|].
  by eapply erase_edge_shrinks.
Qed.


(** X4: a call of [removeEdge] that returns has only taken away, in the same
    sense; this covers the call that logs because the edge is a membership
    edge, which takes nothing away. *)
Theorem removeEdge_only_removes e s s' :
  removeEdge e s = Ok (tt, s') → shrinks s s'.
Proof. apply removeEdge_shrinks. Qed.

Lemma removeEdge_only_removes_witness :
  ∃ s', removeEdge 8 hierarchy_state = Ok (tt, s') ∧
        shrinks hierarchy_state s'.
Proof.
  eexists. split; [vm_compute; reflexivity|].
  eapply (removeEdge_only_removes 8). vm_compute. reflexivity.
Defined.

(** ** Clearing the graph *)

Lemma removeEdgeInternal_head e rest s :
  removeEdgeInternal e (set_m_edges (e :: rest) s)
  = delete_Edge e (set_m_edges rest s).
Proof.
  unfold removeEdgeInternal. simpl. rewrite N.eqb_refl. simpl.
  unfold erase_edge. simpl. reflexivity.
Qed.

Lemma clear_edges_loop : ∀ rest s,
  graph_ok (set_m_edges rest s) →
  ∃ s', forEach delete_Edge rest s = Ok (tt, s') ∧
        graph_ok (set_m_edges [] s') ∧
        m_nodes s' = m_nodes s ∧ m_edges s' = m_edges s ∧
        (∀ e, edges s' !! e = if decide (e ∈ rest) then None else edges s !! e) ∧
        (∀ n, n ∉ m_nodes s → nodes s' !! n = nodes s !! n) ∧
        log s' = log s ∧ next_addr s' = next_addr s ∧ next_id s' = next_id s.
Proof.
  induction rest as [|e rest IH]; intros s Hok.
  { exists s. simpl. split_and!; try done. }
  assert (He : e ∈ m_edges (set_m_edges (e :: rest) s)) by (simpl; left).
  destruct (ok_edges _ Hok e He) as (E & HE & Hfrom & Hto). simpl in HE, Hfrom, Hto.
  destruct (ok_index _ Hok _ Hfrom) as (ndf & Hndf & _).
  destruct (ok_index _ Hok _ Hto) as (ndt & Hndt & _). simpl in Hndf, Hndt.
  destruct (removeEdgeInternal_ok _ e Hok) as (s'' & Hrun & Hok'' & _ & _).
  rewrite removeEdgeInternal_head in Hrun.
  rewrite (delete_Edge_Ok e E) in Hrun by (simpl; eauto).
  injection Hrun as <-. simpl in Hok''.
  pose proof (delete_Edge_Ok e E s HE (ex_intro _ ndf Hndf) (ex_intro _ ndt Hndt))
    as Hstep.
  match type of Hstep with _ = Ok (tt, ?t) => set (s1 := t) in * end.
  destruct (IH s1 Hok'') as (s' & Hloop & Hok' & Hn & Hm & Hedges & Hnodes & Hlog & Ha & Hi).
  exists s'. split.
  { simpl. unfold bind at 1. by rewrite Hstep. }
  split_and!; try done.
  - intros x. rewrite Hedges. simpl.
    destruct (decide (x = e)) as [->|Hne].
    + rewrite (decide_True (P := e ∈ e :: rest)) by left.
      destruct (decide (e ∈ rest)); [done|]. apply lookup_delete_eq.
    + rewrite lookup_delete_ne by done.
      destruct (decide (x ∈ rest)) as [Hin|Hnin].
      * rewrite decide_True; [done|]. by right.
      * rewrite decide_False; [done|]. by intros [->|]%elem_of_cons.
  - intros n Hn'. rewrite (Hnodes n Hn'). simpl.
    rewrite !lookup_alter_ne; [done|by intros <-|by intros <-].
Qed.

Lemma clear_nodes_loop : ∀ l s,
  ∃ s', forEach delete_Node l s = Ok (tt, s') ∧
        m_nodes s' = m_nodes s ∧ m_edges s' = m_edges s ∧
        edges s' = edges s ∧
        (∀ n, nodes s' !! n = if decide (n ∈ l) then None else nodes s !! n) ∧
        log s' = log s ∧ next_addr s' = next_addr s ∧ next_id s' = next_id s.
Proof.
  induction l as [|x l IH]; intros s.
  { exists s. simpl. split_and!; try done. }
  destruct (IH (set_nodes (delete x (nodes s)) s))
    as (s' & Hloop & Hn & Hm & He & Hnodes & Hlog & Ha & Hi).
  exists s'. split; [done|]. split_and!; try done.
  intros n. rewrite Hnodes. simpl.
  destruct (decide (n = x)) as [->|Hne].
  - rewrite (decide_True (P := x ∈ x :: l)) by left.
    destruct (decide (x ∈ l)); [done|]. apply lookup_delete_eq.
  - rewrite lookup_delete_ne by done.
    destruct (decide (n ∈ l)) as [Hin|Hnin].
    + rewrite decide_True; [done|]. by right.
    + rewrite decide_False; [done|]. by intros [->|]%elem_of_cons.
Qed.

Lemma graph_ok_perm s es :
  graph_ok s → es ≡ₚ m_edges s → graph_ok (set_m_edges es s).
Proof.
  intros Hok Hperm. split; simpl.
  - apply (ok_nodes_nodup s Hok).
  - rewrite Hperm. apply (ok_edges_nodup s Hok).
  - intros e He. rewrite Hperm in He. by apply (ok_edges s Hok).
  - intros n Hn. destruct (ok_index s Hok n Hn) as (nd & Hnd & Hcount).
    exists nd. split; [done|]. intros e. rewrite Hcount. symmetry.
    apply owned_incidence_ext; simpl; [by rewrite Hperm|done].
Qed.

Lemma state_ext (s1 s2 : State) :
  m_nodes s1 = m_nodes s2 → m_edges s1 = m_edges s2 →
  (∀ n, nodes s1 !! n = nodes s2 !! n) →
  (∀ e, edges s1 !! e = edges s2 !! e) →
  next_addr s1 = next_addr s2 → next_id s1 = next_id s2 → log s1 = log s2 →
  s1 = s2.
Proof.
  destruct s1, s2. simpl. intros -> -> Hn He -> -> ->.
  f_equal; by apply map_eq.
Qed.

Lemma clear_in_ok s es ns :
  graph_ok s → es ≡ₚ m_edges s → ns ≡ₚ m_nodes s →
  ∃ s',
    clear_in es ns s = Ok (tt, s') ∧
    m_nodes s' = [] ∧ m_edges s' = [] ∧
    (∀ n, nodes s' !! n = if decide (n ∈ m_nodes s) then None else nodes s !! n) ∧
    (∀ e, edges s' !! e = if decide (e ∈ m_edges s) then None else edges s !! e) ∧
    log s' = log s ∧ next_addr s' = next_addr s ∧ next_id s' = next_id s.
Proof.
  intros Hok Hes Hns.
  destruct (clear_edges_loop es s (graph_ok_perm s es Hok Hes))
    as (s1 & Hloop1 & Hok1 & Hn1 & Hm1 & Hedges1 & Hnodes1 & Hlog1 & Ha1 & Hi1).
  destruct (clear_nodes_loop ns (set_m_edges [] s1))
    as (s2 & Hloop2 & Hn2 & Hm2 & He2 & Hnodes2 & Hlog2 & Ha2 & Hi2).
  simpl in *.
  exists (set_m_nodes [] s2). split.
  { unfold clear_in. unfold bind at 1. unfold clear_edges at 1.
    unfold bind at 1. rewrite Hloop1. unfold modify at 1.
    unfold clear_nodes. unfold bind at 1. by rewrite Hloop2. }
  simpl. split_and!; try congruence.
  - intros n. rewrite Hnodes2.
    destruct (decide (n ∈ ns)) as [Hin|Hnin], (decide (n ∈ m_nodes s)) as [Hin'|Hnin'];
      try done.
    + by rewrite Hns in Hin.
    + by rewrite <- Hns in Hin'.
    + by apply Hnodes1.
  - intros e. rewrite He2, Hedges1.
    destruct (decide (e ∈ es)) as [Hin|Hnin], (decide (e ∈ m_edges s)) as [Hin'|Hnin'];
      try done.
    + by rewrite Hes in Hin.
    + by rewrite <- Hes in Hin'.
Qed.

Lemma clear_ok s :
  graph_ok s →
  ∃ s',
    clear s = Ok (tt, s') ∧
    (∀ es ns, es ≡ₚ m_edges s → ns ≡ₚ m_nodes s →
              clear_in es ns s = Ok (tt, s')) ∧
    m_nodes s' = [] ∧ m_edges s' = [] ∧
    (∀ n, nodes s' !! n = if decide (n ∈ m_nodes s) then None else nodes s !! n) ∧
    (∀ e, edges s' !! e = if decide (e ∈ m_edges s) then None else edges s !! e) ∧
    log s' = log s ∧ next_addr s' = next_addr s ∧ next_id s' = next_id s.
Proof.
  intros Hok.
  destruct (clear_in_ok s (m_edges s) (m_nodes s) Hok) as (s' & Hrun & Hs'); [done..|].
  exists s'. split; [done|]. split; [|done].
  intros es ns Hes Hns.
  destruct (clear_in_ok s es ns Hok Hes Hns) as (s'' & Hrun' & Hs'').
  rewrite Hrun'. do 2 f_equal.
  destruct Hs' as (Hn1 & Hm1 & Hnodes1 & Hedges1 & Hl1 & Ha1 & Hi1).
  destruct Hs'' as (Hn2 & Hm2 & Hnodes2 & Hedges2 & Hl2 & Ha2 & Hi2).
  apply state_ext; try congruence.
  - intros n. by rewrite Hnodes1, Hnodes2.
  - intros e. by rewrite Hedges1, Hedges2.
Qed.

(** X5: [clear] (and so the destructor) on a consistent graph returns: no
    edge destructor meets a node that is already gone.  Afterwards both
    vectors are empty, every node and edge the graph owned is destroyed, the
    objects it did not own are as they were, and nothing is logged.  The
    order in which the vectors destroy their elements makes no difference
    to the outcome. *)
Theorem clear_destroys_owned s :
  graph_ok s →
  ∃ s',
    clear s = Ok (tt, s') ∧
    (∀ es ns, es ≡ₚ m_edges s → ns ≡ₚ m_nodes s →
              clear_in es ns s = Ok (tt, s')) ∧
    m_nodes s' = [] ∧ m_edges s' = [] ∧
    (∀ n, nodes s' !! n = if decide (n ∈ m_nodes s) then None else nodes s !! n) ∧
    (∀ e, edges s' !! e = if decide (e ∈ m_edges s) then None else edges s !! e) ∧
    log s' = log s ∧ next_addr s' = next_addr s ∧ next_id s' = next_id s.
Proof. apply clear_ok. Qed.

Lemma clear_destroys_owned_witness :
  ∃ s',
    clear hierarchy_state = Ok (tt, s') ∧
    (∀ es ns, es ≡ₚ m_edges hierarchy_state → ns ≡ₚ m_nodes hierarchy_state →
              clear_in es ns hierarchy_state = Ok (tt, s')) ∧
    m_nodes s' = [] ∧ m_edges s' = [] ∧
    (∀ n, nodes s' !! n
          = if decide (n ∈ m_nodes hierarchy_state) then None
            else nodes hierarchy_state !! n) ∧
    (∀ e, edges s' !! e
          = if decide (e ∈ m_edges hierarchy_state) then None
            else edges hierarchy_state !! e) ∧
    log s' = log hierarchy_state ∧
    next_addr s' = next_addr hierarchy_state ∧
    next_id s' = next_id hierarchy_state.
Proof.
  apply (clear_destroys_owned hierarchy_state).
  apply (h_graph _ hierarchy_state_ok).
Defined.

(** ** Creation only adds *)

Lemma str_app_nil_r (a : string) : (a ++ "")%string = a.
Proof.
  induction a as [|c a IH]; [done|].
  change (String c (a ++ "")%string = String c a). by rewrite IH.
Qed.

Lemma str_app_assoc (a b c : string) :
  ((a ++ b) ++ c)%string = (a ++ (b ++ c))%string.
Proof.
  induction a as [|x a IH]; [done|].
  change (String x ((a ++ b) ++ c)%string = String x (a ++ (b ++ c))%string).
  by rewrite IH.
Qed.

Lemma str_length_app (a b : string) :
  String.length (a ++ b) = (String.length a + String.length b)%nat.
Proof.
  induction a as [|x a IH]; [done|].
  change (S (String.length (a ++ b)) = S (String.length a + String.length b)).
  by rewrite IH.
Qed.

Lemma node_grows_refl nd : node_grows nd nd.
Proof. by unfold node_grows. Qed.

Lemma node_grows_trans a b c :
  node_grows a b → node_grows b c → node_grows a c.
Proof.
  unfold node_grows. intros (? & ? & ? & ?) (? & ? & ? & ?).
  split_and!; try congruence. by etrans.
Qed.

Lemma grows_refl T s : grows T s s.
Proof.
  split; try done. intros n nd Hn. exists nd.
  split_and!; [done|apply node_grows_refl|done].
Qed.

Lemma grows_trans T a b c : grows T a b → grows T b c → grows T a c.
Proof.
  intros [? ? Hn1 He1 ?] [? ? Hn2 He2 ?]. split; try congruence.
  - by etrans.
  - by etrans.
  - intros n nd (nd' & Hnd' & H1 & Ht1)%Hn1.
    apply Hn2 in Hnd' as (nd'' & Hnd'' & H2 & Ht2). exists nd''.
    split_and!; [done|by eapply node_grows_trans|].
    intros Hn. rewrite Ht2, Ht1; done.
  - intros e E HE. by apply He2, He1.
Qed.

Lemma grows_weaken T s s' : grows [] s s' → grows T s s'.
Proof.
  intros [? ? Hn ? ?]. split; try done.
  intros n nd (nd' & ? & ? & Ht)%Hn. exists nd'. split_and!; try done.
  intros _. apply Ht. apply not_elem_of_nil.
Qed.

(** A member function that keeps id, name and signature and only pushes to
    the index. *)
Lemma update_node_grows T p f s s' :
  (∀ nd, node_grows nd (f nd)) →
  (p ∉ T → ∀ nd, node_type (f nd) = node_type nd) →
  update_node p f s = Ok (tt, s') →
  grows T s s' ∧ (alloc_fresh s → alloc_fresh s').
Proof.
  intros Hf Hty. unfold update_node.
  destruct (nodes s !! p) as [nd|] eqn:Hnd; [|done]. intros [= <-]. split.
  - split; simpl; try done.
    intros x ndx Hx. destruct (decide (x = p)) as [->|Hne].
    + rewrite lookup_insert_eq. exists (f nd).
      assert (ndx = nd) as -> by congruence.
      split_and!; [done|apply Hf|]. intros Hp. by apply Hty.
    + rewrite lookup_insert_ne by done. exists ndx.
      split_and!; [done|apply node_grows_refl|done].
  - intros Hfresh q Hq. simpl in *. split; [|by apply Hfresh].
    rewrite lookup_insert_ne; [by apply Hfresh|].
    intros <-. destruct (Hfresh p Hq) as [Hnone _]. congruence.
Qed.

Lemma Node_addEdge_grows e p s s' :
  Node_addEdge e p s = Ok (tt, s') →
  grows [] s s' ∧ (alloc_fresh s → alloc_fresh s').
Proof.
  apply update_node_grows.
  - intros nd. unfold node_grows. simpl. split_and!; try done.
    by apply prefix_app_r.
  - done.
Qed.

Lemma construct_Edge_grows id type from to s p s' :
  alloc_fresh s →
  construct_Edge id type from to s = Ok (p, s') →
  alloc_fresh s' ∧ grows [] s s' ∧ m_nodes s' = m_nodes s ∧
  m_edges s' = m_edges s.
Proof.
  intros Hfresh. unfold construct_Edge.
  intros (p0 & s0 & [= <- <-] & Hrest)%bind_inv.
  apply bind_inv in Hrest as ([] & s1 & [= <-] & Hrest).
  apply bind_inv in Hrest as ([] & s2 & H2 & Hrest).
  apply bind_inv in Hrest as ([] & s3 & H3 & [= <- <-]).
  pose proof (update_node_m_nodes _ _ _ _ H2) as Hn2.
  pose proof (update_node_m_nodes _ _ _ _ H3) as Hn3.
  assert (Hm2 : m_edges s2 = m_edges s).
  { unfold Node_addEdge, update_node in H2. simpl in H2.
    destruct (nodes s !! from); [|done]. by injection H2 as <-. }
  assert (Hm3 : m_edges s3 = m_edges s2).
  { unfold Node_addEdge, update_node in H3.
    destruct (nodes s2 !! to); [|done]. by injection H3 as <-. }
  apply Node_addEdge_grows in H2 as [Hg2 Hf2].
  apply Node_addEdge_grows in H3 as [Hg3 Hf3].
  set (s1 := set_edges _ _) in *.
  assert (Hf1 : alloc_fresh s1).
  { intros q Hq. simpl in *. split; [apply Hfresh; lia|].
    rewrite lookup_insert_ne by lia. apply Hfresh. lia. }
  assert (Hg1 : grows [] s s1).
  { split; simpl; try done.
    - intros n nd Hn. exists nd.
      split_and!; [done|apply node_grows_refl|done].
    - intros e E HE. rewrite lookup_insert_ne; [done|].
      intros <-. destruct (Hfresh (next_addr s)) as [_ Hnone]; [lia|]. congruence. }
  split_and!.
  - auto.
  - eapply grows_trans; [exact Hg1|]. by eapply grows_trans.
  - by rewrite Hn3, Hn2.
  - by rewrite Hm3, Hm2.
Qed.

Lemma createEdge_grows type from to s e s' :
  alloc_fresh s →
  createEdge type from to s = Ok (e, s') →
  alloc_fresh s' ∧ grows [] s s' ∧ m_nodes s' = m_nodes s.
Proof.
  intros Hfresh. unfold createEdge.
  intros (r & s0 & Hread & Hrest)%bind_inv.
  unfold read in Hread. destruct (getEdge type from to s) as [found| |]; [|done..].
  injection Hread as <- <-.
  destruct found as [e0|].
  { injection Hrest as <- <-. split_and!; [done|apply grows_refl|done]. }
  unfold insertEdge, new_Edge in Hrest.
  apply bind_inv in Hrest as (p & s1 & Hnew & Hrest).
  apply bind_inv in Hnew as (id & s0 & [= <- <-] & Hnew).
  apply construct_Edge_grows in Hnew as (Hf1 & Hg1 & Hn1 & Hm1).
  2:{ intros q Hq. apply Hfresh. exact Hq. }
  apply bind_inv in Hrest as ([] & s2 & [= <-] & [= <- <-]).
  split_and!.
  - intros q Hq. apply Hf1. exact Hq.
  - destruct Hg1 as [? ? Hh He ?]. split; simpl in *; try done.
    rewrite Hm1. by apply prefix_app_r.
  - done.
Qed.

Lemma new_Node_Ok type fullName s :
  new_Node type fullName s
  = Ok (next_addr s,
        mkState (m_nodes s) (m_edges s)
          (<[next_addr s := mkNode (next_id s) type fullName [] None]> (nodes s))
          (edges s) (next_addr s + 1) (next_id s + 1) (log s)).
Proof. reflexivity. Qed.

(** A new node, pushed and joined to its parent. *)
Lemma insertNode_grows type fullName parent s c s' :
  alloc_fresh s →
  insertNode type fullName parent s = Ok (c, s') →
  c = next_addr s ∧ alloc_fresh s' ∧ grows [] s s' ∧
  m_nodes s' = m_nodes s ++ [c] ∧ nodes s !! c = None ∧
  ∃ nd, nodes s' !! c = Some nd ∧ node_type nd = type ∧
        node_name nd = fullName ∧ node_signature nd = None.
Proof.
  intros Hfresh. unfold insertNode.
  intros (p & s0 & Hnew & Hrest)%bind_inv.
  rewrite new_Node_Ok in Hnew. injection Hnew as <- <-.
  apply bind_inv in Hrest as ([] & s1 & [= <-] & Hrest).
  set (p := next_addr s) in *.
  set (nd := mkNode (next_id s) type fullName [] None) in *.
  set (s1 := set_m_nodes _ _) in Hrest.
  destruct (Hfresh p) as [Hpn Hpe]; [unfold p; lia|].
  assert (Hf1 : alloc_fresh s1).
  { intros q Hq. simpl in *. split; [|apply Hfresh; lia].
    rewrite lookup_insert_ne by lia. apply Hfresh. lia. }
  assert (Hg1 : grows [] s s1).
  { split; simpl; try done.
    - by apply prefix_app_r.
    - intros n ndn Hn. exists ndn.
      split_and!; [|apply node_grows_refl|done].
      rewrite lookup_insert_ne; [done|]. intros <-. congruence. }
  assert (Hnd1 : nodes s1 !! p = Some nd) by (simpl; apply lookup_insert_eq).
  destruct parent as [par|].
  - apply bind_inv in Hrest as (e & s2 & Hedge & [= <- <-]).
    apply createEdge_grows in Hedge as (Hf2 & Hg2 & Hn2); [|done].
    destruct (gr_node_heap _ _ _ Hg2 p nd Hnd1) as (nd' & Hnd' & (Hid & Hname & Hsig & _) & Hty).
    split_and!; try done.
    + by eapply grows_trans.
    + exists nd'. split_and!; [done|apply Hty, not_elem_of_nil|done..].
  - injection Hrest as <- <-. split_and!; try done.
    by exists nd.
Qed.

(** ** Looking a name up after the graph has grown *)

Lemma find_if_nodes_kept_Some func (h h' : gmap N Node) l k p :
  (∀ n nd, n ∈ l → h !! n = Some nd →
     ∃ nd', h' !! n = Some nd' ∧ func nd' = func nd) →
  find_if_nodes func h l = Ok (Some p) →
  find_if_nodes func h' (l ++ k) = Ok (Some p).
Proof.
  induction l as [|x l IH]; intros Hh; simpl; [done|].
  destruct (h !! x) as [nd|] eqn:Hx; [|done].
  destruct (Hh x nd) as (nd' & -> & ->); [left|done|].
  destruct (func nd); [done|]. apply IH.
  intros n ndn Hn. apply Hh. by right.
Qed.

Lemma find_if_nodes_kept_None func (h h' : gmap N Node) l :
  (∀ n nd, n ∈ l → h !! n = Some nd →
     ∃ nd', h' !! n = Some nd' ∧ func nd' = func nd) →
  find_if_nodes func h l = Ok None →
  find_if_nodes func h' l = Ok None.
Proof.
  induction l as [|x l IH]; intros Hh; simpl; [done|].
  destruct (h !! x) as [nd|] eqn:Hx; [|done].
  destruct (Hh x nd) as (nd' & -> & ->); [left|done|].
  destruct (func nd); [done|]. apply IH.
  intros n ndn Hn. apply Hh. by right.
Qed.

Lemma grows_name_kept T s s' (nm : string) n nd :
  grows T s s' → nodes s !! n = Some nd →
  ∃ nd', nodes s' !! n = Some nd' ∧
         String.eqb (node_name nd') nm = String.eqb (node_name nd) nm.
Proof.
  intros Hg Hn.
  destruct (gr_node_heap _ _ _ Hg n nd Hn) as (nd' & Hnd' & (_ & Hname & _) & _).
  exists nd'. by rewrite Hname.
Qed.

Lemma getNode_grows_Some T s s' nm p :
  grows T s s' → getNode nm s = Ok (Some p) → getNode nm s' = Ok (Some p).
Proof.
  intros Hg. unfold getNode, findNode.
  destruct (gr_nodes _ _ _ Hg) as [k ->].
  apply find_if_nodes_kept_Some. intros n nd _. by eapply grows_name_kept.
Qed.

Lemma getNode_grows_pushed T s s' nm c nd :
  grows T s s' → getNode nm s = Ok None →
  m_nodes s' = m_nodes s ++ [c] → nodes s' !! c = Some nd →
  getNode nm s' = Ok (if String.eqb (node_name nd) nm then Some c else None).
Proof.
  intros Hg Hnone Hpush Hc. unfold getNode, findNode in *. rewrite Hpush.
  rewrite find_if_nodes_app.
  - simpl. rewrite Hc. by destruct (String.eqb _ _).
  - revert Hnone. apply find_if_nodes_kept_None.
    intros n ndn _. by eapply grows_name_kept.
Qed.

(** ** The name put together by the loop *)

Lemma final_name_length : ∀ rest nm,
  (String.length nm + 2 * length rest
   ≤ String.length (final_name rest false nm))%nat.
Proof.
  induction rest as [|seg rest IH]; intros nm; simpl; [lia|].
  specialize (IH ((nm ++ DELIMITER) ++ seg)%string).
  rewrite !str_length_app in IH. simpl in IH. lia.
Qed.

Lemma final_name_longer (seg : string) (rest : list string) (first : bool) name :
  rest ≠ [] →
  ((if first then name else name ++ DELIMITER) ++ seg)%string
  ≠ final_name (seg :: rest) first name.
Proof.
  intros Hrest Heq. simpl in Heq.
  pose proof (final_name_length rest
                ((if first then name else name ++ DELIMITER) ++ seg)%string) as H.
  rewrite <- Heq in H. destruct rest; [done|]. simpl in H. lia.
Qed.

Lemma split_go_join : ∀ n s, (String.length s ≤ n)%nat →
  ∀ acc first name,
    final_name (split_go DELIMITER 0 acc s) first name
    = ((if first then name else name ++ DELIMITER) ++ acc ++ s)%string.
Proof.
  induction n as [|n IH]; intros s Hlen acc first name.
  { destruct s; [|simpl in Hlen; lia]. simpl. by rewrite str_app_nil_r. }
  destruct s as [|c s]; [simpl; by rewrite str_app_nil_r|].
  simpl in Hlen. unfold split_go; fold split_go.
  destruct (String.prefix DELIMITER (String c s)) eqn:Hpre.
  - cbn [String.prefix DELIMITER] in Hpre.
    destruct (ascii_dec ":" c) as [<-|]; [|done].
    destruct s as [|c' s]; [done|]. cbn [String.prefix] in Hpre.
    destruct (ascii_dec ":" c') as [<-|]; [|done].
    cbn [split_go String.length DELIMITER Nat.sub final_name]. rewrite IH by (simpl in Hlen; lia).
    rewrite !str_app_assoc. reflexivity.
  - rewrite IH by lia. rewrite !str_app_assoc. reflexivity.
Qed.

Lemma final_name_split fullName :
  final_name (split fullName DELIMITER) true "" = fullName.
Proof.
  unfold split. by rewrite (split_go_join (String.length fullName)).
Qed.

(** ** [createNodeHierarchy] *)

(** The loop of [insertNodeHierarchy] when no node has the full name yet:
    the node it returns is new and is the only one that has the name. *)
Lemma insertNodeHierarchy_loop_new type : ∀ rest seg first name node s r s',
  alloc_fresh s →
  getNode (final_name (seg :: rest) first name) s = Ok None →
  insertNodeHierarchy_loop type (seg :: rest) first name node s = Ok (r, s') →
  ∃ n nd, r = Some n ∧ alloc_fresh s' ∧ grows [] s s' ∧
    getNode (final_name (seg :: rest) first name) s' = Ok (Some n) ∧
    nodes s !! n = None ∧ nodes s' !! n = Some nd ∧ node_type nd = type ∧
    node_name nd = final_name (seg :: rest) first name ∧
    node_signature nd = None.
Proof.
  induction rest as [|seg' rest IH]; intros seg first name node s r s' Hfresh Hnone.
  - cbn [insertNodeHierarchy_loop final_name] in *.
    set (nm := ((if first then name else name ++ DELIMITER) ++ seg)%string) in *.
    intros (found & s0 & Hread & Hrest)%bind_inv.
    unfold read in Hread. rewrite Hnone in Hread. injection Hread as <- <-.
    apply bind_inv in Hrest as (c & s1 & Hins & [= <- <-]).
    destruct (insertNode_grows _ _ _ _ _ _ Hfresh Hins)
      as (_ & Hf1 & Hg1 & Hpush & Hnew & nd & Hnd & Hty & Hname & Hsig).
    exists c, nd. split_and!; try done.
    rewrite (getNode_grows_pushed [] s s1 nm c nd Hg1 Hnone Hpush Hnd).
    by rewrite Hname, String.eqb_refl.
  - pose proof (final_name_longer seg (seg' :: rest) first name) as Hlonger.
    cbn [insertNodeHierarchy_loop] in *.
    change (final_name (seg :: seg' :: rest) first name)
      with (final_name (seg' :: rest) false
              ((if first then name else name ++ DELIMITER) ++ seg)%string) in *.
    set (nm := ((if first then name else name ++ DELIMITER) ++ seg)%string) in *.
    set (target := final_name (seg' :: rest) false nm) in *.
    intros (found & s0 & Hread & Hrest)%bind_inv.
    unfold read in Hread.
    destruct (getNode nm s) as [found0| |]; [|done..]. injection Hread as <- <-.
    apply bind_inv in Hrest as (c & s1 & Hchild & Hloop).
    assert (Hstep : alloc_fresh s1 ∧ grows [] s s1 ∧ getNode target s1 = Ok None).
    { destruct found0 as [c0|].
      - injection Hchild as <- <-. split_and!; [done|apply grows_refl|done].
      - destruct (insertNode_grows _ _ _ _ _ _ Hfresh Hchild)
          as (_ & Hf1 & Hg1 & Hpush & Hnew & nd & Hnd & Hty & Hname & Hsig).
        split_and!; try done.
        rewrite (getNode_grows_pushed [] s s1 target c nd Hg1 Hnone Hpush Hnd).
        destruct (String.eqb_spec (node_name nd) target) as [Heq|]; [|done].
        exfalso. apply Hlonger; [done|]. by rewrite <- Hname. }
    destruct Hstep as (Hf1 & Hg1 & Hnone1).
    destruct (IH seg' false nm (Some c) s1 r s' Hf1 Hnone1 Hloop)
      as (n & nd & -> & Hf' & Hg' & Hget & Hnew & Hnd & Hty & Hname & Hsig).
    exists n, nd. split_and!; try done.
    + by eapply grows_trans.
    + destruct (nodes s !! n) as [x|] eqn:Hx; [|done].
      destruct (gr_node_heap _ _ _ Hg1 n x Hx) as (x' & Hx' & _). congruence.
Qed.

Lemma Node_setType_same type n nd s :
  nodes s !! n = Some nd → node_type nd = type →
  Node_setType type n s = Ok (tt, s).
Proof.
  intros Hnd Hty. unfold Node_setType, update_node. rewrite Hnd.
  destruct nd as [id ty nm idx sig]. simpl in *. subst ty.
  rewrite insert_id by done. by destruct s.
Qed.

(** What a call of [createNodeHierarchy] that returns has done. *)
Lemma createNodeHierarchy_inv s type fullName r s' :
  alloc_fresh s →
  createNodeHierarchy type fullName s = Ok (r, s') →
  ∃ n nd, r = Some n ∧ alloc_fresh s' ∧ grows [n] s s' ∧
    getNode fullName s' = Ok (Some n) ∧
    nodes s' !! n = Some nd ∧ node_name nd = fullName ∧
    (type ≠ NODE_UNDEFINED → node_type nd = type) ∧
    (getNode fullName s = Ok None →
       grows [] s s' ∧ nodes s !! n = None ∧ node_type nd = type ∧
       node_signature nd = None) ∧
    (∀ n0, getNode fullName s = Ok (Some n0) →
       n0 = n ∧ m_nodes s' = m_nodes s ∧ m_edges s' = m_edges s ∧
       edges s' = edges s).
Proof.
  intros Hfresh. unfold createNodeHierarchy.
  intros (found & s0 & Hread & Hrest)%bind_inv.
  unfold read in Hread.
  destruct (getNode fullName s) as [found0| |] eqn:Hget; [|done..].
  injection Hread as <- <-.
  destruct found0 as [n|].
  - apply bind_inv in Hrest as ([] & s1 & Hset & [= <- <-]).
    pose proof (find_if_nodes_Some _ _ _ _ Hget) as (Hin & nd & Hnd & Hname).
    apply String.eqb_eq in Hname.
    destruct (NodeType_eqb type NODE_UNDEFINED) eqn:Hty.
    + injection Hset as <-. exists n, nd.
      split_and!; try done; [apply grows_refl| |by intros n0 [= <-]].
      intros Hne. by apply NodeType_eqb_eq in Hty.
    + pose proof Hset as Hset'.
      unfold Node_setType, update_node in Hset'. rewrite Hnd in Hset'.
      injection Hset' as <-.
      apply update_node_grows with (T := [n]) in Hset as [Hg Hf].
      * exists n, (mkNode (node_id nd) type (node_name nd) (node_edges nd)
                          (node_signature nd)).
        split_and!; try done.
        -- by apply Hf.
        -- by eapply getNode_grows_Some.
        -- simpl. apply lookup_insert_eq.
        -- by intros n0 [= <-].
      * intros x. unfold node_grows. by simpl.
      * intros Hn. exfalso. apply Hn. by apply list_elem_of_singleton.
  - unfold insertNodeHierarchy in Hrest.
    pose proof (final_name_split fullName) as Hfinal.
    pose proof (split_go_nonempty DELIMITER fullName 0 "") as Hne.
    unfold split in *.
    destruct (split_go DELIMITER 0 "" fullName) as [|seg rest]; [done|].
    rewrite <- Hfinal in Hget.
    destruct (insertNodeHierarchy_loop_new _ _ _ _ _ _ _ _ _ Hfresh Hget Hrest)
      as (n & nd & -> & Hf' & Hg' & Hget' & Hnew & Hnd & Hty & Hname & Hsig).
    rewrite Hfinal in *.
    exists n, nd. split_and!; try done.
    by apply grows_weaken.
Qed.

(** X6: from a graph whose allocator is sound, a call of
    [createNodeHierarchy] that returns gives a node and has only added:
    [m_nodes] and [m_edges] are extended at the end, every object that was
    alive is alive with the id, name and signature or the type and end
    points it had, the indexes of the nodes are extended at the end, only
    the node returned can have a new type, and nothing is logged. *)
Theorem createNodeHierarchy_only_adds s type fullName r s' :
  alloc_fresh s →
  createNodeHierarchy type fullName s = Ok (r, s') →
  ∃ n, r = Some n ∧ alloc_fresh s' ∧ grows [n] s s'.
Proof.
  intros Hfresh Hrun.
  destruct (createNodeHierarchy_inv _ _ _ _ _ Hfresh Hrun)
    as (n & nd & -> & Hf' & Hg & _).
  by exists n.
Qed.

Lemma createNodeHierarchy_only_adds_witness :
  ∃ r s',
    createNodeHierarchy (NODE_DEFINED 3) "a::x::y" hierarchy_state = Ok (r, s') ∧
    ∃ n, r = Some n ∧ alloc_fresh s' ∧ grows [n] hierarchy_state s'.
Proof.
  eexists _, _. split; [vm_compute; reflexivity|].
  apply (createNodeHierarchy_only_adds hierarchy_state (NODE_DEFINED 3) "a::x::y").
  - apply (built_is_ok _ hierarchy_state_is_built).
  - vm_compute. reflexivity.
Defined.



(** X8: [createNodeHierarchy] is idempotent: the same call repeated straight
    after a call that returned gives the same node and leaves the graph
    exactly as the first call left it. *)
Theorem createNodeHierarchy_idempotent s type fullName r s' :
  alloc_fresh s →
  createNodeHierarchy type fullName s = Ok (r, s') →
  createNodeHierarchy type fullName s' = Ok (r, s').
Proof.
  intros Hfresh Hrun.
  destruct (createNodeHierarchy_inv _ _ _ _ _ Hfresh Hrun)
    as (n & nd & -> & _ & _ & Hget & Hnd & _ & Hty & _).
  unfold createNodeHierarchy.
  rewrite (bind_Ok _ _ s' (Some n) s') by (by apply read_Ok).
  destruct (NodeType_eqb type NODE_UNDEFINED) eqn:Hu; [done|].
  unfold bind at 1. rewrite (Node_setType_same type n nd); [done..|].
  apply Hty. intros ->. by rewrite (proj2 (NodeType_eqb_eq _ _) eq_refl) in Hu.
Qed.

Lemma createNodeHierarchy_idempotent_witness :
  ∃ r s',
    createNodeHierarchy (NODE_DEFINED 3) "a::b" hierarchy_state = Ok (r, s') ∧
    createNodeHierarchy (NODE_DEFINED 3) "a::b" s' = Ok (r, s').
Proof.
  eexists _, _. split; [vm_compute; reflexivity|].
  apply (createNodeHierarchy_idempotent hierarchy_state (NODE_DEFINED 3) "a::b").
  - apply (built_is_ok _ hierarchy_state_is_built).
  - vm_compute. reflexivity.
Defined.

(** ** [createNodeHierarchyWithDistinctSignature] *)

(** Attaching the signature to a node that was not there before. *)
Lemma attach_new_grows T s s1 sig c nd s' :
  grows T s s1 → alloc_fresh s1 →
  nodes s !! c = None → nodes s1 !! c = Some nd →
  Node_addComponentSignature sig c s1 = Ok (tt, s') →
  grows T s s' ∧ alloc_fresh s' ∧ m_nodes s' = m_nodes s1 ∧
  nodes s' !! c
  = Some (mkNode (node_id nd) (node_type nd) (node_name nd) (node_edges nd)
                 (Some sig)).
Proof.
  intros Hg Hf Hnew Hnd. unfold Node_addComponentSignature, update_node.
  rewrite Hnd. intros [= <-]. split_and!; simpl.
  - destruct Hg as [? ? Hh ? ?]. split; simpl; try done.
    intros n ndn Hn. rewrite lookup_insert_ne by congruence. by apply Hh.
  - intros q Hq. simpl in *. split; [|by apply Hf].
    rewrite lookup_insert_ne; [by apply Hf|].
    intros <-. destruct (Hf c Hq) as [Hnone _]. congruence.
  - done.
  - apply lookup_insert_eq.
Qed.

(** X9: from a graph whose allocator is sound, a call of
    [createNodeHierarchyWithDistinctSignature] that returns gives an owned
    node that has the full name and carries the signature asked for, and it
    has only added: vectors and indexes are extended at the end, what was
    alive keeps its id, name, signature and end points, and only the node
    returned can have a new type. *)
Theorem distinct_signature_result s type fullName signature r s' :
  alloc_fresh s →
  createNodeHierarchyWithDistinctSignature type fullName signature s
    = Ok (r, s') →
  ∃ n nd, r = Some n ∧ n ∈ m_nodes s' ∧ nodes s' !! n = Some nd ∧
    node_name nd = fullName ∧ node_signature nd = Some signature ∧
    alloc_fresh s' ∧ grows [n] s s'.
Proof.
  intros Hfresh. unfold createNodeHierarchyWithDistinctSignature.
  intros (found & s0 & Hread & Hrest)%bind_inv.
  unfold read in Hread.
  destruct (getNode fullName s) as [found0| |] eqn:Hget; [|done..].
  injection Hread as <- <-.
  destruct found0 as [n0|].
  - pose proof (find_if_nodes_Some _ _ _ _ Hget) as (Hin & nd0 & Hnd0 & Hname).
    apply String.eqb_eq in Hname.
    apply bind_inv in Hrest as (sig & s0 & Hread & Hrest).
    unfold read, Node_getSignature, deref_node in Hread.
    rewrite Hnd0 in Hread. simpl in Hread.
    destruct (node_signature nd0) as [sig0|] eqn:Hsig0; [|done].
    injection Hread as <- <-.
    destruct (String.eqb_spec sig0 signature) as [->|Hdiff].
    + apply bind_inv in Hrest as ([] & s1 & Hset & [= <- <-]).
      destruct (NodeType_eqb type NODE_UNDEFINED).
      * injection Hset as <-. exists n0, nd0.
        split_and!; try done. apply grows_refl.
      * pose proof Hset as Hset'.
        unfold Node_setType, update_node in Hset'. rewrite Hnd0 in Hset'.
        injection Hset' as <-.
        apply update_node_grows with (T := [n0]) in Hset as [Hg Hf].
        -- exists n0, (mkNode (node_id nd0) type (node_name nd0) (node_edges nd0)
                         (node_signature nd0)).
           split_and!; try done; [simpl; apply lookup_insert_eq|by apply Hf].
        -- intros x. unfold node_grows. by simpl.
        -- intros Hn. exfalso. apply Hn. by apply list_elem_of_singleton.
    + apply bind_inv in Hrest as (parent & s0 & Hread & Hrest).
      unfold read in Hread.
      destruct (Node_getParentNode n0 s) as [parent0| |]; [|done..].
      injection Hread as <- <-.
      apply bind_inv in Hrest as (c & s1 & Hins & Hrest).
      destruct (insertNode_grows _ _ _ _ _ _ Hfresh Hins)
        as (_ & Hf1 & Hg1 & Hpush & Hnew & nd & Hnd & Hty & Hnm & Hsig).
      apply bind_inv in Hrest as ([] & s2 & Hatt & [= <- <-]).
      destruct (attach_new_grows [] _ _ _ _ _ _ Hg1 Hf1 Hnew Hnd Hatt)
        as (Hg2 & Hf2 & Hn2 & Hnd2).
      eexists c, _. split_and!; [done| |exact Hnd2|done|done|done|by apply grows_weaken].
      rewrite Hn2, Hpush. apply elem_of_app. right. by apply list_elem_of_singleton.
  - apply bind_inv in Hrest as (r0 & s1 & Hhier & Hrest).
    unfold insertNodeHierarchy in Hhier.
    pose proof (final_name_split fullName) as Hfinal.
    pose proof (split_go_nonempty DELIMITER fullName 0 "") as Hne.
    unfold split in *.
    destruct (split_go DELIMITER 0 "" fullName) as [|seg rest]; [done|].
    rewrite <- Hfinal in Hget.
    destruct (insertNodeHierarchy_loop_new _ _ _ _ _ _ _ _ _ Hfresh Hget Hhier)
      as (n & nd & -> & Hf1 & Hg1 & Hget1 & Hnew & Hnd & Hty & Hnm & Hsig).
    rewrite Hfinal in *.
    apply bind_inv in Hrest as ([] & s2 & Hatt & [= <- <-]).
    destruct (attach_new_grows [] _ _ _ _ _ _ Hg1 Hf1 Hnew Hnd Hatt)
      as (Hg2 & Hf2 & Hn2 & Hnd2).
    eexists n, _. split_and!; [done| |exact Hnd2|done|done|done|by apply grows_weaken].
    rewrite Hn2. by apply find_if_nodes_Some in Hget1 as [Hin _].
Qed.

Lemma distinct_signature_result_witness :
  ∃ r s',
    createNodeHierarchyWithDistinctSignature (NODE_DEFINED 1) "f" "sigB"
      mixed_f_state = Ok (r, s') ∧
    ∃ n nd, r = Some n ∧ n ∈ m_nodes s' ∧ nodes s' !! n = Some nd ∧
      node_name nd = "f" ∧ node_signature nd = Some "sigB" ∧
      alloc_fresh s' ∧ grows [n] mixed_f_state s'.
Proof.
  eexists _, _. split; [vm_compute; reflexivity|].
  apply (distinct_signature_result mixed_f_state (NODE_DEFINED 1) "f" "sigB").
  - intros p Hp. simpl in Hp. split.
    + simpl. rewrite !lookup_insert_ne by lia. apply lookup_singleton_ne. lia.
    + apply lookup_empty.
  - vm_compute. reflexivity.
Defined.

(** ** Plain copies keep the graph consistent *)

Lemma addNodeAsPlainCopy_ok s node src :
  graph_ok s → alloc_fresh s → nodes s !! node = Some src →
  ∃ n s1 nd,
    addNodeAsPlainCopy node s = Ok (n, s1) ∧
    graph_ok s1 ∧ alloc_fresh s1 ∧
    n ∈ m_nodes s1 ∧ nodes s1 !! n = Some nd ∧ node_id nd = node_id src ∧
    m_edges s1 = m_edges s ∧ edges s1 = edges s ∧ nodes s ⊆ nodes s1 ∧
    log s1 = log s ∧
    (n ∈ m_nodes s ∧ s1 = s ∨
     (n ∉ m_nodes s) ∧ nodes s !! n = None ∧ m_nodes s1 = m_nodes s ++ [n] ∧
     nd = mkNode (node_id src) (node_type src) (node_name src) []
                 (node_signature src)).
Proof.
  intros Hok Hfresh Hsrc.
  pose proof (graph_ok_live s Hok) as Hlive. pose proof Hlive as [Hn He].
  destruct (find_if_nodes_total (fun n => N.eqb (getId n) (node_id src))
              (nodes s) (m_nodes s) Hn) as [r Hr].
  unfold addNodeAsPlainCopy.
  rewrite (bind_Ok _ _ s src s) by (unfold read, deref_node; by rewrite Hsrc).
  rewrite (bind_Ok _ _ s r s) by by apply read_Ok.
  destruct r as [n0|].
  - apply find_if_nodes_Some in Hr as (Hin & nd & Hnd & Hid).
    apply N.eqb_eq in Hid.
    exists n0, s, nd. split_and!; try done. by left.
  - set (p := next_addr s).
    set (copy := mkNode (node_id src) (node_type src) (node_name src) []
                        (node_signature src)).
    pose proof (alloc_fresh_node s Hfresh) as Hpn.
    pose proof (owned_not_fresh_node s Hlive Hfresh) as Hpm.
    exists p,
      (mkState (m_nodes s ++ [p]) (m_edges s) (<[p := copy]> (nodes s)) (edges s)
               (p + 1) (next_id s) (log s)),
      copy.
    split; [reflexivity|]. split_and!; simpl; try done.
    + split; simpl.
      * apply NoDup_app. split_and!; [apply (ok_nodes_nodup s Hok)| |apply NoDup_singleton].
        intros x Hx ->%list_elem_of_singleton. done.
      * apply (ok_edges_nodup s Hok).
      * intros e Hin. destruct (ok_edges s Hok e Hin) as (E & HE & Hf & Ht).
        exists E. split_and!; [done|apply elem_of_app; by left..].
      * intros x [Hx| ->%list_elem_of_singleton]%elem_of_app.
        -- destruct (ok_index s Hok x Hx) as (nd & Hnd & Hcount).
           exists nd. split; [rewrite lookup_insert_ne; [done|by intros <-]|].
           intros e. rewrite Hcount. symmetry. by apply owned_incidence_ext.
        -- exists copy. split; [apply lookup_insert_eq|]. intros e. simpl.
           rewrite <- (owned_incidence_untouched s p e Hok Hpm).
           symmetry. by apply owned_incidence_ext.
    + intros q Hq. simpl in *. split.
      * rewrite lookup_insert_ne by (fold p; lia). apply Hfresh. fold p. lia.
      * apply Hfresh. fold p. lia.
    + apply elem_of_app. right. by apply list_elem_of_singleton.
    + apply lookup_insert_eq.
    + by apply insert_subseteq.
    + right. done.
Qed.

(** X10: [addNodeAsPlainCopy] of a live node into a consistent graph with a
    sound allocator returns an owned node with the id of the source and
    keeps the graph consistent; the edges and the log are untouched and
    every object that was alive is as it was.  Either an owned node had the
    id, and then nothing changes, or the result is new, the last entry of
    [m_nodes], with the id, type, name and signature of the source and an
    empty index: the copy is shallow. *)
Theorem addNodeAsPlainCopy_consistent s node src :
  graph_ok s → alloc_fresh s → nodes s !! node = Some src →
  ∃ n s1 nd,
    addNodeAsPlainCopy node s = Ok (n, s1) ∧
    graph_ok s1 ∧ alloc_fresh s1 ∧
    n ∈ m_nodes s1 ∧ nodes s1 !! n = Some nd ∧ node_id nd = node_id src ∧
    m_edges s1 = m_edges s ∧ edges s1 = edges s ∧ nodes s ⊆ nodes s1 ∧
    log s1 = log s ∧
    (n ∈ m_nodes s ∧ s1 = s ∨
     (n ∉ m_nodes s) ∧ nodes s !! n = None ∧ m_nodes s1 = m_nodes s ++ [n] ∧
     nd = mkNode (node_id src) (node_type src) (node_name src) []
                 (node_signature src)).
Proof. apply addNodeAsPlainCopy_ok. Qed.

Lemma merge_state_ok : graph_ok merge_state.
Proof.
  split; simpl.
  - by_decide.
  - apply NoDup_nil_2.
  - intros e He. by apply elem_of_nil in He.
  - intros n Hn. list_cases Hn; eexists; (split; [reflexivity|]); intros e;
      unfold owned_incidence;
      (destruct (decide (e ∈ m_edges merge_state)) as [H|];
       [by apply elem_of_nil in H|done]).
Qed.

Lemma merge_state_fresh : alloc_fresh merge_state.
Proof.
  intros p Hp. simpl in Hp. split; simpl.
  - rewrite !lookup_insert_ne by lia. apply lookup_singleton_ne. lia.
  - apply lookup_singleton_ne. lia.
Qed.

Lemma addNodeAsPlainCopy_consistent_witness :
  ∃ n s1 nd,
    addNodeAsPlainCopy 12 merge_state = Ok (n, s1) ∧
    graph_ok s1 ∧ alloc_fresh s1 ∧
    n ∈ m_nodes s1 ∧ nodes s1 !! n = Some nd ∧ node_id nd = 12 ∧
    m_edges s1 = m_edges merge_state ∧ edges s1 = edges merge_state ∧
    nodes merge_state ⊆ nodes s1 ∧ log s1 = log merge_state ∧
    (n ∈ m_nodes merge_state ∧ s1 = merge_state ∨
     (n ∉ m_nodes merge_state) ∧ nodes merge_state !! n = None ∧
     m_nodes s1 = m_nodes merge_state ++ [n] ∧
     nd = mkNode 12 NODE_UNDEFINED "y" [] None).
Proof.
  apply (addNodeAsPlainCopy_consistent merge_state 12
           (mkNode 12 NODE_UNDEFINED "y" [13] None)
           merge_state_ok merge_state_fresh).
  reflexivity.
Defined.

(** An edge constructed between two owned nodes and pushed to [m_edges]. *)
Lemma construct_push_ok s id type from to :
  graph_ok s → alloc_fresh s →
  from ∈ m_nodes s → to ∈ m_nodes s →
  ∃ s1,
    construct_Edge id type from to s = Ok (next_addr s, s1) ∧
    graph_ok (set_m_edges (m_edges s1 ++ [next_addr s]) s1) ∧
    alloc_fresh s1 ∧
    m_nodes s1 = m_nodes s ∧ m_edges s1 = m_edges s ∧
    edges s1 = <[next_addr s := mkEdge id type from to]> (edges s) ∧
    (next_addr s ∉ m_edges s) ∧ log s1 = log s ∧
    (∀ x nd, nodes s !! x = Some nd →
       ∃ nd', nodes s1 !! x = Some nd' ∧ node_id nd' = node_id nd).
Proof.
  intros Hok Hfresh Hfrom Hto.
  pose proof (graph_ok_live s Hok) as Hlive.
  pose proof (owned_not_fresh_edge s Hlive Hfresh) as Hp.
  pose proof (alloc_fresh_edge s Hfresh) as Hpe.
  set (p := next_addr s) in *.
  set (E := mkEdge id type from to).
  rewrite construct_Edge_Ok by (by apply Hlive).
  eexists. split; [reflexivity|].
  fold p. simpl. split_and!; try done.
  - split; simpl.
    + apply (ok_nodes_nodup s Hok).
    + apply NoDup_app. split_and!; [apply (ok_edges_nodup s Hok)| |apply NoDup_singleton].
      intros x Hx ->%list_elem_of_singleton. done.
    + intros e [He| ->%list_elem_of_singleton]%elem_of_app.
      * rewrite lookup_insert_ne by (by intros <-). by apply (ok_edges s Hok).
      * rewrite lookup_insert_eq. by exists E.
    + intros n Hn. destruct (ok_index s Hok n Hn) as (nd & Hnd & Hcount).
      destruct (lookup_registered_count (nodes s) from to p n nd Hnd)
        as (nd' & Hnd' & Hc').
      exists nd'. split; [done|]. intros x. rewrite Hc', Hcount.
      destruct (decide (x = p)) as [->|Hne].
      * rewrite (owned_incidence_absent s n p Hp).
        unfold owned_incidence. simpl.
        rewrite decide_True by (apply elem_of_app; right; by apply list_elem_of_singleton).
        by rewrite lookup_insert_eq.
      * rewrite Nat.add_0_r. symmetry. apply owned_incidence_ext; simpl.
        -- rewrite elem_of_app, list_elem_of_singleton. tauto.
        -- intros _. by rewrite lookup_insert_ne.
  - intros q Hq. simpl in *. split.
    + rewrite !lookup_alter_None. apply Hfresh. fold p. lia.
    + rewrite lookup_insert_ne by lia. apply Hfresh. fold p. lia.
  - intros x nd Hx.
    destruct (lookup_registered (nodes s) from to p x nd Hx)
      as (nd' & Hnd' & Hid & _).
    by exists nd'.
Qed.

(** X11: [addEdgeAsPlainCopy] of a live edge with live end points into a
    consistent graph with a sound allocator returns an owned edge with the
    id of the source and keeps the graph consistent, so the edge joins owned
    nodes and is listed in their indexes; nothing is logged.  Either an
    owned edge had the id, and then nothing changes, or the result is new,
    the last entry of [m_edges], with the type of the source, and its end
    points are owned nodes with the ids of the end points of the source. *)
Theorem addEdgeAsPlainCopy_consistent s edge src :
  graph_ok s → alloc_fresh s →
  edges s !! edge = Some src →
  is_Some (nodes s !! edge_from src) → is_Some (nodes s !! edge_to src) →
  ∃ e s1 E,
    addEdgeAsPlainCopy edge s = Ok (e, s1) ∧
    graph_ok s1 ∧ alloc_fresh s1 ∧
    e ∈ m_edges s1 ∧ edges s1 !! e = Some E ∧ edge_id E = edge_id src ∧
    log s1 = log s ∧
    (e ∈ m_edges s ∧ s1 = s ∨
     (e ∉ m_edges s) ∧ m_edges s1 = m_edges s ++ [e] ∧
     edge_type E = edge_type src ∧
     ∃ ndf ndt srcf srct,
       nodes s1 !! edge_from E = Some ndf ∧ nodes s1 !! edge_to E = Some ndt ∧
       nodes s !! edge_from src = Some srcf ∧
       nodes s !! edge_to src = Some srct ∧
       node_id ndf = node_id srcf ∧ node_id ndt = node_id srct).
Proof.
  intros Hok Hfresh Hsrc [srcf Hsrcf] [srct Hsrct].
  pose proof (graph_ok_live s Hok) as Hlive. pose proof Hlive as [Hn He].
  destruct (find_if_edges_total (fun e => N.eqb (getId e) (edge_id src))
              (edges s) (m_edges s) He) as [r Hr].
  unfold addEdgeAsPlainCopy.
  rewrite (bind_Ok _ _ s src s) by (unfold read, deref_edge; by rewrite Hsrc).
  rewrite (bind_Ok _ _ s r s) by by apply read_Ok.
  destruct r as [e0|].
  { apply find_if_edges_Some in Hr as (Hin & E & HE & Hid).
    apply N.eqb_eq in Hid.
    exists e0, s, E. split_and!; try done. by left. }
  destruct (addNodeAsPlainCopy_ok s _ srcf Hok Hfresh Hsrcf)
    as (from & sa & ndf & Hrunf & Hoka & Hfa & Hfrom & Hndf & Hidf & Hma & Hea
        & Hsuba & Hloga & _).
  assert (Hsrct' : nodes sa !! edge_to src = Some srct)
    by (by eapply lookup_weaken).
  destruct (addNodeAsPlainCopy_ok sa _ srct Hoka Hfa Hsrct')
    as (to & sb & ndt & Hrunt & Hokb & Hfb & Hto & Hndt & Hidt & Hmb & Heb
        & Hsubb & Hlogb & Hcase).
  assert (Hfromb : from ∈ m_nodes sb).
  { destruct Hcase as [[_ ->]|(_ & _ & -> & _)]; [done|].
    apply elem_of_app. by left. }
  destruct (construct_push_ok sb (edge_id src) (edge_type src) from to
              Hokb Hfb Hfromb Hto)
    as (s1 & Hcons & Hok1 & Hf1 & Hn1 & Hm1 & He1 & Hp1 & Hlog1 & Hids).
  rewrite (bind_Ok _ _ s from sa) by done.
  rewrite (bind_Ok _ _ sa to sb) by done.
  unfold copy_Edge. rewrite (bind_Ok _ _ sb (next_addr sb) s1) by done.
  unfold bind, modify, ret.
  eexists _, _, (mkEdge (edge_id src) (edge_type src) from to).
  split; [reflexivity|].
  assert (Hin1 : next_addr sb ∈ m_edges s1 ++ [next_addr sb])
    by (apply elem_of_app; right; by apply list_elem_of_singleton).
  assert (Hndfb : nodes sb !! from = Some ndf) by (by eapply lookup_weaken).
  destruct (Hids from ndf Hndfb) as (ndf1 & Hndf1 & Hidf1).
  destruct (Hids to ndt Hndt) as (ndt1 & Hndt1 & Hidt1).
  split_and!; simpl; try done.
  - rewrite He1. apply lookup_insert_eq.
  - congruence.
  - right. rewrite Hm1, Hmb, Hma in *. split_and!; try done.
    exists ndf1, ndt1, srcf, srct. split_and!; try done; congruence.
Qed.

Lemma addEdgeAsPlainCopy_consistent_witness :
  ∃ e s1 E,
    addEdgeAsPlainCopy 13 merge_state = Ok (e, s1) ∧
    graph_ok s1 ∧ alloc_fresh s1 ∧
    e ∈ m_edges s1 ∧ edges s1 !! e = Some E ∧ edge_id E = 13 ∧
    log s1 = log merge_state ∧
    (e ∈ m_edges merge_state ∧ s1 = merge_state ∨
     (e ∉ m_edges merge_state) ∧ m_edges s1 = m_edges merge_state ++ [e] ∧
     edge_type E = EDGE_OTHER 0 ∧
     ∃ ndf ndt srcf srct,
       nodes s1 !! edge_from E = Some ndf ∧ nodes s1 !! edge_to E = Some ndt ∧
       nodes merge_state !! 11 = Some srcf ∧
       nodes merge_state !! 12 = Some srct ∧
       node_id ndf = node_id srcf ∧ node_id ndt = node_id srct).
Proof.
  apply (addEdgeAsPlainCopy_consistent merge_state 13
           (mkEdge 13 (EDGE_OTHER 0) 11 12) merge_state_ok merge_state_fresh).
  - reflexivity.
  - by eexists.
  - by eexists.
Defined.

(** ** [createEdge] keeps the graph consistent *)

(** X12: [createEdge] between owned nodes of a consistent graph without
    duplicate triples returns an owned edge of the type asked for that ends
    in [to], and for [from ≠ to] starts in [from]; the graph stays
    consistent and without duplicate triples, [m_nodes] and the log are
    untouched, and either nothing changes or exactly one edge is added, and
    that only when no owned edge had the triple. *)
Theorem createEdge_keeps_consistent s type from to :
  graph_ok s → alloc_fresh s → unique_triples s →
  from ∈ m_nodes s → to ∈ m_nodes s →
  ∃ e s' E,
    createEdge type from to s = Ok (e, s') ∧
    graph_ok s' ∧ alloc_fresh s' ∧ unique_triples s' ∧
    m_nodes s' = m_nodes s ∧ log s' = log s ∧
    e ∈ m_edges s' ∧ edges s' !! e = Some E ∧
    edge_type E = type ∧ edge_to E = to ∧
    (from ≠ to → edge_from E = from) ∧
    (s' = s ∨
     m_edges s' = m_edges s ++ [e] ∧
     E = mkEdge (next_id s) type from to ∧
     ∀ e0 E0, e0 ∈ m_edges s → edges s !! e0 = Some E0 →
              ¬ (edge_type E0 = type ∧ edge_from E0 = from ∧ edge_to E0 = to)).
Proof.
  intros Hok Hfresh Huniq Hfrom Hto.
  destruct (createEdge_ok s type from to Hok Hfresh Huniq Hfrom Hto)
    as (e & s' & E & Hrun & Hok' & Hfresh' & Huniq' & Hnodes & Hlog & He & HE
        & Hty & Hto' & Hfrom' & Hcases).
  exists e, s', E. split_and!; try done.
  destruct Hcases as [[-> _]|(_ & Hedges & HEeq & _ & Hnone)]; [by left|by right].
Qed.

Lemma createEdge_keeps_consistent_witness :
  ∃ e s' E,
    createEdge (EDGE_OTHER 0) 2 1 call_edge_state = Ok (e, s') ∧
    graph_ok s' ∧ alloc_fresh s' ∧ unique_triples s' ∧
    m_nodes s' = m_nodes call_edge_state ∧ log s' = log call_edge_state ∧
    e ∈ m_edges s' ∧ edges s' !! e = Some E ∧
    edge_type E = EDGE_OTHER 0 ∧ edge_to E = 1 ∧
    (2 ≠ 1 → edge_from E = 2) ∧
    (s' = call_edge_state ∨
     m_edges s' = m_edges call_edge_state ++ [e] ∧
     E = mkEdge (next_id call_edge_state) (EDGE_OTHER 0) 2 1 ∧
     ∀ e0 E0, e0 ∈ m_edges call_edge_state →
              edges call_edge_state !! e0 = Some E0 →
              ¬ (edge_type E0 = EDGE_OTHER 0 ∧ edge_from E0 = 2 ∧ edge_to E0 = 1)).
Proof.
  destruct (built_is_ok _ call_edge_state_built) as (Hh & Hfresh & Huniq).
  apply (createEdge_keeps_consistent call_edge_state (EDGE_OTHER 0) 2 1
           (h_graph _ Hh) Hfresh Huniq); by_decide.
Defined.

(** ** Removing a node that was just inserted *)

Lemma find_pos_pushed_lookup (l : list N) p :
  p ∉ l →
  find_pos p (l ++ [p]) = length l ∧
  Nat.eqb (length l) (length (l ++ [p])) = false ∧
  (l ++ [p]) !! length l = Some p ∧
  delete (length l) (l ++ [p]) = l.
Proof.
  intros Hp. split_and!.
  - by apply find_pos_app_new.
  - apply Nat.eqb_neq. rewrite length_app. simpl. lia.
  - by rewrite list_lookup_middle.
  - rewrite delete_middle. by rewrite app_nil_r.
Qed.





(** ** [removeEdgeInternal] and [getEdge] *)

(** X14: [removeEdgeInternal] on a consistent graph always returns and never
    logs.  It takes the edge out of [m_edges], whatever its type, so also a
    membership edge, keeps [m_nodes] and the records of the other edges,
    and keeps the graph consistent; for an edge the graph does not own it
    changes nothing. *)
Theorem removeEdgeInternal_removes s e :
  graph_ok s →
  ∃ s',
    removeEdgeInternal e s = Ok (tt, s') ∧
    graph_ok s' ∧
    m_nodes s' = m_nodes s ∧
    m_edges s' = filter (λ x, x ≠ e) (m_edges s) ∧
    (∀ x, x ∈ m_edges s' → edges s' !! x = edges s !! x) ∧
    log s' = log s ∧
    (e ∉ m_edges s → s' = s).
Proof.
  intros Hok.
  destruct (removeEdgeInternal_ok s e Hok) as (s' & Hrun & Hok' & Hev & Hlog).
  exists s'.
  pose proof (ev_nodes _ _ _ _ Hev) as Hn. rewrite filter_not_in_nil in Hn.
  pose proof (ev_edges _ _ _ _ Hev) as Hedges.
  rewrite filter_ne_singleton in Hedges.
  split_and!; try done.
  - apply (ev_frame _ _ _ _ Hev).
  - intros Hnin. unfold removeEdgeInternal in Hrun.
    rewrite (find_pos_not_elem _ _ Hnin), Nat.eqb_refl in Hrun. congruence.
Qed.

Lemma removeEdgeInternal_removes_witness :
  ∃ s',
    removeEdgeInternal 3 hierarchy_state = Ok (tt, s') ∧
    graph_ok s' ∧
    m_nodes s' = m_nodes hierarchy_state ∧
    m_edges s' = filter (λ x, x ≠ 3) (m_edges hierarchy_state) ∧
    (∀ x, x ∈ m_edges s' → edges s' !! x = edges hierarchy_state !! x) ∧
    log s' = log hierarchy_state ∧
    (3 ∉ m_edges hierarchy_state → s' = hierarchy_state).
Proof.
  apply (removeEdgeInternal_removes hierarchy_state 3).
  apply (h_graph _ hierarchy_state_ok).
Defined.

(** X15: in a consistent graph [getEdge] from an owned node returns and
    never faults.  A result is an owned edge of the type asked for that
    ends in [to], and it starts in [from] unless [from = to]; and when an
    owned edge has the type, the start and the end asked for, the result is
    not null. *)
Theorem getEdge_result s type from to :
  graph_ok s → from ∈ m_nodes s →
  ∃ r, getEdge type from to s = Ok r ∧
       (∀ e, r = Some e →
          e ∈ m_edges s ∧
          ∃ E, edges s !! e = Some E ∧ edge_type E = type ∧ edge_to E = to ∧
               (edge_from E = from ∨ from = to)) ∧
       (∀ e E, e ∈ m_edges s → edges s !! e = Some E →
               edge_type E = type → edge_from E = from → edge_to E = to →
               is_Some r).
Proof.
  intros Hok Hfrom.
  destruct (getEdge_ok s type from to Hok Hfrom) as (r & Hrun & Hsome & Hnone).
  exists r. split_and!; try done.
  intros e E He HE Hty Hf Ht. destruct r as [e0|]; [by eexists|].
  exfalso. by apply (Hnone eq_refl e E He HE).
Qed.

Lemma getEdge_result_witness :
  ∃ r, getEdge (EDGE_OTHER 0) 6 4 hierarchy_state = Ok r ∧
       (∀ e, r = Some e →
          e ∈ m_edges hierarchy_state ∧
          ∃ E, edges hierarchy_state !! e = Some E ∧
               edge_type E = EDGE_OTHER 0 ∧ edge_to E = 4 ∧
               (edge_from E = 6 ∨ 6 = 4)) ∧
       (∀ e E, e ∈ m_edges hierarchy_state →
               edges hierarchy_state !! e = Some E →
               edge_type E = EDGE_OTHER 0 → edge_from E = 6 → edge_to E = 4 →
               is_Some r).
Proof.
  apply (getEdge_result hierarchy_state (EDGE_OTHER 0) 6 4
           (h_graph _ hierarchy_state_ok)).
  by_decide.
Defined.

(** ** Removing an edge that was just created *)

Lemma remove_first_middle e (l k : list N) :
  e ∉ l → remove_first e (l ++ e :: k) = l ++ k.
Proof.
  induction l as [|y l IH]; intros Hl; simpl.
  - by rewrite N.eqb_refl.
  - apply not_elem_of_cons in Hl as [Hy Hl].
    rewrite (proj2 (N.eqb_neq y e)) by done. f_equal. by apply IH.
Qed.

Lemma lookup_alter2 (f : Node → Node) a b (m : gmap N Node) x :
  alter f a (alter f b m) !! x
  = (if decide (a = x) then f else id)
      <$> ((if decide (b = x) then f else id) <$> m !! x).
Proof.
  rewrite lookup_alter. destruct (decide (a = x)) as [->|].
  - rewrite lookup_alter. destruct (decide (b = x)) as [->|]; [done|].
    by rewrite option_fmap_id.
  - rewrite option_fmap_id. rewrite lookup_alter.
    destruct (decide (b = x)) as [->|]; [done|]. by rewrite option_fmap_id.
Qed.

(** X16: [removeEdge] undoes [createEdge].  In a consistent graph with a
    sound allocator, when [getEdge] finds no edge for the type and the end
    points, so that [createEdge] makes a new one, and the type is not the
    membership type, removing the edge straight afterwards leaves the
    vectors, the nodes with their indexes, the edges and the log exactly as
    they were; this holds for [from = to] too. *)
Theorem removeEdge_undoes_createEdge s type from to :
  graph_ok s → alloc_fresh s →
  from ∈ m_nodes s → to ∈ m_nodes s →
  type ≠ EDGE_MEMBER →
  getEdge type from to s = Ok None →
  ∃ e s1 s2,
    createEdge type from to s = Ok (e, s1) ∧
    (e ∉ m_edges s) ∧ m_edges s1 = m_edges s ++ [e] ∧
    removeEdge e s1 = Ok (tt, s2) ∧
    m_nodes s2 = m_nodes s ∧ m_edges s2 = m_edges s ∧
    nodes s2 = nodes s ∧ edges s2 = edges s ∧ log s2 = log s.
Proof.
  intros Hok Hfresh Hfrom Hto Hty Hget.
  pose proof (graph_ok_live s Hok) as Hlive.
  pose proof (owned_not_fresh_edge s Hlive Hfresh) as Hp.
  pose proof (alloc_fresh_edge s Hfresh) as Hpe.
  destruct (ok_index s Hok from Hfrom) as (ndf & Hndf & _).
  destruct (ok_index s Hok to Hto) as (ndt & Hndt & _).
  set (p := next_addr s) in *.
  assert (Hidx : ∀ n nd, n ∈ m_nodes s → nodes s !! n = Some nd →
                         p ∉ node_edges nd).
  { intros n nd Hn Hnd Hin.
    by destruct (ok_index_elem s n nd p Hok Hn Hnd Hin). }
  set (E := mkEdge (next_id s) type from to).
  set (push := fun nd => node_with_edges (node_edges nd ++ [p]) nd).
  set (rm := fun nd => node_with_edges (remove_first p (node_edges nd)) nd).
  set (N1 := alter push to (alter push from (nodes s))).
  set (s1 := mkState (m_nodes s) (m_edges s ++ [p]) N1
               (<[p := E]> (edges s)) (p + 1) (next_id s + 1) (log s)).
  set (s2 := mkState (m_nodes s) (m_edges s) (nodes s) (edges s)
               (p + 1) (next_id s + 1) (log s)).
  exists p, s1, s2.
  assert (Hrun : createEdge type from to s = Ok (p, s1)).
  { unfold createEdge. rewrite (bind_Ok _ _ s None s) by (by apply read_Ok).
    unfold insertEdge, new_Edge.
    unfold bind at 1. unfold bind at 1. unfold Token_fresh_id at 1.
    rewrite construct_Edge_Ok by (simpl; by apply Hlive). reflexivity. }
  split_and!; try done.
  destruct (find_pos_pushed_lookup (m_edges s) p Hp) as (Hpos & Hneq & Hlook & Hdel).
  unfold removeEdge. cbn [m_edges s1]. rewrite Hpos, Hneq.
  unfold bind at 1. unfold ret at 1.
  unfold bind at 1. unfold read at 1, deref_edge at 1. cbn [edges s1].
  rewrite lookup_insert_eq. cbn [edge_type E].
  destruct (EdgeType_eqb type EDGE_MEMBER) eqn:Hm;
    [by apply EdgeType_eqb_eq in Hm|].
  unfold erase_edge. cbn [m_edges s1]. rewrite Hlook.
  unfold bind at 1. unfold modify at 1. unfold set_m_edges. cbn [m_edges s1].
  rewrite Hdel.
  rewrite (delete_Edge_Ok p E);
    [|cbn; apply lookup_insert_eq
     |cbn; unfold N1; rewrite !lookup_alter_is_Some; by eexists
     |cbn; unfold N1; rewrite !lookup_alter_is_Some; by eexists].
  cbn [edge_from edge_to E m_nodes m_edges nodes edges next_addr next_id log s1].
  fold rm. rewrite delete_insert_id by done.
  unfold s2. do 3 f_equal.
  apply map_eq. intros x. unfold N1. rewrite !lookup_alter2.
  destruct (nodes s !! x) as [nd|] eqn:Hnd;
    [|by destruct (decide (to = x)), (decide (from = x))].
  assert (Hi : to = x ∨ from = x → p ∉ node_edges nd).
  { intros [<-|<-]; [apply (Hidx to)|apply (Hidx from)]; done. }
  destruct nd as [id ty nm idx sig]. simpl in Hi.
  destruct (decide (to = x)) as [Ht|Ht], (decide (from = x)) as [Hf|Hf];
    simpl; try done; f_equal; unfold rm, push, node_with_edges; simpl; f_equal.
  - rewrite <- app_assoc. simpl.
    rewrite (remove_first_middle p idx [p]) by auto.
    by rewrite (remove_first_middle p idx []), app_nil_r by auto.
  - by rewrite (remove_first_middle p idx []), app_nil_r by auto.
  - by rewrite (remove_first_middle p idx []), app_nil_r by auto.
Qed.

Lemma removeEdge_undoes_createEdge_witness :
  ∃ e s1 s2,
    createEdge (EDGE_OTHER 4) 2 2 hierarchy_state = Ok (e, s1) ∧
    (e ∉ m_edges hierarchy_state) ∧
    m_edges s1 = m_edges hierarchy_state ++ [e] ∧
    removeEdge e s1 = Ok (tt, s2) ∧
    m_nodes s2 = m_nodes hierarchy_state ∧
    m_edges s2 = m_edges hierarchy_state ∧
    nodes s2 = nodes hierarchy_state ∧ edges s2 = edges hierarchy_state ∧
    log s2 = log hierarchy_state.
Proof.
  apply (removeEdge_undoes_createEdge hierarchy_state (EDGE_OTHER 4) 2 2
           (h_graph _ hierarchy_state_ok)).
  - apply (built_is_ok _ hierarchy_state_is_built).
  - by_decide.
  - by_decide.
  - discriminate.
  - vm_compute. reflexivity.
Defined.

(** ** What every reachable graph satisfies *)
















(** ** The overload without a type *)

(** X18: the overload of [createNodeHierarchy] without a type never changes
    what is there.  When a node has the full name, the call returns the
    first such node and the graph is untouched; otherwise it has only added,
    and in both cases every node that was alive keeps its type.  The node
    returned is the one [getNode] finds afterwards. *)
Theorem createNodeHierarchy1_keeps_types s fullName r s' :
  alloc_fresh s →
  createNodeHierarchy1 fullName s = Ok (r, s') →
  ∃ n, r = Some n ∧ getNode fullName s' = Ok (Some n) ∧ grows [] s s' ∧
       (∀ n0, getNode fullName s = Ok (Some n0) → n0 = n ∧ s' = s).
Proof.
  intros Hfresh Hrun. unfold createNodeHierarchy1 in Hrun.
  destruct (createNodeHierarchy_inv _ _ _ _ _ Hfresh Hrun)
    as (n & nd & -> & _ & _ & Hget' & _ & _ & _ & Hnew & Hold).
  exists n. split; [done|]. split; [done|].
  unfold createNodeHierarchy in Hrun.
  apply bind_inv in Hrun as (found & s0 & Hread & Hrest).
  unfold read in Hread.
  destruct (getNode fullName s) as [found0| |] eqn:Hget; [|done..].
  injection Hread as <- <-.
  destruct found0 as [n0|].
  - simpl in Hrest. injection Hrest as <- <-.
    split; [apply grows_refl|]. by intros n1 [= <-].
  - destruct (Hnew eq_refl) as (Hg & _). split; [done|]. by intros n0.
Qed.

Lemma createNodeHierarchy1_keeps_types_witness :
  ∃ r s',
    createNodeHierarchy1 "a::b::c" hierarchy_state = Ok (r, s') ∧
    ∃ n, r = Some n ∧ getNode "a::b::c" s' = Ok (Some n) ∧
         grows [] hierarchy_state s' ∧
         (∀ n0, getNode "a::b::c" hierarchy_state = Ok (Some n0) →
                n0 = n ∧ s' = hierarchy_state).
Proof.
  eexists _, _. split; [vm_compute; reflexivity|].
  apply (createNodeHierarchy1_keeps_types hierarchy_state "a::b::c").
  - apply (built_is_ok _ hierarchy_state_is_built).
  - vm_compute. reflexivity.
Defined.

(** ** The lookups return the first match *)

Lemma find_if_nodes_first func (h : gmap N Node) l n :
  find_if_nodes func h l = Ok (Some n) →
  ∃ i nd, l !! i = Some n ∧ h !! n = Some nd ∧ func nd = true ∧
    ∀ j m, (j < i)%nat → l !! j = Some m →
      ∃ ndm, h !! m = Some ndm ∧ func ndm = false.
Proof.
  induction l as [|x l IH]; simpl; [done|].
  destruct (h !! x) as [ndx|] eqn:Hx; [|done].
  destruct (func ndx) eqn:Hf.
  - intros [= <-]. exists 0%nat, ndx. split_and!; try done. intros j m Hj. lia.
  - intros (i & nd & Hi & Hnd & Hfn & Hbefore)%IH.
    exists (S i), nd. split_and!; try done.
    intros [|j] m Hj Hm; simpl in Hm.
    + injection Hm as <-. by exists ndx.
    + apply (Hbefore j m); [lia|done].
Qed.

Lemma find_if_edges_first func (h : gmap N Edge) l e :
  find_if_edges func h l = Ok (Some e) →
  ∃ i E, l !! i = Some e ∧ h !! e = Some E ∧ func E = true ∧
    ∀ j m, (j < i)%nat → l !! j = Some m →
      ∃ Em, h !! m = Some Em ∧ func Em = false.
Proof.
  induction l as [|x l IH]; simpl; [done|].
  destruct (h !! x) as [Ex|] eqn:Hx; [|done].
  destruct (func Ex) eqn:Hf.
  - intros [= <-]. exists 0%nat, Ex. split_and!; try done. intros j m Hj. lia.
  - intros (i & E & Hi & HE & Hfn & Hbefore)%IH.
    exists (S i), E. split_and!; try done.
    intros [|j] m Hj Hm; simpl in Hm.
    + injection Hm as <-. by exists Ex.
    + apply (Hbefore j m); [lia|done].
Qed.

(** X19: what the lookups find is the first match in storage order.  A node
    returned by [findNode] is stored in [m_nodes], satisfies the predicate,
    and every node stored before it is alive and does not satisfy it; the
    same holds for [findEdge] and [m_edges]; and when [getTokenById]
    returns an edge, no owned node has the id and the edge is the one
    [getEdgeById] returns. *)
Theorem lookups_first_match s :
  (∀ func n, findNode func s = Ok (Some n) →
     ∃ i nd, m_nodes s !! i = Some n ∧ nodes s !! n = Some nd ∧
       func nd = true ∧
       ∀ j m, (j < i)%nat → m_nodes s !! j = Some m →
         ∃ ndm, nodes s !! m = Some ndm ∧ func ndm = false) ∧
  (∀ func e, findEdge func s = Ok (Some e) →
     ∃ i E, m_edges s !! i = Some e ∧ edges s !! e = Some E ∧
       func E = true ∧
       ∀ j m, (j < i)%nat → m_edges s !! j = Some m →
         ∃ Em, edges s !! m = Some Em ∧ func Em = false) ∧
  (∀ id e, getTokenById id s = Ok (Some (EdgeToken e)) →
     getEdgeById id s = Ok (Some e) ∧
     ∀ n nd, n ∈ m_nodes s → nodes s !! n = Some nd → node_id nd ≠ id).
Proof.
  split_and!.
  - intros func n. apply find_if_nodes_first.
  - intros func e. apply find_if_edges_first.
  - intros id e. unfold getTokenById, findToken, getEdgeById.
    destruct (findNode _ s) as [[n|]| |] eqn:Hnode; simpl; [done| |done..].
    destruct (findEdge _ s) as [[e'|]| |] eqn:Hedge; simpl; [|done..].
    intros [= <-]. split; [done|].
    intros n nd Hn Hnd Hid. apply find_if_nodes_None in Hnode.
    specialize (Hnode n nd Hn Hnd). simpl in Hnode.
    apply N.eqb_neq in Hnode. done.
Qed.

Lemma lookups_first_match_witness :
  (∃ i nd, m_nodes shared_id_state !! i = Some 1 ∧
     nodes shared_id_state !! 1 = Some nd ∧
     N.eqb (node_id nd) 7 = true ∧
     ∀ j m, (j < i)%nat → m_nodes shared_id_state !! j = Some m →
       ∃ ndm, nodes shared_id_state !! m = Some ndm ∧
              N.eqb (node_id ndm) 7 = false) ∧
  (∃ i E, m_edges hierarchy_state !! i = Some 8 ∧
     edges hierarchy_state !! 8 = Some E ∧
     N.eqb (edge_id E) 8 = true ∧
     ∀ j m, (j < i)%nat → m_edges hierarchy_state !! j = Some m →
       ∃ Em, edges hierarchy_state !! m = Some Em ∧
             N.eqb (edge_id Em) 8 = false) ∧
  (getEdgeById 8 hierarchy_state = Ok (Some 8) ∧
   ∀ n nd, n ∈ m_nodes hierarchy_state → nodes hierarchy_state !! n = Some nd →
           node_id nd ≠ 8).
Proof.
  split_and!.
  - apply (proj1 (lookups_first_match shared_id_state)
             (fun nd => N.eqb (node_id nd) 7) 1).
    vm_compute. reflexivity.
  - apply (proj1 (proj2 (lookups_first_match hierarchy_state))
             (fun E => N.eqb (edge_id E) 8) 8).
    vm_compute. reflexivity.
  - apply (proj2 (proj2 (lookups_first_match hierarchy_state)) 8 8).
    vm_compute. reflexivity.
  - apply (proj2 (proj2 (lookups_first_match hierarchy_state)) 8 8).
    vm_compute. reflexivity.
Defined.

(** ** The operations on a reachable graph *)


